(** * ChromecastService: queue store, status sanitizer, playback
      verification, recovery policy and track-transition engine

    A shallow embedding of [src/services/ChromecastService.js].  The
    service object is a record of its fields; every method becomes a
    function on that record.  Asynchronous methods are modelled by
    their sequential reading (an [await] is a sequencing point), with
    the answers of the device library passed in as arguments; the
    interleaving of callbacks on the event loop is modelled separately
    by a step relation ([step]). *)

From Stdlib Require Import ZArith QArith Qround List String Lia Lqa Bool.
From stdpp Require Import base list strings relations.

Open Scope Z_scope.
Open Scope string_scope.

(** ** JavaScript values

    Device payloads are arbitrary JavaScript values.  Numbers are
    IEEE doubles in the source; here a number is [NaN] or a rational,
    and the arithmetic of the source rounds its result to the nearest
    double ([round64] below).  The two infinities are not values
    here; see [round64].  An object is the ordered list of its own
    data properties. *)

#[local] Set Warnings "-register-all".

Inductive number : Type :=
| NaN
| Fin (q : Q).

Inductive JsVal : Type :=
| JUndefined
| JNull
| JBool (b : bool)
| JNum (n : number)
| JStr (s : string)
| JFun
| JObj (props : list (string * JsVal)).

Definition num_of_Z (z : Z) : number := Fin (inject_Z z).

(** [typeof v] *)
Definition typeof (v : JsVal) : string :=
  match v with
  | JUndefined => "undefined"
  | JNull => "object"
  | JBool _ => "boolean"
  | JNum _ => "number"
  | JStr _ => "string"
  | JFun => "function"
  | JObj _ => "object"
  end.

(** ToBoolean: [undefined], [null], [false], [0], [NaN] and the empty
    string are falsy. *)
Definition truthy (v : JsVal) : bool :=
  match v with
  | JUndefined | JNull => false
  | JBool b => b
  | JNum NaN => false
  | JNum (Fin q) => negb (Qeq_bool q 0)
  | JStr s => negb (s =? "")
  | JFun | JObj _ => true
  end.

Fixpoint assoc (k : string) (ps : list (string * JsVal)) : JsVal :=
  match ps with
  | [] => JUndefined
  | (k', v) :: ps' => if k' =? k then v else assoc k ps'
  end.

(** [o.k] for a value that is not [null] or [undefined] (every read in
    the source is guarded so); primitives have none of the property
    names read here. *)
Definition get (o : JsVal) (k : string) : JsVal :=
  match o with
  | JObj ps => assoc k ps
  | _ => JUndefined
  end.

Fixpoint assign (k : string) (v : JsVal) (ps : list (string * JsVal))
  : list (string * JsVal) :=
  match ps with
  | [] => [(k, v)]
  | (k', v') :: ps' =>
      if k' =? k then (k', v) :: ps' else (k', v') :: assign k v ps'
  end.

(** [o.k = v] on an object. *)
Definition set (o : JsVal) (k : string) (v : JsVal) : JsVal :=
  match o with
  | JObj ps => JObj (assign k v ps)
  | _ => o
  end.

Definition keys (o : JsVal) : list string :=
  match o with
  | JObj ps => map fst ps
  | _ => []
  end.

(** [a || b] *)
Definition js_or (a b : JsVal) : JsVal := if truthy a then a else b.

(** [a === 'lit'] for a string literal. *)
Definition is_str (a : JsVal) (lit : string) : bool :=
  match a with
  | JStr s => s =? lit
  | _ => false
  end.

Definition is_nullish (v : JsVal) : bool :=
  match v with
  | JUndefined | JNull => true
  | _ => false
  end.

Definition is_null (v : JsVal) : bool :=
  match v with
  | JNull => true
  | _ => false
  end.

Definition is_undefined (v : JsVal) : bool :=
  match v with
  | JUndefined => true
  | _ => false
  end.

(** ** The status sanitizer *)

(** [_getDefaultStatus()] *)
Definition _getDefaultStatus : JsVal :=
  JObj [ ("mediaSessionId", JNull);
         ("playbackRate", JNum (num_of_Z 1));
         ("playerState", JStr "IDLE");
         ("currentTime", JNum (num_of_Z 0));
         ("volume", JNull);
         ("media", JNull) ].

(** The [volume] branch of [_sanitizeStatus]. *)
Definition sanitizeVolume (status safeStatus : JsVal) : JsVal :=
  let volume := get status "volume" in
  if truthy volume && (typeof volume =? "object") then
    set safeStatus "volume"
      (JObj [ ("level",
               if typeof (get volume "level") =? "number" then get volume "level"
               else if typeof volume =? "number" then volume
               else JNum (num_of_Z 0));
              ("muted",
               if typeof (get volume "muted") =? "boolean" then get volume "muted"
               else JBool false) ])
  else if typeof volume =? "number" then
    set safeStatus "volume"
      (JObj [ ("level", volume); ("muted", JBool false) ])
  else safeStatus.

(** The [media] branch of [_sanitizeStatus]. *)
Definition sanitizeMedia (status safeStatus : JsVal) : JsVal :=
  let media := get status "media" in
  if truthy media && (typeof media =? "object") then
    let safeMedia :=
      JObj [ ("contentId", js_or (get media "contentId") JNull);
             ("contentType", js_or (get media "contentType") JNull);
             ("duration",
              if typeof (get media "duration") =? "number"
              then get media "duration" else JNull);
             ("metadata", JNull) ] in
    let metadata := get media "metadata" in
    let safeMedia :=
      if truthy metadata && (typeof metadata =? "object") then
        set safeMedia "metadata"
          (JObj [ ("title", js_or (get metadata "title") JNull) ])
      else safeMedia in
    set safeStatus "media" safeMedia
  else safeStatus.

(** [_sanitizeStatus(status)].  The [try]/[catch] of the source guards
    the property reads; reads of plain data never throw, so the
    handler is unreachable here. *)
Definition _sanitizeStatus (status : JsVal) : JsVal :=
  if negb (truthy status) then _getDefaultStatus
  else if negb (typeof status =? "object") then _getDefaultStatus
  else
    let safeStatus := _getDefaultStatus in
    let safeStatus :=
      if negb (is_nullish (get status "mediaSessionId"))
      then set safeStatus "mediaSessionId" (get status "mediaSessionId")
      else safeStatus in
    let safeStatus :=
      if typeof (get status "playbackRate") =? "number"
      then set safeStatus "playbackRate" (get status "playbackRate")
      else safeStatus in
    let safeStatus :=
      if typeof (get status "playerState") =? "string"
      then set safeStatus "playerState" (get status "playerState")
      else safeStatus in
    let safeStatus :=
      if typeof (get status "currentTime") =? "number"
      then set safeStatus "currentTime" (get status "currentTime")
      else safeStatus in
    let safeStatus := sanitizeVolume status safeStatus in
    sanitizeMedia status safeStatus.

(** *** The shape of a sanitized status *)

Definition is_number (v : JsVal) : bool := typeof v =? "number".
Definition is_string (v : JsVal) : bool := typeof v =? "string".
Definition is_boolean (v : JsVal) : bool := typeof v =? "boolean".

Definition string_list_eqb (a b : list string) : bool :=
  bool_decide (a = b).

(** [null] or a truthy value: the result of [x || null]. *)
Definition null_or_truthy (v : JsVal) : bool :=
  match v with
  | JNull => true
  | _ => truthy v
  end.

Definition volume_shape (v : JsVal) : bool :=
  match v with
  | JNull => true
  | JObj _ =>
      string_list_eqb (keys v) ["level"; "muted"]
      && is_number (get v "level") && is_boolean (get v "muted")
  | _ => false
  end.

Definition metadata_shape (v : JsVal) : bool :=
  match v with
  | JNull => true
  | JObj _ =>
      string_list_eqb (keys v) ["title"] && null_or_truthy (get v "title")
  | _ => false
  end.

Definition media_shape (v : JsVal) : bool :=
  match v with
  | JNull => true
  | JObj _ =>
      string_list_eqb (keys v)
        ["contentId"; "contentType"; "duration"; "metadata"]
      && null_or_truthy (get v "contentId")
      && null_or_truthy (get v "contentType")
      && (is_number (get v "duration") || is_null (get v "duration"))
      && metadata_shape (get v "metadata")
  | _ => false
  end.

Definition status_keys : list string :=
  ["mediaSessionId"; "playbackRate"; "playerState"; "currentTime";
   "volume"; "media"].

(** Every field of the status is present and of its type; [volume]
    and [media] are [null] or complete sub-objects. *)
Definition status_shape (v : JsVal) : bool :=
  match v with
  | JObj _ =>
      string_list_eqb (keys v) status_keys
      && negb (is_undefined (get v "mediaSessionId"))
      && is_number (get v "playbackRate")
      && is_string (get v "playerState")
      && is_number (get v "currentTime")
      && volume_shape (get v "volume")
      && media_shape (get v "media")
  | _ => false
  end.

(** The six fields and their types, as a proposition. *)
Definition shaped (o : JsVal) : Prop :=
  (exists ps, o = JObj ps)
  /\ keys o = status_keys
  /\ is_undefined (get o "mediaSessionId") = false
  /\ is_number (get o "playbackRate") = true
  /\ is_string (get o "playerState") = true
  /\ is_number (get o "currentTime") = true
  /\ volume_shape (get o "volume") = true
  /\ media_shape (get o "media") = true.

(** What [_sanitizeStatus] accepts as a volume and as a media entry. *)
Definition usable_volume (v : JsVal) : bool :=
  (truthy v && (typeof v =? "object")) || (typeof v =? "number").

Definition usable_media (v : JsVal) : bool :=
  truthy v && (typeof v =? "object").

(** ** Tracks, devices and the service object *)

Open Scope Z_scope.
Open Scope list_scope.

(** A queue entry, as built by [addToQueue]. *)
Record Track : Type := mkTrack {
  url : string;
  title : string;
  artist : string;
  contentType : string;
  trackId : Z
}.

(** A discovered device: its name, and whether the library has
    initialised its [player]. *)
Record Device : Type := mkDevice {
  name : string;
  player : bool
}.

(** The fields of [ChromecastService] that the methods below read or
    write; [verificationTimeout] is the one configuration value they
    use. *)
Record Service : Type := mkService {
  verificationTimeout : JsVal;
  currentDevice : option Device;
  currentStatus : JsVal;
  queue : list Track;
  currentTrackIndex : Z;
  shuffle : bool;
  repeatMode : string;
  originalQueue : list Track;
  isAutoAdvancing : bool;
  sessionWarmupInProgress : bool;
  preloadInProgress : bool;
  connectionKeepAlive : bool
}.

(** The service as the constructor leaves it, with the verification
    timeout of [config/index.js] (1600 when the environment sets
    none). *)
Definition newService : Service :=
  {| verificationTimeout := JNum (num_of_Z 1600);
     currentDevice := None;
     currentStatus := _getDefaultStatus;
     queue := [];
     currentTrackIndex := -1;
     shuffle := false;
     repeatMode := "none";
     originalQueue := [];
     isAutoAdvancing := false;
     sessionWarmupInProgress := false;
     preloadInProgress := false;
     connectionKeepAlive := false |}.

Definition with_currentDevice (d : option Device) (s : Service) : Service :=
  {| verificationTimeout := verificationTimeout s;
     currentDevice := d;
     currentStatus := currentStatus s;
     queue := queue s;
     currentTrackIndex := currentTrackIndex s;
     shuffle := shuffle s;
     repeatMode := repeatMode s;
     originalQueue := originalQueue s;
     isAutoAdvancing := isAutoAdvancing s;
     sessionWarmupInProgress := sessionWarmupInProgress s;
     preloadInProgress := preloadInProgress s;
     connectionKeepAlive := connectionKeepAlive s |}.

Definition with_currentStatus (st : JsVal) (s : Service) : Service :=
  {| verificationTimeout := verificationTimeout s;
     currentDevice := currentDevice s;
     currentStatus := st;
     queue := queue s;
     currentTrackIndex := currentTrackIndex s;
     shuffle := shuffle s;
     repeatMode := repeatMode s;
     originalQueue := originalQueue s;
     isAutoAdvancing := isAutoAdvancing s;
     sessionWarmupInProgress := sessionWarmupInProgress s;
     preloadInProgress := preloadInProgress s;
     connectionKeepAlive := connectionKeepAlive s |}.

Definition with_queue (q : list Track) (s : Service) : Service :=
  {| verificationTimeout := verificationTimeout s;
     currentDevice := currentDevice s;
     currentStatus := currentStatus s;
     queue := q;
     currentTrackIndex := currentTrackIndex s;
     shuffle := shuffle s;
     repeatMode := repeatMode s;
     originalQueue := originalQueue s;
     isAutoAdvancing := isAutoAdvancing s;
     sessionWarmupInProgress := sessionWarmupInProgress s;
     preloadInProgress := preloadInProgress s;
     connectionKeepAlive := connectionKeepAlive s |}.

Definition with_currentTrackIndex (i : Z) (s : Service) : Service :=
  {| verificationTimeout := verificationTimeout s;
     currentDevice := currentDevice s;
     currentStatus := currentStatus s;
     queue := queue s;
     currentTrackIndex := i;
     shuffle := shuffle s;
     repeatMode := repeatMode s;
     originalQueue := originalQueue s;
     isAutoAdvancing := isAutoAdvancing s;
     sessionWarmupInProgress := sessionWarmupInProgress s;
     preloadInProgress := preloadInProgress s;
     connectionKeepAlive := connectionKeepAlive s |}.

Definition with_shuffle (b : bool) (s : Service) : Service :=
  {| verificationTimeout := verificationTimeout s;
     currentDevice := currentDevice s;
     currentStatus := currentStatus s;
     queue := queue s;
     currentTrackIndex := currentTrackIndex s;
     shuffle := b;
     repeatMode := repeatMode s;
     originalQueue := originalQueue s;
     isAutoAdvancing := isAutoAdvancing s;
     sessionWarmupInProgress := sessionWarmupInProgress s;
     preloadInProgress := preloadInProgress s;
     connectionKeepAlive := connectionKeepAlive s |}.

Definition with_repeatMode (m : string) (s : Service) : Service :=
  {| verificationTimeout := verificationTimeout s;
     currentDevice := currentDevice s;
     currentStatus := currentStatus s;
     queue := queue s;
     currentTrackIndex := currentTrackIndex s;
     shuffle := shuffle s;
     repeatMode := m;
     originalQueue := originalQueue s;
     isAutoAdvancing := isAutoAdvancing s;
     sessionWarmupInProgress := sessionWarmupInProgress s;
     preloadInProgress := preloadInProgress s;
     connectionKeepAlive := connectionKeepAlive s |}.

Definition with_originalQueue (q : list Track) (s : Service) : Service :=
  {| verificationTimeout := verificationTimeout s;
     currentDevice := currentDevice s;
     currentStatus := currentStatus s;
     queue := queue s;
     currentTrackIndex := currentTrackIndex s;
     shuffle := shuffle s;
     repeatMode := repeatMode s;
     originalQueue := q;
     isAutoAdvancing := isAutoAdvancing s;
     sessionWarmupInProgress := sessionWarmupInProgress s;
     preloadInProgress := preloadInProgress s;
     connectionKeepAlive := connectionKeepAlive s |}.

Definition with_isAutoAdvancing (b : bool) (s : Service) : Service :=
  {| verificationTimeout := verificationTimeout s;
     currentDevice := currentDevice s;
     currentStatus := currentStatus s;
     queue := queue s;
     currentTrackIndex := currentTrackIndex s;
     shuffle := shuffle s;
     repeatMode := repeatMode s;
     originalQueue := originalQueue s;
     isAutoAdvancing := b;
     sessionWarmupInProgress := sessionWarmupInProgress s;
     preloadInProgress := preloadInProgress s;
     connectionKeepAlive := connectionKeepAlive s |}.

Definition with_sessionWarmupInProgress (b : bool) (s : Service) : Service :=
  {| verificationTimeout := verificationTimeout s;
     currentDevice := currentDevice s;
     currentStatus := currentStatus s;
     queue := queue s;
     currentTrackIndex := currentTrackIndex s;
     shuffle := shuffle s;
     repeatMode := repeatMode s;
     originalQueue := originalQueue s;
     isAutoAdvancing := isAutoAdvancing s;
     sessionWarmupInProgress := b;
     preloadInProgress := preloadInProgress s;
     connectionKeepAlive := connectionKeepAlive s |}.

Definition with_preloadInProgress (b : bool) (s : Service) : Service :=
  {| verificationTimeout := verificationTimeout s;
     currentDevice := currentDevice s;
     currentStatus := currentStatus s;
     queue := queue s;
     currentTrackIndex := currentTrackIndex s;
     shuffle := shuffle s;
     repeatMode := repeatMode s;
     originalQueue := originalQueue s;
     isAutoAdvancing := isAutoAdvancing s;
     sessionWarmupInProgress := sessionWarmupInProgress s;
     preloadInProgress := b;
     connectionKeepAlive := connectionKeepAlive s |}.

Definition with_connectionKeepAlive (b : bool) (s : Service) : Service :=
  {| verificationTimeout := verificationTimeout s;
     currentDevice := currentDevice s;
     currentStatus := currentStatus s;
     queue := queue s;
     currentTrackIndex := currentTrackIndex s;
     shuffle := shuffle s;
     repeatMode := repeatMode s;
     originalQueue := originalQueue s;
     isAutoAdvancing := isAutoAdvancing s;
     sessionWarmupInProgress := sessionWarmupInProgress s;
     preloadInProgress := preloadInProgress s;
     connectionKeepAlive := b |}.

(** [queue.length] and [queue[i]] ([None] is [undefined]). *)
Definition qlen (q : list Track) : Z := Z.of_nat (length q).

Definition nth_track (q : list Track) (i : Z) : option Track :=
  if i <? 0 then None else q !! Z.to_nat i.

(** ** Effects

    What a method does besides changing the service object: calls
    into the device library, timers, log lines that name an attempt or
    the end of the queue, and tasks left running in the background. *)

Inductive Task : Type :=
| TPreloadTimer (nextIndex : Z) (nextTrack : Track)
    (* the [setTimeout(..., 1000)] of [_preloadNextTrack] *)
| TWatch (nextIndex : Z) (nextTrack : Track)
    (* a pending [setTimeout(checkForTransition, 500)] *)
| TAdvance (index : Z) (track : Track)
    (* [_executeAdvancement] suspended in [_playTrackWithRecovery] *)
| TSwitch (index : Z) (track : Track)
    (* [_verifyAndContinuePlayback] suspended *)
| TFinished (index : Z) (track : Track).
    (* [_handleTrackFinished] suspended in [playMedia] *)

Inductive Effect : Type :=
| DeviceGetStatus
| DevicePlay (mediaUrl mediaType mediaTitle : string)
| DeviceStop
| PlayerStop
| Sleep (ms : Z)
| RetryWait (ms : Z)          (* the wait before a retry in [_playTrackWithRecovery] *)
| SaveConnectionState
| LogAttempt (attempt : Z)
| LogQueueFinished
| LogError (message : string)
| Spawn (t : Task).

Inductive ErrorClass : Type := ChromecastError | PlainError | TypeError.

Record Error : Type := mkError {
  errorClass : ErrorClass;
  message : string
}.

Inductive Res (A : Type) : Type :=
| Ok (a : A)
| Throw (e : Error).
Arguments Ok {A} a.
Arguments Throw {A} e.

(** A method: from the service object to a result, the object after
    the call and the effects in order. *)
Definition M (A : Type) : Type := Service -> Res A * Service * list Effect.

Definition ret {A} (a : A) : M A := fun s => (Ok a, s, []).

Definition bind {A B} (m : M A) (k : A -> M B) : M B :=
  fun s =>
    match m s with
    | (Ok a, s1, tr1) =>
        let '(r, s2, tr2) := k a s1 in (r, s2, tr1 ++ tr2)
    | (Throw e, s1, tr1) => (Throw e, s1, tr1)
    end.

Definition throw {A} (e : Error) : M A := fun s => (Throw e, s, []).

Definition throwChromecast {A} (msg : string) : M A :=
  throw (mkError ChromecastError msg).

Definition emit (e : Effect) : M unit := fun s => (Ok tt, s, [e]).

Definition read : M Service := fun s => (Ok s, s, []).

Definition modify (f : Service -> Service) : M unit :=
  fun s => (Ok tt, f s, []).

(** [try { body } catch (e) { handler e }] *)
Definition try_catch {A} (body : M A) (handler : Error -> M A) : M A :=
  fun s =>
    match body s with
    | (Ok a, s1, tr1) => (Ok a, s1, tr1)
    | (Throw e, s1, tr1) =>
        let '(r, s2, tr2) := handler e s1 in (r, s2, tr1 ++ tr2)
    end.

(** [try { body } finally { fin }], for a [fin] that does not throw. *)
Definition finally {A} (body : M A) (fin : M unit) : M A :=
  fun s =>
    let '(r, s1, tr1) := body s in
    let '(_, s2, tr2) := fin s1 in (r, s2, tr1 ++ tr2).

Definition when (b : bool) (m : M unit) : M unit := if b then m else ret tt.

Notation "'do' x <- m ; k" := (bind m (fun x => k))
  (at level 10, x name, m at level 100, k at level 200).
Notation "m ;; k" := (bind m (fun _ => k))
  (at level 100, k at level 200, right associativity).

Definition result {A} (out : Res A * Service * list Effect) : Res A :=
  fst (fst out).
Definition after {A} (out : Res A * Service * list Effect) : Service :=
  snd (fst out).
Definition effects {A} (out : Res A * Service * list Effect) : list Effect :=
  snd out.

(** The [status] field of the object a command returns. *)
Inductive Outcome : Type := success | info.

(** ** The queue store *)

(** A value of [Math.random()]: the rational
    [num / (num + slack + 1)], which lies in [0, 1). *)
Record unitDraw : Type := mkDraw {
  num : nat;
  slack : nat
}.

(** [Math.floor(r * n)] *)
Definition floor_scaled (r : unitDraw) (n : nat) : nat :=
  Nat.div (num r * n) (num r + slack r + 1).

(** [[q[i], q[j]] = [q[j], q[i]]].  Both indexes are inside the array
    wherever the source swaps; outside it the array is left alone
    here. *)
Definition swap (i j : nat) (q : list Track) : list Track :=
  match q !! i, q !! j with
  | Some x, Some y => <[j := x]> (<[i := y]> q)
  | _, _ => q
  end.

(** The loop [for (let i = length - 1; i > 0; i--)] of [shuffleQueue],
    from index [i] down; [rng k] is the value of the [k]-th call of
    [Math.random()]. *)
Fixpoint fisherYates (rng : nat -> unitDraw) (k : nat) (i : nat)
    (q : list Track) : list Track :=
  match i with
  | O => q
  | S i' =>
      let j := floor_scaled (rng k) (i + 1) in
      fisherYates rng (S k) i' (swap i j q)
  end.

Definition shuffleQueue (rng : nat -> unitDraw) : M Outcome :=
  do s <- read;
  if qlen (queue s) <=? 1 then ret info
  else
    when (negb (shuffle s)) (modify (with_originalQueue (queue s)));;
    modify (fun s =>
      with_queue (fisherYates rng 0 (length (queue s) - 1) (queue s)) s);;
    modify (with_shuffle true);;
    modify (with_currentTrackIndex (-1));;
    ret success.

Definition restoreQueueOrder : M Outcome :=
  do s <- read;
  if negb (shuffle s) || (qlen (originalQueue s) =? 0) then ret info
  else
    modify (with_queue (originalQueue s));;
    modify (with_shuffle false);;
    modify (with_currentTrackIndex (-1));;
    ret success.

Definition clearQueue : M Outcome :=
  modify (with_queue []);;
  modify (with_currentTrackIndex (-1));;
  modify (with_originalQueue []);;
  ret success.

(** [removeFromQueue(index)], for an integer [index]; the removed
    track is returned with the outcome. *)
Definition removeFromQueue (index : Z) : M (Outcome * option Track) :=
  do s <- read;
  if (index <? 0) || (index >=? qlen (queue s))
  then throwChromecast "Invalid queue index"
  else
    let removedTrack := queue s !! Z.to_nat index in
    modify (with_queue (delete (Z.to_nat index) (queue s)));;
    when (currentTrackIndex s >=? index)
      (modify (with_currentTrackIndex (Z.max (-1) (currentTrackIndex s - 1))));;
    ret (success, removedTrack).

Definition validModes : list string := ["none"; "one"; "all"]%string.

Definition setRepeatMode (mode : string) : M Outcome :=
  if bool_decide (mode ∈ validModes)
  then modify (with_repeatMode mode);; ret success
  else throwChromecast "Invalid repeat mode. Valid modes: none, one, all".

(** The entry that [addToQueue] and [_fallbackToLegacyQueue] store
    for a track: an empty title, artist or content type gets its
    default.  ([track.name] and [track.id] are not fields of [Track]:
    the tracks that the controller builds carry a title, and the same
    number as [id] and [trackId].) *)
Definition queueEntry (t : Track) : Track :=
  {| url := url t;
     title := if (title t =? "")%string then "Unknown Track"%string
              else title t;
     artist := if (artist t =? "")%string then "Unknown Artist"%string
               else artist t;
     contentType := if (contentType t =? "")%string then "audio/mpeg"%string
                    else contentType t;
     trackId := trackId t |}.

(** The course of [device.queueLoad]: its callback reports no error,
    or reports one, or the call itself throws. *)
Inductive QueueLoad : Type :=
| QueueLoaded
| QueueLoadError
| QueueLoadThrows (e : Error).

(** [addToQueue(tracks)]: the queue is replaced by the entries of
    [tracks], whether the device takes the queue or the legacy
    fallback runs.  The promise is returned without [await], so an
    error thrown by [queueLoad] passes the [catch] by. *)
Definition addToQueue (answer : QueueLoad) (tracks : list Track)
  : M Outcome :=
  do s <- read;
  match currentDevice s with
  | None => throwChromecast "No device connected"
  | Some _ =>
      match answer with
      | QueueLoadThrows e => throw e
      | QueueLoaded | QueueLoadError =>
          modify (with_queue (map queueEntry tracks));;
          modify (with_currentTrackIndex 0);;
          ret success
      end
  end.

(** [disconnect()] *)
Definition disconnect : M unit :=
  do s <- read;
  when (connectionKeepAlive s) (modify (with_connectionKeepAlive false));;
  match currentDevice s with
  | Some _ =>
      modify (with_currentDevice None);;
      modify (with_currentStatus _getDefaultStatus)
  | None => ret tt
  end.

(** [stop()]; [playerStop] is the outcome of [player.stop()]. *)
Definition stop (playerStop : Res unit) : M Outcome :=
  do s <- read;
  match currentDevice s with
  | None => throwChromecast "No device connected"
  | Some d =>
      try_catch
        (when (negb (player d)) (throwChromecast "Player not initialized");;
         emit PlayerStop;;
         match playerStop with
         | Throw e => throw e
         | Ok _ =>
             when (truthy (currentStatus s))
               (modify (fun s => with_currentStatus
                  (set (set (set (currentStatus s)
                     "playerState" (JStr "IDLE"))
                     "currentTime" (JNum (num_of_Z 0)))
                     "media" JNull) s));;
             modify (with_currentTrackIndex (-1));;
             emit DeviceGetStatus;;
             ret success
         end)
        (fun e => throwChromecast ("Stop failed: " ++ message e)%string)
  end.

(** The service after a shuffle that found at least two entries. *)
Definition shuffled_state (rng : nat -> unitDraw) (s : Service) : Service :=
  with_currentTrackIndex (-1)
    (with_shuffle true
       (with_queue (fisherYates rng 0 (length (queue s) - 1) (queue s))
          (if shuffle s then s else with_originalQueue (queue s) s))).

(** ** Sequences of queue commands

    The commands that reach the queue store through [manageQueue],
    and the two events that change the current device.  An
    [addToQueue] that rejects leaves the service as it was and so
    adds nothing to a sequence. *)

Inductive QueueOp : Type :=
| OpConnected (d : Device)      (* [connectToDevice] resolved for [d] *)
| OpDisconnect
| OpAdd (tracks : list Track)    (* [addToQueue] resolved *)
| OpRemove (index : Z)
| OpClear
| OpShuffle (rng : nat -> unitDraw)
| OpRestore
| OpRepeat (mode : string).

Definition applyOp (op : QueueOp) : M unit :=
  match op with
  | OpConnected d => modify (with_currentDevice (Some d))
  | OpDisconnect => disconnect
  | OpAdd tracks => addToQueue QueueLoaded tracks;; ret tt
  | OpRemove index => removeFromQueue index;; ret tt
  | OpClear => clearQueue;; ret tt
  | OpShuffle rng => shuffleQueue rng;; ret tt
  | OpRestore => restoreQueueOrder;; ret tt
  | OpRepeat mode => setRepeatMode mode;; ret tt
  end.

(** A command that throws leaves the object as it was at the throw. *)
Definition runOps (ops : list QueueOp) (s : Service) : Service :=
  fold_left (fun s op => after (applyOp op s)) ops s.

(** ** Arithmetic on numbers *)

Definition Qltb (a b : Q) : bool := negb (Qle_bool b a).

(** *** Rounding to a double

    [round64 q] is the double nearest to [q], ties to the even
    significand: 53 bits of significand, exponents from -1022 to
    1023, subnormal numbers below.  Where the source gets an infinity
    (from 2^1024 - 2^970 on), the result here is 2^1024 with the same
    sign: no double is that large, so it compares with every double
    as the infinity does, which is all the source does with such a
    result. *)

Definition pow2 (e : Z) : Q := (2 ^ e)%Q.

(** The exponent [e] with [2^e <= q < 2^(e+1)], for a positive [q]. *)
Definition ilog2 (q : Q) : Z :=
  let e := Z.log2 (Qnum q) - Z.log2 (Zpos (Qden q)) in
  if Qle_bool (pow2 e) q then e else e - 1.

Definition roundHalfEven (q : Q) : Z :=
  let f := Qfloor q in
  match Qcompare (q - inject_Z f) (1 # 2) with
  | Lt => f
  | Gt => f + 1
  | Eq => if Z.even f then f else f + 1
  end.

Definition round64_pos (q : Q) : Q :=
  if Qle_bool (pow2 1024) q then pow2 1024
  else
    let ulp := pow2 (Z.max (ilog2 q) (-1022) - 52) in
    (inject_Z (roundHalfEven (q / ulp)) * ulp)%Q.

Definition round64 (q : Q) : Q :=
  Qred match Qcompare q 0 with
       | Eq => 0
       | Gt => round64_pos q
       | Lt => - round64_pos (- q)
       end.

(** The literal [0.7]. *)
Definition seven_tenths : Q := round64 (7 # 10).

(** [a * b] and [a - b] *)
Definition n_mul (a b : number) : number :=
  match a, b with
  | Fin x, Fin y => Fin (round64 (x * y))
  | _, _ => NaN
  end.

Definition n_sub (a b : number) : number :=
  match a, b with
  | Fin x, Fin y => Fin (round64 (x - y))
  | _, _ => NaN
  end.

(** [a > b], [a >= b], [a <= b] on numbers: false when either is NaN. *)
Definition n_gt (a b : number) : bool :=
  match a, b with
  | Fin x, Fin y => Qltb y x
  | _, _ => false
  end.

Definition n_ge (a b : number) : bool :=
  match a, b with
  | Fin x, Fin y => Qle_bool y x
  | _, _ => false
  end.

Definition n_le (a b : number) : bool :=
  match a, b with
  | Fin x, Fin y => Qle_bool x y
  | _, _ => false
  end.

(** ** Answers of the device library *)

(** A status event: the name of the device that sent it, and the
    payload. *)
Definition Event : Type := (string * JsVal)%type.

(** The callback of [getStatus] inside [_verifyPlayback]. *)
Inductive Poll : Type :=
| PollStatus (status : JsVal)
| PollError
| PollThrows.

(** One pass of the verification loop, as the environment shapes it:
    the status events delivered during the wait that precedes the
    pass and by how much that wait overran; the answer to the poll,
    the time the poll took and the events delivered meanwhile. *)
Record Tick : Type := mkTick {
  waitEvents : list Event;
  waitOverrun : nat;
  poll : Poll;
  pollTook : nat;
  pollEvents : list Event
}.

(** The callback of [getStatus] inside [_ensureSessionActive]. *)
Inductive Probe : Type :=
| ProbeError (noSessionStarted : bool)
| ProbeStatus (status : JsVal)
| ProbeThrows.

(** The course of the warm-up load of [_ensureSessionActive]. *)
Inductive Warmup : Type :=
| WarmupPlayError
| WarmupPlayThrows
| WarmupStopThrows
| WarmupDone.

(** The outcome of [device.play] inside [_playMediaDirectly]. *)
Inductive Load : Type :=
| LoadOk
| LoadError (msg : string)
| LoadThrows (msg : string)
| LoadTimeout.

(** What the device does during one [playMedia]. *)
Record PlayEnv : Type := mkPlayEnv {
  probe : Probe;
  probeEvents : list Event;
  warmup : Warmup;
  warmupEvents : list Event;
  stopEvents : list Event;
  load : Load;
  loadEvents : list Event;
  ticks : nat -> Tick
}.

(** The outcome of [connectToDevice] when no device is current: the
    device answered with [status]; or the device was found and the
    connection failed or timed out; or no device of that name was
    found. *)
Inductive Connect : Type :=
| Connected (d : Device) (status : JsVal)
| ConnectFailed (d : Device) (msg : string)
| ConnectNotFound (msg : string).

(** What the environment does during one attempt of
    [_playTrackWithRecovery]. *)
Record AttemptEnv : Type := mkAttemptEnv {
  savedDeviceName : option string;   (* [loadConnectionState()?.deviceName] *)
  recoveryConnect : Connect;         (* inside [_attemptDeviceRecovery] *)
  retryConnect : Connect;            (* the reconnection with queue recovery *)
  play : PlayEnv
}.

Definition spawned (tr : list Effect) : list Task :=
  omap (fun e => match e with Spawn t => Some t | _ => None end) tr.

Definition interval : Z := 250.
Definition maxAttempts : Z := 3.

Section Engine.

(** ToNumber on strings, functions and objects (parsing of numeric
    strings, [valueOf]) is left to the caller. *)
Variable toNumberOther : JsVal -> number.

Definition ToNumber (v : JsVal) : number :=
  match v with
  | JUndefined => NaN
  | JNull => num_of_Z 0
  | JBool b => num_of_Z (if b then 1 else 0)
  | JNum n => n
  | _ => toNumberOther v
  end.

(** *** Selecting the next track *)

(** The selection at the head of [_executeAdvancement]: the index and
    the track handed to [_playTrackWithRecovery], or [None] when the
    queue is finished.  Reading a field of a missing entry throws. *)
Definition advanceSelect : M (option (Z * Track)) :=
  do s <- read;
  let queueBackup := queue s in
  let currentIndex := currentTrackIndex s in
  if (repeatMode s =? "one")%string && (currentIndex >=? 0) then
    match nth_track queueBackup currentIndex with
    | Some currentTrack => ret (Some (currentIndex, currentTrack))
    | None => throw (mkError TypeError "Cannot read properties of undefined")
    end
  else if currentIndex <? qlen queueBackup - 1 then
    let nextIndex := currentIndex + 1 in
    match nth_track queueBackup nextIndex with
    | Some nextTrack =>
        modify (with_currentTrackIndex nextIndex);;
        ret (Some (nextIndex, nextTrack))
    | None => throw (mkError TypeError "Cannot read properties of undefined")
    end
  else if (repeatMode s =? "all")%string && (qlen queueBackup >? 0) then
    match nth_track queueBackup 0 with
    | Some firstTrack =>
        modify (with_currentTrackIndex 0);;
        ret (Some (0, firstTrack))
    | None => throw (mkError TypeError "Cannot read properties of undefined")
    end
  else emit LogQueueFinished;; ret None.

(** The selection of [_handleTrackFinished]. *)
Definition finishedSelect : M (option (Z * Track)) :=
  do s <- read;
  if (repeatMode s =? "one")%string && (currentTrackIndex s >=? 0) then
    match nth_track (queue s) (currentTrackIndex s) with
    | Some currentTrack => ret (Some (currentTrackIndex s, currentTrack))
    | None => throw (mkError TypeError "Cannot read properties of undefined")
    end
  else if (qlen (queue s) >? 0)
          && (currentTrackIndex s <? qlen (queue s) - 1) then
    modify (with_currentTrackIndex (currentTrackIndex s + 1));;
    match nth_track (queue s) (currentTrackIndex s + 1) with
    | Some nextTrack => ret (Some (currentTrackIndex s + 1, nextTrack))
    | None => throw (mkError TypeError "Cannot read properties of undefined")
    end
  else if (repeatMode s =? "all")%string && (qlen (queue s) >? 0) then
    modify (with_currentTrackIndex 0);;
    match nth_track (queue s) 0 with
    | Some firstTrack => ret (Some (0, firstTrack))
    | None => throw (mkError TypeError "Cannot read properties of undefined")
    end
  else emit LogQueueFinished;; ret None.

(** *** Status updates and the two transition strategies *)

(** [_executeAdvancement] up to its first suspension: it selects, and
    either stays in flight (as the task [TAdvance]) or, when nothing
    is selected or the selection throws, runs to its [finally]. *)
Definition executeAdvancement_start : M unit :=
  try_catch
    (do sel <- advanceSelect;
     match sel with
     | Some (i, t) => emit (Spawn (TAdvance i t))
     | None => modify (with_isAutoAdvancing false)
     end)
    (fun e =>
       emit (LogError "Auto-advancement execution failed");;
       modify (with_isAutoAdvancing false)).

(** [_preloadNextTrack] up to the [setTimeout]. *)
Definition _preloadNextTrack : M unit :=
  try_catch
    (do s <- read;
     let nextIndex := currentTrackIndex s + 1 in
     if nextIndex >=? qlen (queue s) then modify (with_preloadInProgress false)
     else
       match nth_track (queue s) nextIndex with
       | Some nextTrack => emit (Spawn (TPreloadTimer nextIndex nextTrack))
       | None => throw (mkError TypeError "Cannot read properties of undefined")
       end)
    (fun e =>
       emit (LogError "Preload initiation failed");;
       modify (with_preloadInProgress false)).

Definition shouldPreloadNow (status : JsVal) (s : Service) : bool :=
  if truthy status && truthy (get status "media")
     && truthy (get (get status "media") "duration")
     && negb (is_undefined (get status "currentTime"))
  then
    let duration := ToNumber (get (get status "media") "duration") in
    let currentTime := ToNumber (get status "currentTime") in
    let preloadThreshold := n_mul duration (Fin seven_tenths) in
    n_gt duration (num_of_Z 0) && n_ge currentTime preloadThreshold
    && (qlen (queue s) >? 0) && (currentTrackIndex s >=? 0)
    && (currentTrackIndex s <? qlen (queue s) - 1)
    && negb (isAutoAdvancing s) && negb (preloadInProgress s)
  else false.

Definition shouldAdvanceTraditional
    (previousState currentState : JsVal) (s : Service) : bool :=
  let isStateTransition :=
    is_str previousState "PLAYING"
    && (is_str currentState "IDLE" || is_str currentState "BUFFERING") in
  isStateTransition && (qlen (queue s) >? 0) && (currentTrackIndex s >=? 0)
  && negb (isAutoAdvancing s).

(** [_handleTrackTransition]: both decisions are taken on the state
    found at entry, then acted upon in turn. *)
Definition _handleTrackTransition
    (previousState currentState status : JsVal) : M unit :=
  do s <- read;
  let shouldPreload := shouldPreloadNow status s in
  let advance := shouldAdvanceTraditional previousState currentState s in
  when shouldPreload
    (modify (with_preloadInProgress true);; _preloadNextTrack);;
  when advance
    (modify (with_isAutoAdvancing true);; executeAdvancement_start).

Definition is_current (deviceName : string) (s : Service) : bool :=
  match currentDevice s with
  | Some d => (name d =? deviceName)%string
  | None => false
  end.

(** [_handleStatusUpdate(device, status)] *)
Definition _handleStatusUpdate (deviceName : string) (status : JsVal)
  : M unit :=
  do s <- read;
  if is_current deviceName s then
    if negb (truthy status) || negb (typeof status =? "object")%string
    then ret tt
    else
      let previousState :=
        if truthy (currentStatus s) then get (currentStatus s) "playerState"
        else JNull in
      modify (with_currentStatus status);;
      emit SaveConnectionState;;
      when (truthy (get status "playerState"))
        (if sessionWarmupInProgress s then ret tt
         else _handleTrackTransition previousState
                (get status "playerState") status)
  else ret tt.

(** The status events the device sends while the caller waits. *)
Fixpoint deliver (events : list Event) : M unit :=
  match events with
  | [] => ret tt
  | (deviceName, status) :: rest =>
      _handleStatusUpdate deviceName status;; deliver rest
  end.

(** [_handleTrackFinished] up to its first suspension. *)
Definition handleTrackFinished_start : M unit :=
  do s <- read;
  if isAutoAdvancing s then ret tt
  else
    modify (with_isAutoAdvancing true);;
    try_catch
      (do sel <- finishedSelect;
       match sel with
       | Some (i, t) => emit (Spawn (TFinished i t))
       | None => modify (with_isAutoAdvancing false)
       end)
      (fun e =>
         emit (LogError "Track auto-advancement failed");;
         modify (with_isAutoAdvancing false)).

(** [_verifyAndContinuePlayback] up to its first suspension: with a
    cached PLAYING state it runs to its [finally] at once. *)
Definition verifyAndContinuePlayback_start (track : Track) (trackIndex : Z)
  : M unit :=
  do s <- read;
  if negb (truthy (currentStatus s))
     || negb (is_str (get (currentStatus s) "playerState") "PLAYING")
  then emit (Spawn (TSwitch trackIndex track))
  else modify (with_isAutoAdvancing false).

(** [checkForTransition], the timer callback of
    [_setupSeamlessTransition]. *)
Definition checkForTransition (nextTrack : Track) (nextIndex : Z) : M unit :=
  do s <- read;
  if isAutoAdvancing s then ret tt
  else
    let cs := currentStatus s in
    let continue :=
      when (negb (isAutoAdvancing s) && (currentTrackIndex s <? nextIndex))
        (emit (Spawn (TWatch nextIndex nextTrack))) in
    if truthy cs && truthy (get cs "media")
       && truthy (get (get cs "media") "duration")
    then
      let duration := ToNumber (get (get cs "media") "duration") in
      let currentTime := ToNumber (js_or (get cs "currentTime") (JNum (num_of_Z 0))) in
      let timeRemaining := n_sub duration currentTime in
      if n_le timeRemaining (num_of_Z 2) || is_str (get cs "playerState") "IDLE"
      then
        modify (with_isAutoAdvancing true);;
        modify (with_currentTrackIndex nextIndex);;
        verifyAndContinuePlayback_start nextTrack nextIndex
      else continue
    else continue.

(** *** Playback verification *)

(** [Math.max(3000, Number(verificationTimeout) || 5000)], in
    milliseconds. *)
Definition verificationTimeoutMs (s : Service) : Q :=
  let configured :=
    match ToNumber (verificationTimeout s) with
    | NaN => 5000%Q
    | Fin q => if Qeq_bool q 0 then 5000%Q else q
    end in
  if Qle_bool 3000 configured then configured else 3000%Q.

Definition playingOrBuffering (status : JsVal) : bool :=
  is_str (get status "playerState") "PLAYING"
  || is_str (get status "playerState") "BUFFERING".

(** The poll inside the loop: [null] unless the device answers with a
    truthy status. *)
Definition pollDevice (t : Tick) : M JsVal :=
  do s <- read;
  match currentDevice s with
  | None => ret JNull
  | Some _ =>
      emit DeviceGetStatus;;
      match poll t with
      | PollThrows => ret JNull
      | PollError => deliver (pollEvents t);; ret JNull
      | PollStatus status => deliver (pollEvents t);; ret (js_or status JNull)
      end
  end.

(** The [while (Date.now() - start < timeout)] loop of
    [_verifyPlayback]; [elapsed] is [Date.now() - start] at the test
    and [k] counts the passes.  [None] means the fuel ran out. *)
Fixpoint verifyLoop (fuel : nat) (ticks : nat -> Tick) (k : nat)
    (timeout : Q) (elapsed : Z) : M (option bool) :=
  match fuel with
  | O => ret None
  | S fuel' =>
      if Qltb (inject_Z elapsed) timeout then
        do s <- read;
        if truthy (currentStatus s) && playingOrBuffering (currentStatus s)
        then ret (Some true)
        else
          do polled <- pollDevice (ticks k);
          do verified <-
            (if truthy polled && (typeof polled =? "object")%string then
               do s <- read;
               match currentDevice s with
               | Some d => _handleStatusUpdate (name d) polled
               | None => ret tt
               end;;
               ret (playingOrBuffering polled)
             else ret false);
          if verified then ret (Some true)
          else
            emit (Sleep interval);;
            deliver (waitEvents (ticks (S k)));;
            verifyLoop fuel' ticks (S k) timeout
              (elapsed + Z.of_nat (pollTook (ticks k)) + interval
               + Z.of_nat (waitOverrun (ticks (S k))))
      else ret (Some false)
  end.

(** Passes that fit in the window: every pass takes at least
    [interval]. *)
Definition passBound (timeout : Q) : nat :=
  S (Z.to_nat (Qceiling timeout / interval)).

(** [_verifyPlayback()]; the loop never runs out of the fuel given
    here (lemma [verifyLoop_enough_fuel]). *)
Definition _verifyPlayback (ticks : nat -> Tick) : M bool :=
  do s <- read;
  let timeout := verificationTimeoutMs s in
  emit (Sleep interval);;
  deliver (waitEvents (ticks O));;
  do r <- verifyLoop (passBound timeout) ticks O timeout
            (interval + Z.of_nat (waitOverrun (ticks O)));
  ret (match r with Some b => b | None => false end).

(** *** Playing a track *)

Definition warmupMedia : Effect :=
  DevicePlay
    "http://commondatastorage.googleapis.com/gtv-videos-bucket/sample/BigBuckBunny.mp4"
    "video/mp4" "Session Warmup".

Definition _ensureSessionActive (env : PlayEnv) : M bool :=
  do s <- read;
  match currentDevice s with
  | None => throwChromecast "No device connected"
  | Some _ =>
      do hasSession <-
        (emit DeviceGetStatus;;
         match probe env with
         | ProbeThrows => ret false
         | ProbeError noSessionStarted =>
             deliver (probeEvents env);; ret (negb noSessionStarted)
         | ProbeStatus status =>
             deliver (probeEvents env);; ret (truthy status)
         end);
      if hasSession then ret true
      else
        modify (with_sessionWarmupInProgress true);;
        emit warmupMedia;;
        match warmup env with
        | WarmupPlayThrows =>
            modify (with_sessionWarmupInProgress false);; ret false
        | WarmupPlayError =>
            deliver (warmupEvents env);;
            modify (with_sessionWarmupInProgress false);; ret false
        | WarmupStopThrows =>
            deliver (warmupEvents env);;
            emit (Sleep 800);;
            emit DeviceStop;;
            modify (with_sessionWarmupInProgress false);; ret true
        | WarmupDone =>
            deliver (warmupEvents env);;
            emit (Sleep 800);;
            emit DeviceStop;;
            emit DeviceGetStatus;;
            modify (with_sessionWarmupInProgress false);; ret true
        end
  end.

Definition _stopCurrentPlayback (env : PlayEnv) : M unit :=
  do s <- read;
  match currentDevice s with
  | None => ret tt
  | Some _ => emit DeviceStop;; deliver (stopEvents env)
  end.

Definition _playMediaDirectly (env : PlayEnv)
    (contentUrl mediaType mediaTitle : string) : M unit :=
  do s <- read;
  match currentDevice s with
  | None => throwChromecast "No device connected"
  | Some _ =>
      emit (DevicePlay contentUrl mediaType mediaTitle);;
      match load env with
      | LoadOk => deliver (loadEvents env)
      | LoadError msg =>
          deliver (loadEvents env);;
          throwChromecast ("Failed to play media: " ++ msg)%string
      | LoadThrows msg =>
          throwChromecast ("Failed to play media: " ++ msg)%string
      | LoadTimeout =>
          deliver (loadEvents env);;
          throwChromecast "Media load timeout"
      end;;
      do isPlaying <- _verifyPlayback (ticks env);
      if isPlaying then ret tt
      else throwChromecast "Playback verification failed"
  end.

(** [playMedia(track.url, track.contentType, track.title, forceStop)] *)
Definition playMedia (env : PlayEnv) (track : Track) (forceStop : bool)
  : M bool :=
  do s <- read;
  match currentDevice s with
  | None => throwChromecast "No device connected"
  | Some _ =>
      try_catch
        (_ensureSessionActive env;;
         when forceStop (_stopCurrentPlayback env);;
         _playMediaDirectly env (url track) (contentType track) (title track);;
         ret true)
        (fun e =>
           match errorClass e with
           | ChromecastError => throw e
           | _ => throwChromecast ("Media playback failed: " ++ message e)%string
           end)
  end.

(** [skipToNext()]; [playerStop] is the outcome of [player.stop()]. *)
Definition skipToNext (env : PlayEnv) (playerStop : Res unit) : M Outcome :=
  do s <- read;
  match currentDevice s with
  | None => throwChromecast "No device connected"
  | Some d =>
      try_catch
        (if (qlen (queue s) >? 0)
            && (currentTrackIndex s <? qlen (queue s) - 1)
         then
           modify (with_currentTrackIndex (currentTrackIndex s + 1));;
           match nth_track (queue s) (currentTrackIndex s + 1) with
           | Some nextTrack => playMedia env nextTrack true;; ret success
           | None =>
               throw (mkError TypeError "Cannot read properties of undefined")
           end
         else if player d && is_str (get (currentStatus s) "playerState") "PLAYING"
         then
           emit PlayerStop;;
           match playerStop with
           | Ok _ => ret success
           | Throw e => throw e
           end
         else ret info)
        (fun e => throwChromecast ("Skip failed: " ++ message e)%string)
  end.

(** *** Recovery *)

(** [connectToDevice(name)] called while no device is current, by
    its outcome.  Every failure ends in [disconnect()]; one that comes
    after the device was made current thereby resets the status. *)
Definition connectToDevice (c : Connect) : M bool :=
  match c with
  | Connected d status =>
      disconnect;;
      modify (with_currentDevice (Some d));;
      _handleStatusUpdate (name d) status;;
      emit SaveConnectionState;;
      modify (with_connectionKeepAlive true);;
      ret true
  | ConnectFailed d msg =>
      disconnect;;
      modify (with_currentDevice (Some d));;
      disconnect;;
      throwChromecast msg
  | ConnectNotFound msg =>
      disconnect;;
      throwChromecast msg
  end.

Definition has_device (s : Service) : bool :=
  match currentDevice s with
  | Some _ => true
  | None => false
  end.

Definition saved_name (env : AttemptEnv) : bool :=
  match savedDeviceName env with
  | Some n => negb (n =? "")%string
  | None => false
  end.

(** [_attemptDeviceRecovery()], called while no device is current. *)
Definition _attemptDeviceRecovery (env : AttemptEnv) : M bool :=
  try_catch
    (if saved_name env then
       connectToDevice (recoveryConnect env);;
       do s <- read; ret (has_device s)
     else ret false)
    (fun e => ret false).

(** The body of the [try] of one attempt. *)
Definition playAttempt (env : AttemptEnv) (track : Track)
    (queueBackup : list Track) (trackIndex attempt : Z) : M unit :=
  emit (LogAttempt attempt);;
  do s <- read;
  when (negb (has_device s))
    (_attemptDeviceRecovery env;;
     do s <- read;
     when (negb (has_device s) && saved_name env)
       (modify (with_queue queueBackup);;
        modify (with_currentTrackIndex trackIndex);;
        connectToDevice (retryConnect env);; ret tt));;
  do s <- read;
  if negb (has_device s)
  then throw (mkError PlainError "Unable to establish device connection")
  else
    modify (with_queue queueBackup);;
    modify (with_currentTrackIndex trackIndex);;
    playMedia (play env) track true;;
    ret tt.

(** The [for (let attempt = 1; attempt <= maxAttempts; attempt++)]
    loop, with [n] passes left. *)
Fixpoint recoveryLoop (n : nat) (attempt : Z) (envs : Z -> AttemptEnv)
    (track : Track) (queueBackup : list Track) (trackIndex : Z) : M unit :=
  match n with
  | O => ret tt
  | S n' =>
      try_catch
        (playAttempt (envs attempt) track queueBackup trackIndex attempt)
        (fun e =>
           if attempt =? maxAttempts then throw e
           else
             emit (RetryWait (1000 * attempt));;
             recoveryLoop n' (attempt + 1) envs track queueBackup trackIndex)
  end.

Definition _playTrackWithRecovery (envs : Z -> AttemptEnv) (track : Track)
    (queueBackup : list Track) (trackIndex : Z) : M unit :=
  recoveryLoop (Z.to_nat maxAttempts) 1 envs track queueBackup trackIndex.

(** [_executeAdvancement()], run to its end. *)
Definition _executeAdvancement (envs : Z -> AttemptEnv) : M unit :=
  finally
    (try_catch
       (do s <- read;
        let queueBackup := queue s in
        do sel <- advanceSelect;
        match sel with
        | Some (i, t) => _playTrackWithRecovery envs t queueBackup i
        | None => ret tt
        end)
       (fun e => emit (LogError "Auto-advancement execution failed")))
    (modify (with_isAutoAdvancing false)).

(** *** The event loop

    A configuration is the service object and the tasks suspended or
    scheduled.  Each step is one run-to-completion callback. *)

Definition holds_flag (t : Task) : bool :=
  match t with
  | TAdvance _ _ | TSwitch _ _ | TFinished _ _ => true
  | TPreloadTimer _ _ | TWatch _ _ => false
  end.

Fixpoint holders (ts : list Task) : nat :=
  match ts with
  | [] => O
  | t :: ts' => ((if holds_flag t then 1 else 0) + holders ts')%nat
  end.

(** Writes that leave the two guard flags alone: user commands, the
    writes of a suspended task between its start and its end, a
    disconnect. *)
Definition same_flags (s s' : Service) : Prop :=
  isAutoAdvancing s' = isAutoAdvancing s
  /\ preloadInProgress s' = preloadInProgress s.

Inductive step : Service * list Task -> Service * list Task -> Prop :=
| step_status deviceName status s ts :
    (* a status event, pushed or polled *)
    step (s, ts)
      (after (_handleStatusUpdate deviceName status s),
       ts ++ spawned (effects (_handleStatusUpdate deviceName status s)))
| step_finished s ts :
    (* the [finished] event of the current device *)
    step (s, ts)
      (after (handleTrackFinished_start s),
       ts ++ spawned (effects (handleTrackFinished_start s)))
| step_preload_loaded i t s ts1 ts2 :
    (* the preload timer ran and the device took the load *)
    step (s, ts1 ++ TPreloadTimer i t :: ts2)
      (with_preloadInProgress false s, ts1 ++ ts2 ++ [TWatch i t])
| step_preload_failed i t s ts1 ts2 :
    step (s, ts1 ++ TPreloadTimer i t :: ts2)
      (with_preloadInProgress false s, ts1 ++ ts2)
| step_watch i t s ts1 ts2 :
    step (s, ts1 ++ TWatch i t :: ts2)
      (after (checkForTransition t i s),
       ts1 ++ ts2 ++ spawned (effects (checkForTransition t i s)))
| step_advance_done i t s ts1 ts2 :
    step (s, ts1 ++ TAdvance i t :: ts2)
      (with_isAutoAdvancing false s, ts1 ++ ts2)
| step_switch_done i t s ts1 ts2 :
    step (s, ts1 ++ TSwitch i t :: ts2)
      (with_isAutoAdvancing false s, ts1 ++ ts2)
| step_finished_done i t s ts1 ts2 :
    step (s, ts1 ++ TFinished i t :: ts2)
      (with_isAutoAdvancing false s, ts1 ++ ts2)
| step_other s s' ts :
    same_flags s s' -> step (s, ts) (s', ts).

End Engine.

(** ** The next-track rule, in the words of the specification

    If the repeat mode is ONE, replay the current index; else if the
    current index is below the last index, advance by one; else if
    the repeat mode is ALL, wrap to index 0; else there is no next
    track. *)
Definition specNextIndex (mode : string) (currentIndex lastIndex : Z)
  : option Z :=
  if (mode =? "one")%string then Some currentIndex
  else if currentIndex <? lastIndex then Some (currentIndex + 1)
  else if (mode =? "all")%string then Some 0
  else None.

(** The device is asked to load [t]. *)
Definition loads (t : Track) (tr : list Effect) : Prop :=
  In (DevicePlay (url t) (contentType t) (title t)) tr.

(** ** Statements about methods

    [returns I m Q]: from a state in [I], [m] returns a value in [Q]
    and leaves a state in [I]; [throws I m E]: it throws an error in
    [E] instead. *)

Definition returns (I : Service -> Prop) {A} (m : M A) (Q : A -> Prop) : Prop :=
  forall s, I s ->
    exists a, result (m s) = Ok a /\ Q a /\ I (after (m s)).

Definition throws (I : Service -> Prop) {A} (m : M A) (E : Error -> Prop)
  : Prop :=
  forall s, I s ->
    exists e, result (m s) = Throw e /\ E e /\ I (after (m s)).

Definition any {A} : A -> Prop := fun _ => True.

(** A status that does not report playback. *)
Definition quietStatus (status : JsVal) : Prop :=
  playingOrBuffering status = false.

Definition quietEvents (events : list Event) : Prop :=
  Forall (fun ev => quietStatus (snd ev)) events.

Definition quietTick (t : Tick) : Prop :=
  quietEvents (waitEvents t)
  /\ quietEvents (pollEvents t)
  /\ match poll t with
     | PollStatus status => quietStatus status
     | PollError | PollThrows => True
     end.

(** The device takes the load and, from the start of the command to
    the end of the verification window, no status it pushes or
    returns to a poll is PLAYING or BUFFERING. *)
Definition neverReportsPlayback (env : PlayEnv) : Prop :=
  load env = LoadOk
  /\ quietEvents (probeEvents env)
  /\ quietEvents (warmupEvents env)
  /\ quietEvents (stopEvents env)
  /\ quietEvents (loadEvents env)
  /\ forall k, quietTick (ticks env k).

(** A status event, and a pass of the verification loop, that keep an
    invariant [Inv] of the service. *)
Definition kept (toNumberOther : JsVal -> number) (Inv : Service -> Prop)
    (ev : Event) : Prop :=
  returns Inv (_handleStatusUpdate toNumberOther (fst ev) (snd ev)) any.

Definition keptTick (toNumberOther : JsVal -> number) (Inv : Service -> Prop)
    (t : Tick) : Prop :=
  Forall (kept toNumberOther Inv) (waitEvents t)
  /\ Forall (kept toNumberOther Inv) (pollEvents t)
  /\ forall n status,
       poll t = PollStatus status -> kept toNumberOther Inv (n, status).

(** The fields a status event never touches, and the state in which
    no playback has been reported and the current index is [i]. *)
Definition framed (d : Device) (v : JsVal) (q : list Track) (s : Service)
  : Prop :=
  currentDevice s = Some d /\ verificationTimeout s = v /\ queue s = q.

Definition framedQuiet (d : Device) (v : JsVal) (q : list Track) (i : Z)
    (s : Service) : Prop :=
  framed d v q s /\ quietStatus (currentStatus s) /\ currentTrackIndex s = i.

(** The error of [_playMediaDirectly] when verification fails. *)
Definition verificationFailed : Error :=
  mkError ChromecastError "Playback verification failed".

(** The part of a trace that shows the recovery loop: the attempts
    it announces and its waits between them. *)
Definition is_recovery (e : Effect) : bool :=
  match e with
  | LogAttempt _ | RetryWait _ => true
  | _ => false
  end.

Definition recoveryTrace (tr : list Effect) : list Effect :=
  List.filter is_recovery tr.

(** A method that neither announces an attempt nor waits for a
    retry. *)
Definition silent {A} (m : M A) : Prop :=
  forall s, recoveryTrace (effects (m s)) = [].

(** 1 while [isAutoAdvancing] is set, else 0. *)
Definition flag_count (s : Service) : nat :=
  if isAutoAdvancing s then 1%nat else 0%nat.

(** ** Sample data for the examples *)

Definition track (n : Z) (t : string) : Track :=
  {| url := "http://host/stream/" ++ t; title := t; artist := "Unknown Artist";
     contentType := "audio/mpeg"; trackId := n |}%string.

Definition trackA : Track := track 1 "A".
Definition trackB : Track := track 2 "B".
Definition trackC : Track := track 3 "C".
Definition trackD : Track := track 4 "D".
Definition trackE : Track := track 5 "E".

Definition speaker : Device := {| name := "Living Room"; player := true |}.

(** A source of [Math.random()] values that always returns 0, and one
    that always returns 1/2. *)
Definition rngZero : nat -> unitDraw := fun _ => mkDraw 0 0.
Definition rngHalf : nat -> unitDraw := fun _ => mkDraw 1 0.

(** A connected service holding [q], positioned at [i]. *)
Definition playing (q : list Track) (i : Z) : Service :=
  with_currentTrackIndex i
    (with_queue q (with_currentDevice (Some speaker) newService)).

(** A coercion for the examples, whose payloads carry numbers only. *)
Definition numbersOnly : JsVal -> number := fun _ => NaN.

Definition statusOf (state : string) : JsVal :=
  JObj [("playerState"%string, JStr state)].

(** A device that takes every load and never reports playback: no
    status events, every poll answers IDLE. *)
Definition idleTick : Tick :=
  {| waitEvents := []; waitOverrun := 0; poll := PollStatus (statusOf "IDLE");
     pollTook := 0; pollEvents := [] |}.

Definition neverPlays : PlayEnv :=
  {| probe := ProbeStatus (statusOf "IDLE"); probeEvents := [];
     warmup := WarmupDone; warmupEvents := []; stopEvents := [];
     load := LoadOk; loadEvents := []; ticks := fun _ => idleTick |}.

(** A status near the end of a 200 s track, with the player
    buffering: 180 s played. *)
Definition endingStatus : JsVal :=
  JObj [ ("playerState"%string, JStr "BUFFERING");
         ("currentTime"%string, JNum (num_of_Z 180));
         ("media"%string, JObj [("duration"%string, JNum (num_of_Z 200))]) ].

(** A payload whose fields are present but malformed: a player state
    that is no state of the player, a current time that is [NaN], a
    volume whose level is a string, and a media entry with no field. *)
Definition looseStatus : JsVal :=
  JObj [ ("playerState"%string, JStr "GARBAGE");
         ("currentTime"%string, JNum NaN);
         ("volume"%string, JObj [("level"%string, JStr "loud")]);
         ("media"%string, JObj []) ].

(** Three tracks queued, the first one playing. *)
Definition firstPlaying : Service :=
  with_currentStatus (statusOf "PLAYING") (playing [trackA; trackB; trackC] 0).

(** The environment of a recovery attempt when the device stays
    connected. *)
Definition steadyAttempt : AttemptEnv :=
  {| savedDeviceName := Some "Living Room"%string;
     recoveryConnect := Connected speaker (statusOf "IDLE");
     retryConnect := Connected speaker (statusOf "IDLE");
     play := neverPlays |}.

(** The last of three tracks current, repeat mode ALL; the first of
    three current, repeat mode ONE. *)
Definition lastWithRepeatAll : Service :=
  with_repeatMode "all" (playing [trackA; trackB; trackC] 2).

Definition firstWithRepeatOne : Service :=
  with_repeatMode "one" (playing [trackA; trackB; trackC] 0).

(** The environment of a recovery attempt when the device is gone:
    every reconnection times out. *)
Definition lostDevice : AttemptEnv :=
  {| savedDeviceName := Some "Living Room"%string;
     recoveryConnect := ConnectFailed speaker "Connection timed out"%string;
     retryConnect := ConnectFailed speaker "Connection timed out"%string;
     play := neverPlays |}.

(** * The other commands of the service *)

From Stdlib Require Import DecimalString.

(** [`${n}`] for a length. *)
Definition showLength (n : nat) : string :=
  NilZero.string_of_uint (Nat.to_uint n).

(** [_requestStatusUpdate()]: the answer arrives later, as a status
    event. *)
Definition _requestStatusUpdate : M unit :=
  do s <- read;
  match currentDevice s with
  | Some _ => emit DeviceGetStatus
  | None => ret tt
  end.

(** [pause()]; [playerPause] is the outcome of [player.pause()]. *)
Definition pause (playerPause : Res unit) : M Outcome :=
  do s <- read;
  match currentDevice s with
  | None => throwChromecast "No device connected"
  | Some d =>
      try_catch
        (when (negb (player d)) (throwChromecast "Player not initialized");;
         match playerPause with
         | Throw e => throw e
         | Ok _ =>
             when (truthy (currentStatus s))
               (modify (fun s => with_currentStatus
                  (set (currentStatus s) "playerState" (JStr "PAUSED")) s));;
             _requestStatusUpdate;;
             ret success
         end)
        (fun e => throwChromecast ("Pause failed: " ++ message e)%string)
  end.

(** [resume()]; [playerPlay] is the outcome of [player.play()]. *)
Definition resume (playerPlay : Res unit) : M Outcome :=
  do s <- read;
  match currentDevice s with
  | None => throwChromecast "No device connected"
  | Some d =>
      try_catch
        (when (negb (player d)) (throwChromecast "Player not initialized");;
         match playerPlay with
         | Throw e => throw e
         | Ok _ =>
             when (truthy (currentStatus s))
               (modify (fun s => with_currentStatus
                  (set (currentStatus s) "playerState" (JStr "PLAYING")) s));;
             _requestStatusUpdate;;
             ret success
         end)
        (fun e => throwChromecast ("Resume failed: " ++ message e)%string)
  end.

(** [seek(position)]; [playerSeek] is the outcome of
    [player.seek(position)]. *)
Definition seek (playerSeek : Res unit) : M Outcome :=
  do s <- read;
  match currentDevice s with
  | None => throwChromecast "No device connected"
  | Some d =>
      try_catch
        (when (negb (player d)) (throwChromecast "Player not initialized");;
         match playerSeek with
         | Throw e => throw e
         | Ok _ => ret success
         end)
        (fun e => throwChromecast ("Seek failed: " ++ message e)%string)
  end.

(** [_getCastRepeatMode()] *)
Definition _getCastRepeatMode (s : Service) : string :=
  if (repeatMode s =? "one")%string then "REPEAT_SINGLE"
  else if (repeatMode s =? "all")%string then "REPEAT_ALL"
  else "REPEAT_OFF".

(** ** Validation of numbers ([utils/validator.js])

    A check passes or throws a [ValidationError] with a message. *)

Inductive Checked : Type :=
| Valid
| Invalid (reason : string).

(** A check after another: [a; b] where [a] may throw. *)
Definition andThen (a b : Checked) : Checked :=
  match a with
  | Valid => b
  | Invalid reason => Invalid reason
  end.

(** [Number.isInteger(value)] *)
Definition Number_isInteger (value : JsVal) : bool :=
  match value with
  | JNum (Fin q) => Qeq_bool (inject_Z (Qfloor q)) q
  | _ => false
  end.

Definition asNumber (value : JsVal) : number :=
  match value with
  | JNum n => n
  | _ => NaN
  end.

Definition isInteger (value : JsVal) (fieldName : string) : Checked :=
  if negb (Number_isInteger value)
  then Invalid (fieldName ++ " must be an integer")%string
  else Valid.

(** The comparisons below follow a passed [isInteger] or [isNumber],
    so [value] is a number there. *)
Definition isPositiveInteger (value : JsVal) (fieldName : string) : Checked :=
  andThen (isInteger value fieldName)
    (if n_le (asNumber value) (num_of_Z 0)
     then Invalid (fieldName ++ " must be a positive integer")%string
     else Valid).

Definition isNumber (value : JsVal) (fieldName : string) : Checked :=
  match value with
  | JNum (Fin _) => Valid
  | _ => Invalid (fieldName ++ " must be a number")%string
  end.

Definition isValidTrackId (trackId : JsVal) : Checked :=
  isPositiveInteger trackId "track_id".

Definition isValidLimit (limit : JsVal) : Checked :=
  andThen (isPositiveInteger limit "limit")
    (if n_gt (asNumber limit) (num_of_Z 1000)
     then Invalid "Limit is too high (max 1000)"
     else Valid).

Section Formatting.

(** The text of a number inside a template string. *)
Variable numberToString : Q -> string.

Definition isInRange (value : JsVal) (min max : Q) (fieldName : string)
  : Checked :=
  andThen (isNumber value fieldName)
    (if n_gt (Fin min) (asNumber value) || n_gt (asNumber value) (Fin max)
     then Invalid (fieldName ++ " must be between " ++ numberToString min
                   ++ " and " ++ numberToString max)%string
     else Valid).

Definition isVolume (value : JsVal) : Checked :=
  isInRange value 0 1 "volume".

(** The callback of [device.setVolume]. *)
Inductive VolumeAnswer : Type :=
| VolumeOk
| VolumeError (msg : string)
| VolumeThrows (msg : string).

(** [setVolume(level)].  A [ValidationError], like an error thrown by
    the device call itself, is not a [ChromecastError], so the
    [catch] wraps it. *)
Definition setVolume (level : JsVal) (answer : VolumeAnswer) : M bool :=
  do s <- read;
  match currentDevice s with
  | None => throwChromecast "No device connected"
  | Some _ =>
      match isVolume level with
      | Invalid reason =>
          throwChromecast ("Volume control failed: " ++ reason)%string
      | Valid =>
          match answer with
          | VolumeError msg =>
              throwChromecast ("Failed to set volume: " ++ msg)%string
          | VolumeThrows msg =>
              throwChromecast ("Volume control failed: " ++ msg)%string
          | VolumeOk =>
              when (truthy (currentStatus s))
                (modify (fun s => with_currentStatus
                   (set (currentStatus s) "volume" level) s));;
              _requestStatusUpdate;;
              ret true
          end
      end
  end.

End Formatting.

(** ** Reports *)

(** A line of [getQueueInfo().queue]; its [duration] is left out, as
    it is from [Track]. *)
Record QueueLine : Type := mkQueueLine {
  linePosition : Z;
  lineTitle : string;
  lineArtist : string;
  lineCurrent : bool
}.

(** [getQueueInfo()]; a track that is missing or [null] is [None]. *)
Record QueueInfo : Type := mkQueueInfo {
  infoQueue : list QueueLine;
  infoQueueSize : Z;
  infoCurrentTrackIndex : Z;
  infoCurrentTrack : option Track;
  infoShuffle : bool;
  infoRepeat : string
}.

Definition getQueueInfo (s : Service) : QueueInfo :=
  {| infoQueue :=
       imap (fun index t =>
               {| linePosition := Z.of_nat index + 1;
                  lineTitle := title t;
                  lineArtist := artist t;
                  lineCurrent := (Z.of_nat index =? currentTrackIndex s) |})
            (queue s);
     infoQueueSize := qlen (queue s);
     infoCurrentTrackIndex := currentTrackIndex s;
     infoCurrentTrack :=
       if currentTrackIndex s >=? 0
       then nth_track (queue s) (currentTrackIndex s) else None;
     infoShuffle := shuffle s;
     infoRepeat := repeatMode s |}.

(** The object [getStatus()] returns.  The four fields taken from the
    sanitized status are [undefined] when there is no cached
    status. *)
Record StatusReport : Type := mkStatusReport {
  reportConnected : bool;
  reportDeviceName : option string;
  reportPlaying : bool;
  reportPlayerState : JsVal;
  reportQueueSize : Z;
  reportCurrentIndex : Z;
  reportCurrentTrack : option Track;
  reportShuffle : bool;
  reportRepeat : string;
  reportCurrentTime : JsVal;
  reportVolume : JsVal;
  reportMuted : JsVal;
  reportMedia : JsVal
}.

Definition getStatus (s : Service) : StatusReport :=
  let savedQueue := queue s in
  let savedCurrentIndex := currentTrackIndex s in
  let sanitizedStatus := _sanitizeStatus (currentStatus s) in
  let cached := truthy (currentStatus s) in
  {| reportConnected := has_device s;
     reportDeviceName :=
       match currentDevice s with
       | Some d => if (name d =? "")%string then None else Some (name d)
       | None => None
       end;
     reportPlaying :=
       if cached then is_str (get sanitizedStatus "playerState") "PLAYING"
       else false;
     reportPlayerState :=
       if cached then get sanitizedStatus "playerState"
       else if has_device s then JStr "IDLE" else JStr "DISCONNECTED";
     reportQueueSize := qlen savedQueue;
     reportCurrentIndex := savedCurrentIndex;
     reportCurrentTrack :=
       if (savedCurrentIndex >=? 0) && (savedCurrentIndex <? qlen savedQueue)
       then nth_track savedQueue savedCurrentIndex else None;
     reportShuffle := shuffle s;
     reportRepeat :=
       if (repeatMode s =? "")%string then "none"%string else repeatMode s;
     reportCurrentTime :=
       if cached then get sanitizedStatus "currentTime" else JUndefined;
     reportVolume :=
       if cached then
         if truthy (get sanitizedStatus "volume")
         then get (get sanitizedStatus "volume") "level" else JNull
       else JUndefined;
     reportMuted :=
       if cached then
         if truthy (get sanitizedStatus "volume")
         then get (get sanitizedStatus "volume") "muted" else JBool false
       else JUndefined;
     reportMedia :=
       if cached then get sanitizedStatus "media" else JUndefined |}.

(** ** Skipping and starting the queue *)

(** The callback of [device.queueJumpToItem]. *)
Inductive JumpAnswer : Type :=
| JumpOk
| JumpError
| JumpThrows (e : Error).

Section MoreCommands.

Variable toNumberOther : JsVal -> number.

(** [skipToPrevious()] *)
Definition skipToPrevious (env : PlayEnv) : M Outcome :=
  do s <- read;
  match currentDevice s with
  | None => throwChromecast "No device connected"
  | Some _ =>
      try_catch
        (if (qlen (queue s) >? 0) && (currentTrackIndex s >? 0) then
           modify (with_currentTrackIndex (currentTrackIndex s - 1));;
           match nth_track (queue s) (currentTrackIndex s - 1) with
           | Some prevTrack =>
               playMedia toNumberOther env prevTrack true;; ret success
           | None =>
               throw (mkError TypeError "Cannot read properties of undefined")
           end
         else ret info)
        (fun e =>
           throwChromecast ("Skip to previous failed: " ++ message e)%string)
  end.

(** [skipToTrack(trackNumber)], for an integer [trackNumber]. *)
Definition skipToTrack (env : PlayEnv) (trackNumber : Z) : M Outcome :=
  do s <- read;
  match currentDevice s with
  | None => throwChromecast "No device connected"
  | Some _ =>
      let targetIndex := trackNumber - 1 in
      if qlen (queue s) =? 0 then throwChromecast "Queue is empty"
      else if (targetIndex <? 0) || (targetIndex >=? qlen (queue s)) then
        throwChromecast
          ("Invalid track number. Valid range: 1-"
           ++ showLength (length (queue s)))%string
      else
        try_catch
          (modify (with_currentTrackIndex targetIndex);;
           match nth_track (queue s) targetIndex with
           | Some track => playMedia toNumberOther env track true;; ret success
           | None =>
               throw (mkError TypeError "Cannot read properties of undefined")
           end)
          (fun e =>
             throwChromecast ("Skip to track failed: " ++ message e)%string)
  end.

(** [_playLegacyQueueTrack(startIndex, resolve, reject)], as the
    outcome of the promise it settles. *)
Definition _playLegacyQueueTrack (env : PlayEnv) (startIndex : Z) : M Outcome :=
  try_catch
    (do s <- read;
     modify (with_currentTrackIndex startIndex);;
     match nth_track (queue s) startIndex with
     | Some track => playMedia toNumberOther env track true;; ret success
     | None => throw (mkError TypeError "Cannot read properties of undefined")
     end)
    (fun e =>
       throwChromecast ("Legacy track playback failed: " ++ message e)%string).

(** [playQueue(startIndex)], for an integer [startIndex].  For a
    start index above 0 the promise is returned without [await], so
    its rejection passes the [catch] by. *)
Definition playQueue (env : PlayEnv) (jump : JumpAnswer) (startIndex : Z)
  : M Outcome :=
  do s <- read;
  if negb (has_device s) || (qlen (queue s) =? 0)
  then throwChromecast "No device connected or empty queue"
  else if (startIndex <? 0) || (startIndex >=? qlen (queue s))
  then throwChromecast "Invalid start index"
  else if startIndex >? 0 then
    match jump with
    | JumpOk => modify (with_currentTrackIndex startIndex);; ret success
    | JumpError => _playLegacyQueueTrack env startIndex
    | JumpThrows e => throw e
    end
  else
    try_catch
      (_ensureSessionActive toNumberOther env;;
       modify (with_currentTrackIndex 0);;
       ret success)
      (fun e => throwChromecast "Failed to start queue playback").

End MoreCommands.

(** ** Further statements *)

(** Every batch that [addToQueue] receives has a track. *)
Definition addsTracks (ops : list QueueOp) : Prop :=
  Forall (fun op => match op with
                    | OpAdd tracks => tracks <> []
                    | _ => True
                    end) ops.

(** Several shuffles in a row. *)
Definition shuffleMany (rngs : list (nat -> unitDraw)) (s : Service)
  : Service :=
  fold_left (fun s rng => after (shuffleQueue rng s)) rngs s.

(** The preload timers among the tasks, and 1 while
    [preloadInProgress] is set. *)
Definition is_preload (t : Task) : bool :=
  match t with
  | TPreloadTimer _ _ => true
  | _ => false
  end.

Fixpoint preloads (ts : list Task) : nat :=
  match ts with
  | [] => O
  | t :: ts' => ((if is_preload t then 1 else 0) + preloads ts')%nat
  end.

Definition preload_count (s : Service) : nat :=
  if preloadInProgress s then 1%nat else 0%nat.

(** A call that reaches the device or its player. *)
Definition is_device_call (e : Effect) : bool :=
  match e with
  | DeviceGetStatus | DevicePlay _ _ _ | DeviceStop | PlayerStop => true
  | _ => false
  end.

(** A status whose [playerState] is PLAYING, in an object. *)
Definition playingStatus : JsVal := statusOf "PLAYING".

(** The current index is -1 or the position of an entry. *)
Definition indexInRange (s : Service) : Prop :=
  -1 <= currentTrackIndex s < qlen (queue s).

(** The commands that neither clear the order snapshot nor restore
    it. *)
Definition keepsSnapshot (op : QueueOp) : bool :=
  match op with
  | OpClear | OpRestore => false
  | _ => true
  end.

(** [keeps Inv m]: [m] leaves a state in [Inv], whether it returns or
    throws. *)
Definition keeps (Inv : Service -> Prop) {A} (m : M A) : Prop :=
  forall s, Inv s -> Inv (after (m s)).

(** Whatever [m] throws is a [ChromecastError]. *)
Definition chromecastOnly {A} (m : M A) : Prop :=
  forall s e, result (m s) = Throw e -> errorClass e = ChromecastError.

(** The queue store and the device of [s] are those of [s0]; the
    current index, the cached status and the guard flags are left
    open. *)
Definition sameStore (s0 s : Service) : Prop :=
  queue s = queue s0
  /\ originalQueue s = originalQueue s0
  /\ shuffle s = shuffle s0
  /\ repeatMode s = repeatMode s0
  /\ currentDevice s = currentDevice s0
  /\ verificationTimeout s = verificationTimeout s0.

Definition noDevice : Error := mkError ChromecastError "No device connected".

(** The store and the device are those of [s0], and the current
    index is in range. *)
Definition storeKept (s0 s : Service) : Prop :=
  sameStore s0 s /\ indexInRange s.

(** ** Sample data for the further examples *)

(** The text of the two bounds of the volume check. *)
Definition showBound (q : Q) : string :=
  if Qeq_bool q 0 then "0"%string
  else if Qeq_bool q 1 then "1"%string
  else "?"%string.

Definition half : JsVal := JNum (Fin (1 # 2)).

Definition playerFails : Res unit := Throw (mkError PlainError "socket closed").

(** The cached status is an object, as the constructor, every status
    event and [disconnect] leave it. *)
Definition statusIsObject (s : Service) : Prop :=
  exists props, currentStatus s = JObj props.

(** The lines of the queue listing that are marked as current. *)
Definition currentLines (info : QueueInfo) : list QueueLine :=
  List.filter lineCurrent (infoQueue info).

(** The line of [getQueueInfo] for the entry [t] at [index]. *)
Definition lineOf (currentIndex : Z) (index : nat) (t : Track) : QueueLine :=
  {| linePosition := Z.of_nat index + 1;
     lineTitle := title t;
     lineArtist := artist t;
     lineCurrent := (Z.of_nat index =? currentIndex) |}.

(** Every effect of [m] passes [P]. *)
Definition emitsOnly (P : Effect -> bool) {A} (m : M A) : Prop :=
  forall s, Forall (fun e => P e = true) (effects (m s)).

(** Not a load, or the load of the warm-up clip. *)
Definition no_track_load (e : Effect) : bool :=
  match e with
  | DevicePlay contentUrl mediaType mediaTitle =>
      (contentUrl =?
       "http://commondatastorage.googleapis.com/gtv-videos-bucket/sample/BigBuckBunny.mp4")%string
      && (mediaType =? "video/mp4")%string
      && (mediaTitle =? "Session Warmup")%string
  | _ => true
  end.

Definition no_device_call (e : Effect) : bool := negb (is_device_call e).

(** The queue store of [s] is that of [s0] and the current index is
    in range; the device is left open. *)
Definition queueKept (s0 s : Service) : Prop :=
  queue s = queue s0
  /\ originalQueue s = originalQueue s0
  /\ shuffle s = shuffle s0
  /\ repeatMode s = repeatMode s0
  /\ indexInRange s.

(** No attempt finds a saved device name. *)
Definition noSavedDevice (envs : Z -> AttemptEnv) : Prop :=
  forall attempt, saved_name (envs attempt) = false.

Definition unableToConnect : Error :=
  mkError PlainError "Unable to establish device connection".

(** The environment of a recovery attempt when no connection state
    was saved. *)
Definition nothingSaved : AttemptEnv :=
  {| savedDeviceName := None;
     recoveryConnect := ConnectNotFound "Device not found"%string;
     retryConnect := ConnectNotFound "Device not found"%string;
     play := neverPlays |}.

(** A device that takes every load and answers the first poll with
    PLAYING. *)
Definition playingTick : Tick :=
  {| waitEvents := []; waitOverrun := 0;
     poll := PollStatus (statusOf "PLAYING");
     pollTook := 0; pollEvents := [] |}.

Definition startsAtOnce : PlayEnv :=
  {| probe := ProbeStatus (statusOf "IDLE"); probeEvents := [];
     warmup := WarmupDone; warmupEvents := []; stopEvents := [];
     load := LoadOk; loadEvents := []; ticks := fun _ => playingTick |}.

(** A 3 s track at [2.0999999999999996] s, which is [3 * 0.7] in
    doubles; and a paused 3 s track at [0.9999999999999999] s, the
    double below 1, whose remaining time rounds to 2. *)
Definition atThreshold : JsVal :=
  JObj [ ("playerState"%string, JStr "PLAYING");
         ("currentTime"%string,
          JNum (Fin (1182194902184755 # 562949953421312)));
         ("media"%string, JObj [("duration"%string, JNum (num_of_Z 3))]) ].

Definition twoSecondsLeft : JsVal :=
  JObj [ ("playerState"%string, JStr "PAUSED");
         ("currentTime"%string,
          JNum (Fin (9007199254740991 # 9007199254740992)));
         ("media"%string, JObj [("duration"%string, JNum (num_of_Z 3))]) ].

(** * Properties *)

Open Scope string_scope.

(** ** Objects: reading after writing *)

Lemma assoc_assign_eq k v ps : assoc k (assign k v ps) = v.
Proof.
  induction ps as [|[k' v'] ps IH]; simpl.
  - now rewrite String.eqb_refl.
  - destruct (k' =? k) eqn:E; simpl; rewrite E; auto.
Qed.

Lemma assoc_assign_ne k k' v ps :
  k <> k' -> assoc k' (assign k v ps) = assoc k' ps.
Proof.
  intros Hne. induction ps as [|[k0 v0] ps IH]; simpl.
  - apply String.eqb_neq in Hne. now rewrite Hne.
  - destruct (k0 =? k) eqn:E; simpl.
    + apply String.eqb_eq in E. subst k0.
      apply String.eqb_neq in Hne. now rewrite Hne.
    + now rewrite IH.
Qed.

Lemma keys_assign_in k v ps :
  In k (map fst ps) -> map fst (assign k v ps) = map fst ps.
Proof.
  induction ps as [|[k0 v0] ps IH]; simpl; [tauto|].
  intros [-> | Hin].
  - now rewrite String.eqb_refl.
  - destruct (k0 =? k); simpl; [reflexivity|]. now rewrite IH.
Qed.

Lemma get_set_eq ps k v : get (set (JObj ps) k v) k = v.
Proof. apply assoc_assign_eq. Qed.

Lemma get_set_ne o k k' v : k <> k' -> get (set o k v) k' = get o k'.
Proof.
  intros Hne. destruct o; try reflexivity. now apply assoc_assign_ne.
Qed.

Lemma keys_set_in o k v : In k (keys o) -> keys (set o k v) = keys o.
Proof. destruct o; simpl; try tauto. apply keys_assign_in. Qed.

Lemma set_is_obj o k v :
  (exists ps, o = JObj ps) -> exists ps', set o k v = JObj ps'.
Proof. intros [ps ->]. simpl. eauto. Qed.

(** ** The sanitizer *)

Lemma shaped_status_shape o : shaped o -> status_shape o = true.
Proof.
  intros ([ps ->] & Hk & Hi & Hr & Hs & Hc & Hv & Hm).
  unfold status_shape. rewrite Hk, Hi, Hr, Hs, Hc, Hv, Hm. reflexivity.
Qed.

Lemma shaped_default : shaped _getDefaultStatus.
Proof. unfold shaped. repeat split; eauto. Qed.

(** Writing one of the six fields keeps the shape when the value
    written fits the field. *)
Lemma shaped_set o k v :
  shaped o ->
  In k status_keys ->
  (k = "mediaSessionId" -> is_undefined v = false) ->
  (k = "playbackRate" -> is_number v = true) ->
  (k = "playerState" -> is_string v = true) ->
  (k = "currentTime" -> is_number v = true) ->
  (k = "volume" -> volume_shape v = true) ->
  (k = "media" -> media_shape v = true) ->
  shaped (set o k v).
Proof.
  intros (Ho & Hk & Hi & Hr & Hs & Hc & Hv & Hm) Hin H1 H2 H3 H4 H5 H6.
  destruct Ho as [ps ->].
  assert (Hkeys : keys (set (JObj ps) k v) = status_keys).
  { rewrite keys_set_in; [exact Hk | now rewrite Hk]. }
  unfold shaped. split; [simpl; eauto|]. split; [exact Hkeys|].
  simpl in Hin.
  repeat match goal with
         | H : _ \/ _ |- _ => destruct H as [<- | H]
         | H : False |- _ => destruct H
         end;
    repeat split;
    first [ rewrite get_set_eq; auto
          | rewrite get_set_ne by discriminate; assumption ].
Qed.

Lemma typeof_object_cases v :
  truthy v && (typeof v =? "object") = true -> exists ps, v = JObj ps.
Proof.
  destruct v; simpl; try discriminate; try (rewrite andb_false_r; discriminate).
  eauto.
Qed.

Lemma js_or_null_shape v : null_or_truthy (js_or v JNull) = true.
Proof.
  unfold js_or. destruct (truthy v) eqn:E; [|reflexivity].
  destruct v; simpl in *; auto.
Qed.

Lemma sanitizeVolume_shaped status o :
  shaped o -> shaped (sanitizeVolume status o).
Proof.
  intros Ho. unfold sanitizeVolume.
  destruct (truthy (get status "volume") && (typeof (get status "volume") =? "object")) eqn:E1.
  - apply shaped_set; auto; try discriminate; [simpl; tauto|].
    intros _. unfold volume_shape. simpl keys. simpl get.
    destruct (typeof (get (get status "volume") "level") =? "number") eqn:E2;
      destruct (typeof (get (get status "volume") "muted") =? "boolean") eqn:E3;
      unfold is_number, is_boolean; rewrite ?E2, ?E3;
      destruct (typeof (get status "volume") =? "number") eqn:E4;
      rewrite ?E4; reflexivity.
  - destruct (typeof (get status "volume") =? "number") eqn:E2; [|exact Ho].
    apply shaped_set; auto; try discriminate; [simpl; tauto|].
    intros _. unfold volume_shape. simpl. unfold is_number. now rewrite E2.
Qed.

Lemma sanitizeMedia_shaped status o :
  shaped o -> shaped (sanitizeMedia status o).
Proof.
  intros Ho. unfold sanitizeMedia.
  destruct (truthy (get status "media") && (typeof (get status "media") =? "object")) eqn:E1;
    [|exact Ho].
  apply shaped_set; auto; try discriminate; [simpl; tauto|].
  intros _.
  set (m := get status "media").
  assert (Hd : (is_number (if typeof (get m "duration") =? "number"
                           then get m "duration" else JNull)
                || is_null (if typeof (get m "duration") =? "number"
                            then get m "duration" else JNull)) = true).
  { unfold is_number.
    destruct (typeof (get m "duration") =? "number") eqn:E; [now rewrite E|reflexivity]. }
  destruct (truthy (get m "metadata") && (typeof (get m "metadata") =? "object"));
    unfold media_shape; simpl set; simpl keys; simpl get;
    rewrite !js_or_null_shape, Hd; try reflexivity.
  unfold metadata_shape. simpl. now rewrite js_or_null_shape.
Qed.

Lemma sanitizeStatus_shaped status : shaped (_sanitizeStatus status).
Proof.
  unfold _sanitizeStatus.
  destruct (negb (truthy status)); [apply shaped_default|].
  destruct (negb (typeof status =? "object")); [apply shaped_default|].
  apply sanitizeMedia_shaped, sanitizeVolume_shaped.
  destruct (typeof (get status "currentTime") =? "number") eqn:E4;
    [apply shaped_set; auto; try discriminate; [|simpl; tauto] |];
  (destruct (typeof (get status "playerState") =? "string") eqn:E3;
    [apply shaped_set; auto; try discriminate; [|simpl; tauto] |]);
  (destruct (typeof (get status "playbackRate") =? "number") eqn:E2;
    [apply shaped_set; auto; try discriminate; [|simpl; tauto] |]);
  (destruct (negb (is_nullish (get status "mediaSessionId"))) eqn:E1;
    [apply shaped_set; auto using shaped_default; try discriminate; [simpl; tauto|] |]);
  try apply shaped_default;
  intros _; destruct (get status "mediaSessionId"); simpl in *; congruence.
Qed.

Lemma get_sanitizeVolume_other status o k :
  k <> "volume" -> get (sanitizeVolume status o) k = get o k.
Proof.
  intros Hk. unfold sanitizeVolume.
  repeat match goal with |- context [if ?c then _ else _] => destruct c end;
    try reflexivity; now apply get_set_ne.
Qed.

Lemma get_sanitizeMedia_other status o k :
  k <> "media" -> get (sanitizeMedia status o) k = get o k.
Proof.
  intros Hk. unfold sanitizeMedia.
  destruct (truthy (get status "media") && (typeof (get status "media") =? "object"));
    [now apply get_set_ne | reflexivity].
Qed.

Lemma not_object_get status k :
  negb (truthy status) || negb (typeof status =? "object") = true ->
  get status k = JUndefined.
Proof. destruct status; simpl; try reflexivity. discriminate. Qed.

Lemma sanitizeStatus_default status :
  negb (truthy status) || negb (typeof status =? "object") = true ->
  _sanitizeStatus status = _getDefaultStatus.
Proof.
  unfold _sanitizeStatus. intros H.
  destruct (negb (truthy status)); [reflexivity|].
  simpl in H. now rewrite H.
Qed.

Lemma sanitizeStatus_playerState status :
  get (_sanitizeStatus status) "playerState" =
  if is_string (get status "playerState") then get status "playerState"
  else JStr "IDLE".
Proof.
  destruct (negb (truthy status) || negb (typeof status =? "object")) eqn:E.
  - rewrite (sanitizeStatus_default status E), (not_object_get status _ E).
    reflexivity.
  - apply orb_false_elim in E as [E1 E2].
    unfold _sanitizeStatus. rewrite E1, E2.
    rewrite get_sanitizeMedia_other, get_sanitizeVolume_other by discriminate.
    unfold is_string.
    destruct (typeof (get status "currentTime") =? "number");
      [rewrite get_set_ne by discriminate|];
      (destruct (typeof (get status "playerState") =? "string");
       [destruct (typeof (get status "playbackRate") =? "number");
        destruct (negb (is_nullish (get status "mediaSessionId"))); reflexivity|]);
      (destruct (typeof (get status "playbackRate") =? "number");
       [rewrite get_set_ne by discriminate|]);
      destruct (negb (is_nullish (get status "mediaSessionId"))); reflexivity.
Qed.

Lemma sanitizeStatus_currentTime status :
  get (_sanitizeStatus status) "currentTime" =
  if is_number (get status "currentTime") then get status "currentTime"
  else JNum (num_of_Z 0).
Proof.
  destruct (negb (truthy status) || negb (typeof status =? "object")) eqn:E.
  - rewrite (sanitizeStatus_default status E), (not_object_get status _ E).
    reflexivity.
  - apply orb_false_elim in E as [E1 E2].
    unfold _sanitizeStatus. rewrite E1, E2.
    rewrite get_sanitizeMedia_other, get_sanitizeVolume_other by discriminate.
    unfold is_number.
    destruct (typeof (get status "currentTime") =? "number");
      [destruct (typeof (get status "playerState") =? "string");
       destruct (typeof (get status "playbackRate") =? "number");
       destruct (negb (is_nullish (get status "mediaSessionId"))); reflexivity|].
    destruct (typeof (get status "playerState") =? "string");
      [rewrite get_set_ne by discriminate|];
      (destruct (typeof (get status "playbackRate") =? "number");
       [rewrite get_set_ne by discriminate|]);
      destruct (negb (is_nullish (get status "mediaSessionId"))); reflexivity.
Qed.

(** Before the volume and media branches run, [volume] and [media]
    still hold the default. *)
Lemma sanitizeStatus_volume status :
  usable_volume (get status "volume") = false ->
  get (_sanitizeStatus status) "volume" = JNull.
Proof.
  intros Hv.
  destruct (negb (truthy status) || negb (typeof status =? "object")) eqn:E.
  - now rewrite sanitizeStatus_default.
  - apply orb_false_elim in E as [E1 E2].
    unfold _sanitizeStatus. rewrite E1, E2.
    rewrite get_sanitizeMedia_other by discriminate.
    unfold usable_volume in Hv. apply orb_false_elim in Hv as [Hv1 Hv2].
    unfold sanitizeVolume. rewrite Hv1, Hv2.
    repeat match goal with
           | |- context [if ?c then _ else _] => destruct c
           end; reflexivity.
Qed.

Lemma sanitizeStatus_media status :
  usable_media (get status "media") = false ->
  get (_sanitizeStatus status) "media" = JNull.
Proof.
  intros Hm.
  destruct (negb (truthy status) || negb (typeof status =? "object")) eqn:E.
  - now rewrite sanitizeStatus_default.
  - apply orb_false_elim in E as [E1 E2].
    unfold _sanitizeStatus. rewrite E1, E2.
    unfold usable_media in Hm. unfold sanitizeMedia. rewrite Hm.
    rewrite get_sanitizeVolume_other by discriminate.
    repeat match goal with
           | |- context [if ?c then _ else _] => destruct c
           end; reflexivity.
Qed.

(** The values of the four remaining fields. *)
Lemma sanitizeStatus_mediaSessionId status :
  get (_sanitizeStatus status) "mediaSessionId" =
  if is_nullish (get status "mediaSessionId") then JNull
  else get status "mediaSessionId".
Proof.
  destruct (negb (truthy status) || negb (typeof status =? "object")) eqn:E.
  - rewrite (sanitizeStatus_default status E), (not_object_get status _ E).
    reflexivity.
  - apply orb_false_elim in E as [E1 E2].
    unfold _sanitizeStatus. rewrite E1, E2.
    rewrite get_sanitizeMedia_other, get_sanitizeVolume_other by discriminate.
    destruct (typeof (get status "currentTime") =? "number");
      [rewrite get_set_ne by discriminate|];
      (destruct (typeof (get status "playerState") =? "string");
       [rewrite get_set_ne by discriminate|]);
      (destruct (typeof (get status "playbackRate") =? "number");
       [rewrite get_set_ne by discriminate|]);
      destruct (is_nullish (get status "mediaSessionId")); reflexivity.
Qed.

Lemma sanitizeStatus_playbackRate status :
  get (_sanitizeStatus status) "playbackRate" =
  if is_number (get status "playbackRate") then get status "playbackRate"
  else JNum (num_of_Z 1).
Proof.
  destruct (negb (truthy status) || negb (typeof status =? "object")) eqn:E.
  - rewrite (sanitizeStatus_default status E), (not_object_get status _ E).
    reflexivity.
  - apply orb_false_elim in E as [E1 E2].
    unfold _sanitizeStatus. rewrite E1, E2.
    rewrite get_sanitizeMedia_other, get_sanitizeVolume_other by discriminate.
    unfold is_number.
    destruct (typeof (get status "currentTime") =? "number");
      [rewrite get_set_ne by discriminate|];
      (destruct (typeof (get status "playerState") =? "string");
       [rewrite get_set_ne by discriminate|]);
      destruct (typeof (get status "playbackRate") =? "number");
      destruct (is_nullish (get status "mediaSessionId")); reflexivity.
Qed.

(** The object the first four writes leave is still an object, so the
    volume and the media written next are read back. *)
Lemma get_set_same o k v : (exists ps, o = JObj ps) -> get (set o k v) k = v.
Proof. intros [ps ->]. apply get_set_eq. Qed.

Lemma sanitizeVolume_object status o :
  (exists ps, o = JObj ps) -> exists ps', sanitizeVolume status o = JObj ps'.
Proof.
  intros Ho. unfold sanitizeVolume.
  repeat match goal with |- context [if ?c then _ else _] => destruct c end;
    auto using set_is_obj.
Qed.

Lemma scalars_object status :
  exists ps,
    (let safeStatus := _getDefaultStatus in
     let safeStatus :=
       if negb (is_nullish (get status "mediaSessionId"))
       then set safeStatus "mediaSessionId" (get status "mediaSessionId")
       else safeStatus in
     let safeStatus :=
       if typeof (get status "playbackRate") =? "number"
       then set safeStatus "playbackRate" (get status "playbackRate")
       else safeStatus in
     let safeStatus :=
       if typeof (get status "playerState") =? "string"
       then set safeStatus "playerState" (get status "playerState")
       else safeStatus in
     if typeof (get status "currentTime") =? "number"
     then set safeStatus "currentTime" (get status "currentTime")
     else safeStatus) = JObj ps.
Proof.
  cbv zeta.
  repeat match goal with |- context [if ?c then _ else _] => destruct c end;
    repeat apply set_is_obj; unfold _getDefaultStatus; eauto.
Qed.

Lemma sanitizeStatus_volume_value status :
  get (_sanitizeStatus status) "volume" =
  if usable_volume (get status "volume")
  then JObj [ ("level",
               if is_number (get (get status "volume") "level")
               then get (get status "volume") "level"
               else if is_number (get status "volume") then get status "volume"
               else JNum (num_of_Z 0));
              ("muted",
               if is_boolean (get (get status "volume") "muted")
               then get (get status "volume") "muted"
               else JBool false) ]
  else JNull.
Proof.
  destruct (usable_volume (get status "volume")) eqn:Hu;
    [|now apply sanitizeStatus_volume].
  destruct (negb (truthy status) || negb (typeof status =? "object")) eqn:E.
  - rewrite (not_object_get status _ E) in Hu. discriminate.
  - apply orb_false_elim in E as [E1 E2].
    unfold _sanitizeStatus. rewrite E1, E2. cbv zeta.
    rewrite get_sanitizeMedia_other by discriminate.
    destruct (scalars_object status) as [ps Hps]. cbv zeta in Hps. rewrite Hps.
    unfold sanitizeVolume, usable_volume, is_number, is_boolean in *.
    destruct (truthy (get status "volume")
              && (typeof (get status "volume") =? "object")) eqn:Ho.
    + apply get_set_eq.
    + simpl in Hu. rewrite Hu. rewrite get_set_eq.
      destruct (get status "volume"); try discriminate. reflexivity.
Qed.

Lemma sanitizeStatus_media_value status :
  get (_sanitizeStatus status) "media" =
  if usable_media (get status "media")
  then JObj [ ("contentId", js_or (get (get status "media") "contentId") JNull);
              ("contentType",
               js_or (get (get status "media") "contentType") JNull);
              ("duration",
               if is_number (get (get status "media") "duration")
               then get (get status "media") "duration" else JNull);
              ("metadata",
               if usable_media (get (get status "media") "metadata")
               then JObj [ ("title",
                            js_or (get (get (get status "media") "metadata")
                                     "title") JNull) ]
               else JNull) ]
  else JNull.
Proof.
  destruct (usable_media (get status "media")) eqn:Hu;
    [|now apply sanitizeStatus_media].
  destruct (negb (truthy status) || negb (typeof status =? "object")) eqn:E.
  - rewrite (not_object_get status _ E) in Hu. discriminate.
  - apply orb_false_elim in E as [E1 E2].
    unfold _sanitizeStatus. rewrite E1, E2. cbv zeta.
    destruct (scalars_object status) as [ps Hps]. cbv zeta in Hps. rewrite Hps.
    destruct (sanitizeVolume_object status (JObj ps)) as [ps' Hps']; [eauto|].
    rewrite Hps'.
    unfold sanitizeMedia, usable_media, is_number in *. rewrite Hu.
    rewrite get_set_eq.
    destruct (truthy (get (get status "media") "metadata")
              && (typeof (get (get status "media") "metadata") =? "object"));
      reflexivity.
Qed.

(** C3, as the claim states it, fails: a field of the payload that is
    present but malformed is not always replaced by its default, and
    the media of the result can be an object of [null]s.  On
    [looseStatus] the player state stays ['GARBAGE'] and the current
    time [NaN], the volume whose level is a string comes out as
    [{level: 0, muted: false}] and not as [null], and the empty media
    entry comes out as an object whose four fields are all [null]. *)
Lemma C3_malformed_fields_counterexample :
  get (_sanitizeStatus looseStatus) "playerState" = JStr "GARBAGE"
  /\ get (_sanitizeStatus looseStatus) "playerState" <> JStr "IDLE"
  /\ get (_sanitizeStatus looseStatus) "currentTime" = JNum NaN
  /\ get (_sanitizeStatus looseStatus) "currentTime" <> JNum (num_of_Z 0)
  /\ is_number (get (get looseStatus "volume") "level") = false
  /\ get (_sanitizeStatus looseStatus) "volume" =
     JObj [ ("level", JNum (num_of_Z 0)); ("muted", JBool false) ]
  /\ get (_sanitizeStatus looseStatus) "volume" <> JNull
  /\ get (_sanitizeStatus looseStatus) "media" =
     JObj [ ("contentId", JNull); ("contentType", JNull);
            ("duration", JNull); ("metadata", JNull) ]
  /\ get (_sanitizeStatus looseStatus) "media" <> JNull.
Proof. repeat split; try reflexivity; discriminate. Qed.

(** C3.  [_sanitizeStatus] is total and, on every input (a falsy
    value, a value that is not an object, or any object), returns an
    object with all six status fields present and typed; the player
    state is the input's when that is a string and ['IDLE'] otherwise,
    the current time is the input's when that is a number and [0]
    otherwise, and the volume and the media are [null] whenever the
    input has no usable one.  The volume and media of the result are
    [null] or complete sub-objects, never partly filled.

    The fields are tested by [typeof] alone and each one is defaulted
    on its own: the media session id is the input's unless that is
    [null] or [undefined]; the playback rate is the input's when that
    is a number and [1] otherwise; a volume that is a number or an
    object becomes [{level, muted}], the level being the input's
    level when that is a number, else the input itself when that is a
    number, else [0], and [muted] the input's when that is a boolean
    and [false] otherwise; a media that is an object becomes
    [{contentId, contentType, duration, metadata}], where the content
    id and type are the input's when truthy and [null] otherwise, the
    duration is the input's when a number and [null] otherwise, and
    the metadata is [{title}] (the input's title when truthy, else
    [null]) when the input's metadata is an object and [null]
    otherwise. *)
Theorem C3_sanitizeStatus_total_defaults (status : JsVal) :
  status_shape (_sanitizeStatus status) = true
  /\ (if negb (truthy status) || negb (typeof status =? "object")
      then _sanitizeStatus status = _getDefaultStatus else True)
  /\ get (_sanitizeStatus status) "playerState" =
     (if is_string (get status "playerState") then get status "playerState"
      else JStr "IDLE")
  /\ get (_sanitizeStatus status) "currentTime" =
     (if is_number (get status "currentTime") then get status "currentTime"
      else JNum (num_of_Z 0))
  /\ (if usable_volume (get status "volume")
      then volume_shape (get (_sanitizeStatus status) "volume") = true
      else get (_sanitizeStatus status) "volume" = JNull)
  /\ (if usable_media (get status "media")
      then media_shape (get (_sanitizeStatus status) "media") = true
      else get (_sanitizeStatus status) "media" = JNull)
  /\ get (_sanitizeStatus status) "mediaSessionId" =
     (if is_nullish (get status "mediaSessionId") then JNull
      else get status "mediaSessionId")
  /\ get (_sanitizeStatus status) "playbackRate" =
     (if is_number (get status "playbackRate") then get status "playbackRate"
      else JNum (num_of_Z 1))
  /\ get (_sanitizeStatus status) "volume" =
     (if usable_volume (get status "volume")
      then JObj [ ("level",
                   if is_number (get (get status "volume") "level")
                   then get (get status "volume") "level"
                   else if is_number (get status "volume")
                        then get status "volume"
                        else JNum (num_of_Z 0));
                  ("muted",
                   if is_boolean (get (get status "volume") "muted")
                   then get (get status "volume") "muted"
                   else JBool false) ]
      else JNull)
  /\ get (_sanitizeStatus status) "media" =
     (if usable_media (get status "media")
      then JObj [ ("contentId",
                   js_or (get (get status "media") "contentId") JNull);
                  ("contentType",
                   js_or (get (get status "media") "contentType") JNull);
                  ("duration",
                   if is_number (get (get status "media") "duration")
                   then get (get status "media") "duration" else JNull);
                  ("metadata",
                   if usable_media (get (get status "media") "metadata")
                   then JObj [ ("title",
                                js_or (get (get (get status "media")
                                              "metadata") "title") JNull) ]
                   else JNull) ]
      else JNull).
Proof.
  pose proof (sanitizeStatus_shaped status) as (_ & _ & _ & _ & _ & _ & Hv & Hm).
  split; [apply shaped_status_shape, sanitizeStatus_shaped|].
  split.
  { destruct (negb (truthy status) || negb (typeof status =? "object")) eqn:E;
      [now apply sanitizeStatus_default | exact I]. }
  split; [apply sanitizeStatus_playerState|].
  split; [apply sanitizeStatus_currentTime|].
  split.
  { destruct (usable_volume (get status "volume")) eqn:E;
      [exact Hv | now apply sanitizeStatus_volume]. }
  split.
  { destruct (usable_media (get status "media")) eqn:E;
      [exact Hm | now apply sanitizeStatus_media]. }
  split; [apply sanitizeStatus_mediaSessionId|].
  split; [apply sanitizeStatus_playbackRate|].
  split; [apply sanitizeStatus_volume_value | apply sanitizeStatus_media_value].
Qed.

Open Scope Z_scope.
Open Scope list_scope.

(** ** The queue store *)

Lemma floor_scaled_lt r n : (0 < n)%nat -> (floor_scaled r n < n)%nat.
Proof.
  intros Hn. unfold floor_scaled.
  apply Nat.Div0.div_lt_upper_bound. nia.
Qed.

Lemma swap_length i j q : length (swap i j q) = length q.
Proof.
  unfold swap. destruct (q !! i), (q !! j); try reflexivity.
  now rewrite !length_insert.
Qed.

Lemma swap_Permutation i j q : swap i j q ≡ₚ q.
Proof.
  unfold swap.
  destruct (q !! i) as [x|] eqn:Hi; [|reflexivity].
  destruct (q !! j) as [y|] eqn:Hj; [|reflexivity].
  now apply Permutation_insert_swap.
Qed.

Lemma fisherYates_Permutation (rng : nat -> unitDraw) i :
  forall k q, fisherYates rng k i q ≡ₚ q.
Proof.
  induction i as [|i IH]; intros k q; simpl; [reflexivity|].
  rewrite IH. apply swap_Permutation.
Qed.

Lemma fisherYates_length (rng : nat -> unitDraw) i : forall k q,
  length (fisherYates rng k i q) = length q.
Proof.
  induction i as [|i IH]; intros k q; simpl; [reflexivity|].
  rewrite IH. apply swap_length.
Qed.

(** Every index the loop swaps is inside the array. *)
Lemma fisherYates_draw_in_range (rng : nat -> unitDraw) k i :
  (floor_scaled (rng k) (i + 1) <= i)%nat.
Proof.
  pose proof (floor_scaled_lt (rng k) (i + 1)). lia.
Qed.

Lemma shuffleQueue_small rng s :
  qlen (queue s) <= 1 -> shuffleQueue rng s = (Ok info, s, []).
Proof.
  intros H. unfold shuffleQueue, bind, read.
  apply Z.leb_le in H. now rewrite H.
Qed.

Lemma shuffleQueue_big rng s :
  1 < qlen (queue s) ->
  shuffleQueue rng s = (Ok success, shuffled_state rng s, []).
Proof.
  intros H. unfold shuffleQueue, bind, read, shuffled_state.
  apply Z.leb_gt in H. rewrite H.
  destruct (shuffle s); reflexivity.
Qed.

Lemma restoreQueueOrder_eq s :
  restoreQueueOrder s =
  if shuffle s && negb (qlen (originalQueue s) =? 0)
  then (Ok success,
        with_currentTrackIndex (-1)
          (with_shuffle false (with_queue (originalQueue s) s)), [])
  else (Ok info, s, []).
Proof.
  unfold restoreQueueOrder, bind, read.
  destruct (shuffle s); simpl; [|reflexivity].
  destruct (qlen (originalQueue s) =? 0); reflexivity.
Qed.

Lemma qlen_nil_iff q : (qlen q =? 0) = true <-> q = [].
Proof.
  unfold qlen. rewrite Z.eqb_eq. destruct q; simpl; split; intros H;
    try reflexivity; try discriminate; lia.
Qed.

(** C10.  On a queue of at least two entries [shuffleQueue] succeeds
    and leaves a permutation of the entries it found: the same number
    of entries and the same tracks with the same multiplicities, in
    some order, whatever [Math.random()] returns. *)
Theorem C10_shuffleQueue_permutation
    (rng : nat -> unitDraw) (s : Service) :
  (2 <= length (queue s))%nat ->
  result (shuffleQueue rng s) = Ok success
  /\ queue (after (shuffleQueue rng s)) ≡ₚ queue s
  /\ length (queue (after (shuffleQueue rng s))) = length (queue s).
Proof.
  intros Hlen. rewrite shuffleQueue_big by (unfold qlen; lia).
  unfold result, after, shuffled_state; simpl.
  split; [reflexivity|]. split.
  - destruct (shuffle s); simpl; apply fisherYates_Permutation.
  - destruct (shuffle s); simpl; apply fisherYates_length.
Qed.

Lemma C10_shuffleQueue_permutation_witness :
  result (shuffleQueue rngZero (playing [trackA; trackB; trackC] 0)) = Ok success
  /\ queue (after (shuffleQueue rngZero (playing [trackA; trackB; trackC] 0)))
       ≡ₚ [trackA; trackB; trackC]
  /\ length (queue (after (shuffleQueue rngZero (playing [trackA; trackB; trackC] 0))))
     = 3%nat.
Proof.
  apply (C10_shuffleQueue_permutation rngZero (playing [trackA; trackB; trackC] 0)).
  simpl. lia.
Defined.

(** *** shuffle, then restore *)




(** From a state that is already shuffled, the pair brings back the
    snapshot taken when the shuffle episode began. *)
Lemma shuffle_restore_keeps_first_snapshot (rng : nat -> unitDraw) s :
  shuffle s = true -> originalQueue s <> [] ->
  queue (after (restoreQueueOrder (after (shuffleQueue rng s))))
  = originalQueue s.
Proof.
  intros Hflag Hsnap.
  assert (Hne : (qlen (originalQueue s) =? 0) = false).
  { destruct (qlen (originalQueue s) =? 0) eqn:E; [|reflexivity].
    apply qlen_nil_iff in E. contradiction. }
  destruct (Z.leb_spec (qlen (queue s)) 1) as [Hsmall | Hbig].
  - rewrite shuffleQueue_small by exact Hsmall. unfold after at 2; simpl.
    rewrite restoreQueueOrder_eq, Hflag, Hne. reflexivity.
  - rewrite shuffleQueue_big by exact Hbig. unfold after at 2; simpl.
    rewrite restoreQueueOrder_eq. unfold shuffled_state. rewrite Hflag. simpl.
    rewrite Hne. reflexivity.
Qed.

(** *** The order snapshot and the shuffle flag *)


Lemma after_seq_ret {A} (m : M A) s : after ((m;; ret tt) s) = after (m s).
Proof.
  unfold bind, after, ret. destruct (m s) as [[[a|e] s1] tr]; reflexivity.
Qed.

Lemma applyOp_snapshot op s :
  (originalQueue (after (applyOp op s)) = originalQueue s
   /\ shuffle (after (applyOp op s)) = shuffle s)
  \/ originalQueue (after (applyOp op s)) = []
  \/ shuffle (after (applyOp op s)) = true
  \/ op = OpRestore.
Proof.
  destruct op; simpl; rewrite ?after_seq_ret.
  - left. split; reflexivity.
  - left. unfold disconnect, bind, read, when, after.
    destruct (connectionKeepAlive s), (currentDevice s); split; reflexivity.
  - left. unfold addToQueue, bind, read, after.
    destruct (currentDevice s); split; reflexivity.
  - left. unfold removeFromQueue, bind, read, when, after.
    destruct ((index <? 0) || (index >=? qlen (queue s))); simpl; [split; reflexivity|].
    destruct (currentTrackIndex s >=? index); split; reflexivity.
  - right. left. reflexivity.
  - destruct (Z.leb_spec (qlen (queue s)) 1) as [Hsmall | Hbig].
    + rewrite shuffleQueue_small by exact Hsmall. left. split; reflexivity.
    + rewrite shuffleQueue_big by exact Hbig. right. right. left. reflexivity.
  - right. right. right. reflexivity.
  - left. unfold setRepeatMode, after.
    destruct (bool_decide (mode ∈ validModes)); split; reflexivity.
Qed.

Lemma runOps_snoc ops op s :
  runOps (ops ++ [op]) s = after (applyOp op (runOps ops s)).
Proof. unfold runOps. now rewrite fold_left_app. Qed.

Lemma runOps_snapshot ops :
  originalQueue (runOps ops newService) = []
  \/ shuffle (runOps ops newService) = true
  \/ In OpRestore ops.
Proof.
  induction ops as [|op ops IH] using rev_ind.
  - left. reflexivity.
  - rewrite runOps_snoc.
    destruct (applyOp_snapshot op (runOps ops newService))
      as [[Ho Hs] | [Hnil | [Htrue | ->]]].
    + rewrite Ho, Hs. destruct IH as [IH | [IH | IH]]; auto.
      right. right. apply in_or_app. now left.
    + now left.
    + right. now left.
    + right. right. apply in_or_app. right. now left.
Qed.


(** *** Removing an entry *)

(** C5, as stated, fails when the removed entry is the current one and
    is not the first: the pointer moves to the entry before it, not
    to -1. *)
Lemma C5_remove_current_counterexample :
  let s := playing [trackA; trackB; trackC] 1 in
  let s' := after (removeFromQueue 1 s) in
  queue s' = [trackA; trackC]
  /\ currentTrackIndex s' = 0
  /\ currentTrackIndex s' <> -1
  /\ nth_track (queue s') (currentTrackIndex s') = Some trackA
  /\ nth_track (queue s) (currentTrackIndex s) = Some trackB.
Proof. cbv zeta. repeat split; try reflexivity. vm_compute. discriminate. Qed.

Lemma removeFromQueue_in_range index s :
  0 <= index < qlen (queue s) ->
  removeFromQueue index s =
  (Ok (success, queue s !! Z.to_nat index),
   (if currentTrackIndex s >=? index
    then with_currentTrackIndex (Z.max (-1) (currentTrackIndex s - 1))
           (with_queue (delete (Z.to_nat index) (queue s)) s)
    else with_queue (delete (Z.to_nat index) (queue s)) s),
   []).
Proof.
  intros [Hlo Hhi]. unfold removeFromQueue, bind, read, when.
  destruct (index <? 0) eqn:E1; [apply Z.ltb_lt in E1; lia|].
  destruct (index >=? qlen (queue s)) eqn:E2; [apply Z.geb_le in E2; lia|].
  simpl. destruct (currentTrackIndex s >=? index); reflexivity.
Qed.

(** C5, amended.  For an index inside the queue and not above the
    current index, [removeFromQueue] removes that entry and lowers
    the current index by one.  When the removed entry lay before the
    current one, the index then points at the same entry as before;
    when the removed entry was the current one, it points at the entry
    that preceded it (and is -1 only when that was the first). *)
Theorem C5_removeFromQueue_current_index (index : Z) (s : Service) :
  0 <= index < qlen (queue s) ->
  index <= currentTrackIndex s ->
  let s' := after (removeFromQueue index s) in
  queue s' = delete (Z.to_nat index) (queue s)
  /\ currentTrackIndex s' = currentTrackIndex s - 1
  /\ -1 <= currentTrackIndex s'
  /\ nth_track (queue s') (currentTrackIndex s') =
     nth_track (queue s)
       (if index <? currentTrackIndex s then currentTrackIndex s
        else currentTrackIndex s - 1).
Proof.
  intros Hrange Hle s'. subst s'.
  rewrite removeFromQueue_in_range by exact Hrange.
  destruct (currentTrackIndex s >=? index) eqn:E;
    [|rewrite Z.geb_leb in E; apply Z.leb_gt in E; lia].
  unfold after; simpl.
  replace (Z.max (-1) (currentTrackIndex s - 1)) with (currentTrackIndex s - 1) by lia.
  repeat split; [lia|].
  unfold nth_track.
  destruct (index <? currentTrackIndex s) eqn:Elt.
  - apply Z.ltb_lt in Elt.
    destruct (currentTrackIndex s - 1 <? 0) eqn:E1; [apply Z.ltb_lt in E1; lia|].
    destruct (currentTrackIndex s <? 0) eqn:E2; [apply Z.ltb_lt in E2; lia|].
    rewrite list_lookup_delete_ge by lia.
    f_equal. lia.
  - apply Z.ltb_ge in Elt. assert (currentTrackIndex s = index) as Heq by lia.
    destruct (currentTrackIndex s - 1 <? 0) eqn:E1; [reflexivity|].
    apply Z.ltb_ge in E1.
    rewrite list_lookup_delete_lt by lia. reflexivity.
Qed.

Lemma C5_removeFromQueue_current_index_witness :
  let s := playing [trackA; trackB; trackC] 2 in
  let s' := after (removeFromQueue 0 s) in
  queue s' = delete (Z.to_nat 0) (queue s)
  /\ currentTrackIndex s' = currentTrackIndex s - 1
  /\ -1 <= currentTrackIndex s'
  /\ nth_track (queue s') (currentTrackIndex s') =
     nth_track (queue s)
       (if 0 <? currentTrackIndex s then currentTrackIndex s
        else currentTrackIndex s - 1).
Proof.
  apply (C5_removeFromQueue_current_index 0 (playing [trackA; trackB; trackC] 2)).
  - unfold qlen; simpl; lia.
  - simpl; lia.
Defined.

(** *** Disconnecting *)

(** C7, as stated, fails: [disconnect] leaves the queue and the
    current index alone. *)
Lemma C7_disconnect_keeps_queue_counterexample :
  let s := playing [trackA; trackB] 1 in
  let s' := after (disconnect s) in
  currentDevice s' = None
  /\ queue s' = [trackA; trackB]
  /\ queue s' <> []
  /\ currentTrackIndex s' = 1
  /\ currentTrackIndex s' <> -1.
Proof. cbv zeta. repeat split; try reflexivity; vm_compute; discriminate. Qed.

Lemma disconnect_eq s :
  disconnect s =
  (Ok tt,
   match currentDevice s with
   | Some _ =>
       with_currentStatus _getDefaultStatus
         (with_currentDevice None (with_connectionKeepAlive false s))
   | None => with_connectionKeepAlive false s
   end, []).
Proof.
  unfold disconnect, bind, read, when.
  destruct s as [vt d st q i sh rp oq fa fw fp ka].
  destruct ka, d; reflexivity.
Qed.

(** C7, amended.  [disconnect] never throws and resets the session
    only: afterwards there is no current device and no keep-alive
    timer, and the last-known status is the default one if a device
    was connected (and untouched otherwise); the queue, the current
    index, the shuffle and repeat settings and the snapshot are left
    as they were.  A second [disconnect] changes nothing. *)
Theorem C7_disconnect_resets_session_only (s : Service) :
  let s' := after (disconnect s) in
  result (disconnect s) = Ok tt
  /\ currentDevice s' = None
  /\ connectionKeepAlive s' = false
  /\ currentStatus s' =
     match currentDevice s with
     | Some _ => _getDefaultStatus
     | None => currentStatus s
     end
  /\ queue s' = queue s
  /\ currentTrackIndex s' = currentTrackIndex s
  /\ shuffle s' = shuffle s
  /\ repeatMode s' = repeatMode s
  /\ originalQueue s' = originalQueue s
  /\ after (disconnect s') = s'.
Proof.
  cbv zeta. rewrite !disconnect_eq. unfold result, after; simpl.
  destruct s as [vt d st q i sh rp oq fa fw fp ka].
  destruct d; simpl; repeat split; reflexivity.
Qed.

(** ** Sequencing *)

Lemma bind_ok {A B} (m : M A) (k : A -> M B) s a s1 tr1 :
  m s = (Ok a, s1, tr1) ->
  bind m k s = (result (k a s1), after (k a s1), tr1 ++ effects (k a s1)).
Proof.
  intros E. unfold bind. rewrite E.
  destruct (k a s1) as [[r s2] tr2]. reflexivity.
Qed.

Lemma bind_throw {A B} (m : M A) (k : A -> M B) s e s1 tr1 :
  m s = (Throw e, s1, tr1) -> bind m k s = (Throw e, s1, tr1).
Proof. intros E. unfold bind. now rewrite E. Qed.

Lemma out_eta {A} (out : Res A * Service * list Effect) :
  out = (result out, after out, effects out).
Proof. destruct out as [[r s] tr]. reflexivity. Qed.

(** ** Rules for [returns] and [throws] *)

Lemma returns_ret I {A} (a : A) (Q : A -> Prop) : Q a -> returns I (ret a) Q.
Proof. intros HQ s Hs. exists a. auto. Qed.

Lemma returns_read I : returns I read I.
Proof. intros s Hs. exists s. auto. Qed.

Lemma returns_emit I e : returns I (emit e) any.
Proof. intros s Hs. exists tt. split; [reflexivity|]. split; [exact Logic.I|exact Hs]. Qed.

Lemma returns_modify (I : Service -> Prop) f :
  (forall s, I s -> I (f s)) -> returns I (modify f) any.
Proof.
  intros Hf s Hs. exists tt. split; [reflexivity|]. split; [exact Logic.I|].
  apply Hf, Hs.
Qed.

Lemma returns_weaken I {A} (m : M A) (Q Q' : A -> Prop) :
  returns I m Q -> (forall a, Q a -> Q' a) -> returns I m Q'.
Proof.
  intros Hm HQ s Hs. destruct (Hm s Hs) as (a & Hr & Ha & Hi). eauto.
Qed.

Lemma returns_bind I {A B} (m : M A) (k : A -> M B) Q1 (Q2 : B -> Prop) :
  returns I m Q1 ->
  (forall a, Q1 a -> returns I (k a) Q2) ->
  returns I (bind m k) Q2.
Proof.
  intros Hm Hk s Hs. destruct (Hm s Hs) as (a & Hr & Ha & Hi).
  destruct (Hk a Ha _ Hi) as (b & Hrb & Hb & Hib).
  rewrite (bind_ok m k s a (after (m s)) (effects (m s)))
    by (rewrite <- Hr; apply out_eta).
  exists b. auto.
Qed.

Lemma throws_throw (I : Service -> Prop) {A} e (E : Error -> Prop) :
  E e -> throws I (@throw A e) E.
Proof. intros He s Hs. exists e. auto. Qed.

Lemma throws_bind_now I {A B} (m : M A) (k : A -> M B) E :
  throws I m E -> throws I (bind m k) E.
Proof.
  intros Hm s Hs. destruct (Hm s Hs) as (e & Hr & He & Hi).
  rewrite (bind_throw m k s e (after (m s)) (effects (m s)))
    by (rewrite <- Hr; apply out_eta).
  exists e. auto.
Qed.

Lemma throws_bind_later I {A B} (m : M A) (k : A -> M B) Q1 E :
  returns I m Q1 ->
  (forall a, Q1 a -> throws I (k a) E) ->
  throws I (bind m k) E.
Proof.
  intros Hm Hk s Hs. destruct (Hm s Hs) as (a & Hr & Ha & Hi).
  destruct (Hk a Ha _ Hi) as (e & Hre & He & Hie).
  rewrite (bind_ok m k s a (after (m s)) (effects (m s)))
    by (rewrite <- Hr; apply out_eta).
  exists e. auto.
Qed.

Lemma returns_try_catch I {A} (body : M A) h (Q : A -> Prop) :
  returns I body Q -> returns I (try_catch body h) Q.
Proof.
  intros Hm s Hs. destruct (Hm s Hs) as (a & Hr & Ha & Hi).
  unfold try_catch. rewrite (out_eta (body s)), Hr. exists a. auto.
Qed.

Lemma throws_try_catch I {A} (body : M A) h (E E' : Error -> Prop) :
  throws I body E ->
  (forall e, E e -> throws I (h e) E') ->
  throws I (try_catch body h) E'.
Proof.
  intros Hm Hh s Hs. destruct (Hm s Hs) as (e & Hr & He & Hi).
  destruct (Hh e He _ Hi) as (e' & Hr' & He' & Hi').
  unfold try_catch. rewrite (out_eta (body s)), Hr.
  rewrite (out_eta (h e (after (body s)))), Hr'. exists e'. auto.
Qed.

Lemma returns_when I (b : bool) (m : M unit) :
  (b = true -> returns I m any) -> returns I (when b m) any.
Proof.
  intros Hm. destruct b; simpl; [auto|]. apply returns_ret. exact Logic.I.
Qed.

(** ** Effects of a sequence *)

Lemma in_effects_bind_l {A B} (m : M A) (k : A -> M B) s e :
  In e (effects (m s)) -> In e (effects (bind m k s)).
Proof.
  unfold bind, effects. destruct (m s) as [[[a|err] s1] tr1]; simpl; auto.
  destruct (k a s1) as [[r s2] tr2]. simpl. intros. apply in_or_app. auto.
Qed.

Lemma in_effects_bind_r {A B} (m : M A) (k : A -> M B) s a e :
  result (m s) = Ok a ->
  In e (effects (k a (after (m s)))) -> In e (effects (bind m k s)).
Proof.
  unfold bind, effects, result, after.
  destruct (m s) as [[[a'|err] s1] tr1]; simpl; [|discriminate].
  intros [= ->]. destruct (k a s1) as [[r s2] tr2]. simpl.
  intros. apply in_or_app. auto.
Qed.

Lemma in_effects_try_catch {A} (body : M A) h s e :
  In e (effects (body s)) -> In e (effects (try_catch body h s)).
Proof.
  unfold try_catch, effects. destruct (body s) as [[[a|err] s1] tr1]; simpl; auto.
  destruct (h err s1) as [[r s2] tr2]. simpl. intros. apply in_or_app. auto.
Qed.

Lemma after_bind_ok {A B} (m : M A) (k : A -> M B) s a :
  result (m s) = Ok a -> after (bind m k s) = after (k a (after (m s))).
Proof.
  intros Hr. rewrite (bind_ok m k s a (after (m s)) (effects (m s)))
    by (rewrite <- Hr; apply out_eta). reflexivity.
Qed.

Lemma result_bind_ok {A B} (m : M A) (k : A -> M B) s a :
  result (m s) = Ok a -> result (bind m k s) = result (k a (after (m s))).
Proof.
  intros Hr. rewrite (bind_ok m k s a (after (m s)) (effects (m s)))
    by (rewrite <- Hr; apply out_eta). reflexivity.
Qed.

(** Unfolding of the monad operations, and a case split on the
    scrutinee of the innermost [match]. *)
Ltac munfold :=
  unfold bind, ret, read, modify, emit, when, throw, throwChromecast,
    try_catch, finally in *.

Ltac case_step :=
  match goal with
  | |- context [match ?x with _ => _ end] =>
      match x with
      | context [match _ with _ => _ end] => fail 1
      | _ => destruct x eqn:?
      end
  end.

(** ** Rules for [silent] *)

Lemma recoveryTrace_app tr1 tr2 :
  recoveryTrace (tr1 ++ tr2) = recoveryTrace tr1 ++ recoveryTrace tr2.
Proof. apply List.filter_app. Qed.

Lemma silent_ret {A} (a : A) : silent (ret a).
Proof. intros s. reflexivity. Qed.

Lemma silent_read : silent read.
Proof. intros s. reflexivity. Qed.

Lemma silent_modify f : silent (modify f).
Proof. intros s. reflexivity. Qed.

Lemma silent_throw {A} e : silent (@throw A e).
Proof. intros s. reflexivity. Qed.

Lemma silent_throwChromecast {A} msg : silent (@throwChromecast A msg).
Proof. intros s. reflexivity. Qed.

Lemma silent_emit e : is_recovery e = false -> silent (emit e).
Proof. intros He s. unfold emit, effects, recoveryTrace. simpl. now rewrite He. Qed.

Lemma silent_bind {A B} (m : M A) (k : A -> M B) :
  silent m -> (forall a, silent (k a)) -> silent (bind m k).
Proof.
  intros Hm Hk s. specialize (Hm s). unfold bind, effects in *.
  destruct (m s) as [[[a|e] s1] tr1]; simpl in *; [|exact Hm].
  specialize (Hk a s1). unfold effects in Hk.
  destruct (k a s1) as [[r s2] tr2]. simpl in *.
  now rewrite recoveryTrace_app, Hm, Hk.
Qed.

Lemma silent_try_catch {A} (body : M A) h :
  silent body -> (forall e, silent (h e)) -> silent (try_catch body h).
Proof.
  intros Hm Hh s. specialize (Hm s). unfold try_catch, effects in *.
  destruct (body s) as [[[a|e] s1] tr1]; simpl in *; [exact Hm|].
  specialize (Hh e s1). unfold effects in Hh.
  destruct (h e s1) as [[r s2] tr2]. simpl in *.
  now rewrite recoveryTrace_app, Hm, Hh.
Qed.

Lemma silent_when b (m : M unit) : silent m -> silent (when b m).
Proof. intros Hm. destruct b; [exact Hm|apply silent_ret]. Qed.

Create HintDb silent_db.
#[export] Hint Resolve silent_ret silent_read silent_modify silent_throw
  silent_throwChromecast silent_when : silent_db.
#[export] Hint Extern 1 (silent (emit _)) =>
  (apply silent_emit; reflexivity) : silent_db.

Ltac silent_tac :=
  repeat first
    [ progress auto with silent_db
    | apply silent_bind; [|intros ?]
    | apply silent_try_catch; [|intros ?]
    | apply silent_when
    | match goal with
      | |- silent (match ?x with _ => _ end) => destruct x
      end ].

(** ** Time *)

Lemma Qltb_ceiling (e : Z) (t : Q) :
  Qltb (inject_Z e) t = true -> e < Qceiling t.
Proof.
  unfold Qltb. rewrite negb_true_iff. intros H.
  assert (Hlt : (inject_Z e < t)%Q).
  { apply Qnot_le_lt. intros Hle. apply Qle_bool_iff in Hle. congruence. }
  rewrite Zlt_Qlt. eapply Qlt_le_trans; [exact Hlt|apply Qle_ceiling].
Qed.

Section EngineFacts.

Variable tn : JsVal -> number.

(** ** Selecting the next track *)

Lemma nth_track_valid (q : list Track) i :
  0 <= i < qlen q -> exists t, nth_track q i = Some t.
Proof.
  intros [Hlo Hhi]. unfold nth_track.
  destruct (i <? 0) eqn:E; [apply Z.ltb_lt in E; lia|].
  apply lookup_lt_is_Some_2. unfold qlen in Hhi. lia.
Qed.

Lemma advanceSelect_rule s :
  0 <= currentTrackIndex s < qlen (queue s) ->
  exists sel,
    result (advanceSelect s) = Ok sel
    /\ fst <$> sel =
       specNextIndex (repeatMode s) (currentTrackIndex s) (qlen (queue s) - 1)
    /\ (forall i t, sel = Some (i, t) -> nth_track (queue s) i = Some t).
Proof.
  intros Hidx. unfold advanceSelect, specNextIndex, bind, read.
  destruct (currentTrackIndex s >=? 0) eqn:Ege;
    [|rewrite Z.geb_leb in Ege; apply Z.leb_gt in Ege; lia].
  rewrite andb_true_r.
  destruct (repeatMode s =? "one")%string.
  - destruct (nth_track_valid (queue s) (currentTrackIndex s) Hidx) as [t Ht].
    rewrite Ht. eexists. split; [reflexivity|]. split; [reflexivity|].
    intros i t' [= <- <-]. exact Ht.
  - destruct (currentTrackIndex s <? qlen (queue s) - 1) eqn:Elt.
    + apply Z.ltb_lt in Elt.
      destruct (nth_track_valid (queue s) (currentTrackIndex s + 1)) as [t Ht];
        [lia|].
      rewrite Ht. eexists. split; [reflexivity|]. split; [reflexivity|].
      intros i t' [= <- <-]. exact Ht.
    + destruct (qlen (queue s) >? 0) eqn:Epos;
        [|rewrite Z.gtb_ltb in Epos; apply Z.ltb_ge in Epos; lia].
      rewrite andb_true_r.
      destruct (repeatMode s =? "all")%string.
      * destruct (nth_track_valid (queue s) 0) as [t Ht]; [lia|].
        rewrite Ht. eexists. split; [reflexivity|]. split; [reflexivity|].
        intros i t' [= <- <-]. exact Ht.
      * eexists. split; [reflexivity|]. split; [reflexivity|]. discriminate.
Qed.

Lemma finishedSelect_rule s :
  0 <= currentTrackIndex s < qlen (queue s) ->
  exists sel,
    result (finishedSelect s) = Ok sel
    /\ fst <$> sel =
       specNextIndex (repeatMode s) (currentTrackIndex s) (qlen (queue s) - 1)
    /\ (forall i t, sel = Some (i, t) -> nth_track (queue s) i = Some t).
Proof.
  intros Hidx. unfold finishedSelect, specNextIndex, bind, read.
  destruct (currentTrackIndex s >=? 0) eqn:Ege;
    [|rewrite Z.geb_leb in Ege; apply Z.leb_gt in Ege; lia].
  destruct (qlen (queue s) >? 0) eqn:Epos;
    [|rewrite Z.gtb_ltb in Epos; apply Z.ltb_ge in Epos; lia].
  rewrite !andb_true_r. simpl.
  destruct (repeatMode s =? "one")%string.
  - destruct (nth_track_valid (queue s) (currentTrackIndex s) Hidx) as [t Ht].
    rewrite Ht. eexists. split; [reflexivity|]. split; [reflexivity|].
    intros i t' [= <- <-]. exact Ht.
  - destruct (currentTrackIndex s <? qlen (queue s) - 1) eqn:Elt.
    + apply Z.ltb_lt in Elt.
      destruct (nth_track_valid (queue s) (currentTrackIndex s + 1)) as [t Ht];
        [lia|].
      simpl. rewrite Ht. eexists. split; [reflexivity|]. split; [reflexivity|].
      intros i t' [= <- <-]. exact Ht.
    + destruct (repeatMode s =? "all")%string.
      * destruct (nth_track_valid (queue s) 0) as [t Ht]; [lia|].
        simpl. rewrite Ht. eexists. split; [reflexivity|]. split; [reflexivity|].
        intros i t' [= <- <-]. exact Ht.
      * eexists. split; [reflexivity|]. split; [reflexivity|]. discriminate.
Qed.

(** ** Status updates *)

Lemma handleStatusUpdate_framed d v q deviceName status :
  returns (framed d v q) (_handleStatusUpdate tn deviceName status) any.
Proof.
  intros s (Hd & Hv & Hq). unfold framed.
  unfold _handleStatusUpdate, _handleTrackTransition, _preloadNextTrack,
    executeAdvancement_start, advanceSelect, any.
  munfold. unfold result, after.
  repeat (case_step; simpl in * ); eexists; repeat split; eauto.
Qed.

Lemma quiet_no_fallback cs currentState s :
  quietStatus cs ->
  shouldAdvanceTraditional
    (if truthy cs then get cs "playerState" else JNull) currentState s = false.
Proof.
  unfold quietStatus, playingOrBuffering, shouldAdvanceTraditional.
  intros H. apply orb_false_elim in H as [H _].
  destruct (truthy cs); [now rewrite H|reflexivity].
Qed.

Lemma quiet_no_fallback_cached cs currentState s :
  quietStatus cs ->
  shouldAdvanceTraditional (get cs "playerState") currentState s = false.
Proof.
  unfold quietStatus, playingOrBuffering, shouldAdvanceTraditional.
  intros H. apply orb_false_elim in H as [H _]. now rewrite H.
Qed.

Lemma handleStatusUpdate_quiet d v q i deviceName status :
  quietStatus status ->
  returns (framedQuiet d v q i) (_handleStatusUpdate tn deviceName status) any.
Proof.
  intros Hst s ((Hd & Hv & Hq) & Hcs & Hi). unfold framedQuiet, framed.
  unfold _handleStatusUpdate, _handleTrackTransition.
  unfold _preloadNextTrack, executeAdvancement_start, advanceSelect, any.
  munfold. unfold result, after.
  repeat (case_step; simpl in * );
    try match goal with
        | H : shouldAdvanceTraditional _ _ _ = true |- _ =>
            first [ rewrite quiet_no_fallback_cached in H by assumption
                  | rewrite quiet_no_fallback in H by assumption ];
            discriminate
        end;
    eexists; repeat split; eauto.
Qed.

(** ** Methods built from status updates

    [Inv] is any invariant that requires a current device, ignores
    the warm-up flag and is kept by the status events at hand. *)

Section Composite.

Variable Inv : Service -> Prop.
Hypothesis Inv_warmup :
  forall b s, Inv s -> Inv (with_sessionWarmupInProgress b s).
Hypothesis Inv_device : forall s, Inv s -> exists d, currentDevice s = Some d.

Lemma returns_deliver events :
  Forall (kept tn Inv) events -> returns Inv (deliver tn events) any.
Proof.
  induction 1 as [|[n st] evs Hev _ IH]; simpl.
  - apply returns_ret. exact Logic.I.
  - eapply returns_bind; [exact Hev|]. intros _ _. exact IH.
Qed.

Lemma returns_ensureSessionActive env :
  Forall (kept tn Inv) (probeEvents env) -> Forall (kept tn Inv) (warmupEvents env) ->
  returns Inv (_ensureSessionActive tn env) any.
Proof.
  intros Hp Hw. unfold _ensureSessionActive.
  eapply returns_bind; [apply returns_read|]. intros s Hs.
  destruct (Inv_device s Hs) as [d ->].
  eapply (returns_bind _ _ _ any).
  { eapply returns_bind; [apply returns_emit|]. intros _ _.
    destruct (probe env).
    - eapply returns_bind; [apply returns_deliver, Hp|]. intros _ _.
      apply returns_ret. exact Logic.I.
    - eapply returns_bind; [apply returns_deliver, Hp|]. intros _ _.
      apply returns_ret. exact Logic.I.
    - apply returns_ret. exact Logic.I. }
  intros [|] _; [apply returns_ret; exact Logic.I|].
  eapply returns_bind; [apply returns_modify, Inv_warmup|]. intros _ _.
  eapply returns_bind; [apply returns_emit|]. intros _ _.
  destruct (warmup env);
    repeat first
      [ apply returns_ret; exact Logic.I
      | eapply returns_bind;
        [ first [ apply returns_deliver, Hw
                | apply returns_emit
                | apply returns_modify, Inv_warmup ] | intros _ _ ] ].
Qed.

Lemma returns_stopCurrentPlayback env :
  Forall (kept tn Inv) (stopEvents env) ->
  returns Inv (_stopCurrentPlayback tn env) any.
Proof.
  intros Hs. unfold _stopCurrentPlayback.
  eapply returns_bind; [apply returns_read|]. intros s HInv.
  destruct (currentDevice s); [|apply returns_ret; exact Logic.I].
  eapply returns_bind; [apply returns_emit|]. intros _ _.
  apply returns_deliver, Hs.
Qed.

Lemma returns_pollDevice t :
  Forall (kept tn Inv) (pollEvents t) ->
  returns Inv (pollDevice tn t)
    (fun v => truthy v = true -> poll t = PollStatus v).
Proof.
  intros Hp. unfold pollDevice.
  eapply returns_bind; [apply returns_read|]. intros s HInv.
  destruct (currentDevice s); [|apply returns_ret; discriminate].
  eapply returns_bind; [apply returns_emit|]. intros _ _.
  destruct (poll t) as [status| |].
  - eapply returns_bind; [apply returns_deliver, Hp|]. intros _ _.
    apply returns_ret. unfold js_or.
    destruct (truthy status) eqn:E; [reflexivity|discriminate].
  - eapply returns_bind; [apply returns_deliver, Hp|]. intros _ _.
    apply returns_ret. discriminate.
  - apply returns_ret. discriminate.
Qed.

(** The verification loop ends within its fuel, whatever the device
    does; when nothing reports playback ([quiet]) it ends with
    [false]. *)
Lemma returns_verifyLoop (quiet : Prop) ticks timeout :
  (forall k, keptTick tn Inv (ticks k)) ->
  (quiet -> forall s, Inv s -> quietStatus (currentStatus s)) ->
  (quiet -> forall k, quietTick (ticks k)) ->
  forall fuel k elapsed,
    (1 <= fuel)%nat ->
    Qceiling timeout <= elapsed + interval * (Z.of_nat fuel - 1) ->
    returns Inv (verifyLoop tn fuel ticks k timeout elapsed)
      (fun r => exists b, r = Some b /\ (quiet -> b = false)).
Proof.
  intros Hkept Hcached Hticks.
  induction fuel as [|fuel IH]; intros k elapsed Hfuel Hbound; [lia|].
  simpl. destruct (Qltb (inject_Z elapsed) timeout) eqn:Etime.
  2:{ apply returns_ret. exists false. auto. }
  apply Qltb_ceiling in Etime.
  destruct (Hkept k) as (_ & Hpoll & Hanswer).
  destruct (Hkept (S k)) as (Hwait & _ & _).
  eapply returns_bind; [apply returns_read|]. intros s Hs.
  destruct (truthy (currentStatus s) && playingOrBuffering (currentStatus s))
    eqn:Ecached.
  { apply returns_ret. exists true. split; [reflexivity|]. intros Hq.
    specialize (Hcached Hq s Hs). unfold quietStatus in Hcached.
    rewrite Hcached, andb_false_r in Ecached. discriminate. }
  eapply returns_bind; [apply returns_pollDevice, Hpoll|]. intros polled Hpolled.
  eapply (returns_bind _ _ _ (fun b => quiet -> b = false)).
  { destruct (truthy polled && (typeof polled =? "object")%string) eqn:Eobj.
    - apply andb_true_iff in Eobj as [Etruthy _].
      specialize (Hpolled Etruthy).
      eapply returns_bind; [apply returns_read|]. intros s' Hs'.
      eapply returns_bind.
      + destruct (currentDevice s') as [d'|].
        * apply (Hanswer (name d') polled Hpolled).
        * apply returns_ret. exact Logic.I.
      + intros _ _. apply returns_ret. intros Hq.
        destruct (Hticks Hq k) as (_ & _ & Hp). rewrite Hpolled in Hp. exact Hp.
    - apply returns_ret. reflexivity. }
  intros [|] Hverified.
  { apply returns_ret. exists true. split; [reflexivity|exact Hverified]. }
  eapply returns_bind; [apply returns_emit|]. intros _ _.
  eapply returns_bind; [apply returns_deliver, Hwait|]. intros _ _.
  apply IH; unfold interval in *; lia.
Qed.

Lemma passBound_enough timeout overrun :
  Qceiling timeout
  <= interval + Z.of_nat overrun
     + interval * (Z.of_nat (passBound timeout) - 1).
Proof.
  unfold passBound, interval.
  rewrite Nat2Z.inj_succ.
  destruct (Z.le_gt_cases 0 (Qceiling timeout)) as [Hpos | Hneg].
  - rewrite Z2Nat.id by (apply Z.div_pos; lia).
    pose proof (Z.mod_pos_bound (Qceiling timeout) 250 ltac:(lia)).
    pose proof (Z.div_mod (Qceiling timeout) 250 ltac:(lia)). lia.
  - assert (Qceiling timeout / 250 < 0) by (apply Z.div_lt_upper_bound; lia).
    rewrite Z2Nat.nonpos by lia. lia.
Qed.

Lemma returns_verifyPlayback (quiet : Prop) ticks :
  (forall k, keptTick tn Inv (ticks k)) ->
  (quiet -> forall s, Inv s -> quietStatus (currentStatus s)) ->
  (quiet -> forall k, quietTick (ticks k)) ->
  returns Inv (_verifyPlayback tn ticks) (fun b => quiet -> b = false).
Proof.
  intros Hkept Hcached Hticks. unfold _verifyPlayback.
  eapply returns_bind; [apply returns_read|]. intros s Hs.
  eapply returns_bind; [apply returns_emit|]. intros _ _.
  eapply returns_bind; [apply returns_deliver, (Hkept O)|]. intros _ _.
  eapply returns_bind.
  - apply (returns_verifyLoop quiet); auto.
    + unfold passBound. lia.
    + apply passBound_enough.
  - intros r (b & -> & Hb). apply returns_ret. exact Hb.
Qed.

End Composite.

(** ** Playing a track *)

Lemma framed_warmup d v q b s :
  framed d v q s -> framed d v q (with_sessionWarmupInProgress b s).
Proof. intros H. exact H. Qed.

Lemma framed_device d v q s :
  framed d v q s -> exists d', currentDevice s = Some d'.
Proof. intros (H & _). eauto. Qed.

Lemma framedQuiet_warmup d v q i b s :
  framedQuiet d v q i s -> framedQuiet d v q i (with_sessionWarmupInProgress b s).
Proof. intros H. exact H. Qed.

Lemma framedQuiet_device d v q i s :
  framedQuiet d v q i s -> exists d', currentDevice s = Some d'.
Proof. intros ((H & _) & _). eauto. Qed.

Lemma framed_kept d v q events : Forall (kept tn (framed d v q)) events.
Proof.
  apply Forall_forall. intros [n st] _. apply handleStatusUpdate_framed.
Qed.

Lemma quiet_kept d v q i events :
  quietEvents events -> Forall (kept tn (framedQuiet d v q i)) events.
Proof.
  unfold quietEvents. intros H. eapply Forall_impl; [exact H|].
  intros [n st] Hq. apply handleStatusUpdate_quiet, Hq.
Qed.

Lemma quiet_keptTick d v q i t :
  quietTick t -> keptTick tn (framedQuiet d v q i) t.
Proof.
  intros (Hw & Hp & Ha). repeat split; try now apply quiet_kept.
  intros n status E. rewrite E in Ha. apply handleStatusUpdate_quiet, Ha.
Qed.

(** With a device connected, [playMedia] always reaches the load of
    its track. *)
Lemma playMedia_loads env t forceStop s d :
  currentDevice s = Some d ->
  loads t (effects (playMedia tn env t forceStop s)).
Proof.
  intros Hd. unfold loads, playMedia.
  set (Inv := framed d (verificationTimeout s) (queue s)).
  assert (Hs : Inv s) by (repeat split; assumption).
  eapply in_effects_bind_r; [reflexivity|]. unfold read, after at 1; simpl.
  rewrite Hd. apply in_effects_try_catch.
  destruct (returns_ensureSessionActive Inv (framed_warmup _ _ _)
              (framed_device _ _ _) env (framed_kept _ _ _ _)
              (framed_kept _ _ _ _) s Hs) as (b & Hr1 & _ & Hs1).
  eapply in_effects_bind_r; [exact Hr1|].
  set (s1 := after (_ensureSessionActive tn env s)) in *.
  assert (Hstop : returns Inv (when forceStop (_stopCurrentPlayback tn env)) any).
  { apply returns_when. intros _.
    apply returns_stopCurrentPlayback, framed_kept. }
  destruct (Hstop s1 Hs1) as (u & Hr2 & _ & Hs2).
  eapply in_effects_bind_r; [exact Hr2|].
  set (s2 := after (when forceStop (_stopCurrentPlayback tn env) s1)) in *.
  apply in_effects_bind_l. unfold _playMediaDirectly.
  eapply in_effects_bind_r; [reflexivity|]. unfold read, after at 1; simpl.
  destruct Hs2 as (Hd2 & _). rewrite Hd2.
  apply in_effects_bind_l. left. reflexivity.
Qed.

(** When nothing reports playback, [playMedia] fails in the
    verification and leaves the current index alone. *)
Lemma playMedia_unverified env t forceStop d v q i :
  neverReportsPlayback env ->
  throws (framedQuiet d v q i) (playMedia tn env t forceStop)
    (fun e => e = verificationFailed).
Proof.
  intros (Hload & Hprobe & Hwarm & Hstop & Hloadev & Hticks).
  pose proof (framedQuiet_warmup d v q i) as Hw.
  pose proof (framedQuiet_device d v q i) as Hdev.
  unfold playMedia.
  eapply throws_bind_later; [apply returns_read|]. intros s Hs.
  destruct (Hdev s Hs) as [d' ->].
  eapply throws_try_catch with (E := fun e => e = verificationFailed).
  2:{ intros e ->. simpl. apply throws_throw. reflexivity. }
  eapply throws_bind_later.
  { apply returns_ensureSessionActive; auto using quiet_kept. }
  intros _ _.
  eapply throws_bind_later.
  { apply returns_when. intros _.
    apply returns_stopCurrentPlayback; auto using quiet_kept. }
  intros _ _.
  apply throws_bind_now. unfold _playMediaDirectly.
  eapply throws_bind_later; [apply returns_read|]. intros s2 Hs2.
  destruct (Hdev s2 Hs2) as [d2 ->].
  eapply throws_bind_later; [apply returns_emit|]. intros _ _.
  rewrite Hload.
  eapply throws_bind_later; [apply returns_deliver; auto using quiet_kept|].
  intros _ _.
  eapply throws_bind_later.
  { apply returns_verifyPlayback with (quiet := True).
    - intros k. apply quiet_keptTick, Hticks.
    - intros _ s3 (_ & Hq & _). exact Hq.
    - intros _. exact Hticks. }
  intros b Hb. rewrite (Hb Logic.I). apply throws_throw. reflexivity.
Qed.

Lemma in_effects_finally_l {A} (body : M A) fin s e :
  In e (effects (body s)) -> In e (effects (finally body fin s)).
Proof.
  unfold finally, effects. destruct (body s) as [[r s1] tr1].
  destruct (fin s1) as [[r2 s2] tr2]. simpl. intros. apply in_or_app. auto.
Qed.

Lemma advanceSelect_device s :
  currentDevice (after (advanceSelect s)) = currentDevice s.
Proof.
  unfold advanceSelect. munfold. unfold after.
  repeat (case_step; simpl in * ); reflexivity.
Qed.

(** With a device connected, the first recovery attempt reaches the
    load of the track. *)
Lemma playTrackWithRecovery_loads envs t backup i s d :
  currentDevice s = Some d ->
  loads t (effects (_playTrackWithRecovery tn envs t backup i s)).
Proof.
  intros Hd. unfold _playTrackWithRecovery. simpl.
  apply in_effects_try_catch. unfold playAttempt.
  eapply in_effects_bind_r; [reflexivity|].
  eapply in_effects_bind_r; [reflexivity|].
  unfold emit, read, after at 1 2; simpl.
  unfold has_device at 1. rewrite Hd. simpl.
  eapply in_effects_bind_r; [reflexivity|].
  eapply in_effects_bind_r; [reflexivity|].
  unfold ret, read, after at 1 2; simpl.
  unfold has_device. rewrite Hd. simpl.
  eapply in_effects_bind_r; [reflexivity|].
  eapply in_effects_bind_r; [reflexivity|].
  apply in_effects_bind_l.
  apply playMedia_loads with (d := d). exact Hd.
Qed.

(** When a track is current, [_executeAdvancement] asks the device for
    the track that the rule selects, or logs the end of the queue. *)
Lemma executeAdvancement_rule envs s d :
  currentDevice s = Some d ->
  0 <= currentTrackIndex s < qlen (queue s) ->
  match specNextIndex (repeatMode s) (currentTrackIndex s) (qlen (queue s) - 1)
  with
  | Some i =>
      exists t, nth_track (queue s) i = Some t
                /\ loads t (effects (_executeAdvancement tn envs s))
  | None => effects (_executeAdvancement tn envs s) = [LogQueueFinished]
  end.
Proof.
  intros Hd Hidx.
  destruct (advanceSelect_rule s Hidx) as (sel & Hr & Hsel & Hnth).
  pose proof (advanceSelect_device s) as Hdev. rewrite Hd in Hdev.
  destruct sel as [[i t]|]; simpl in Hsel; rewrite <- Hsel.
  - exists t. split; [apply Hnth; reflexivity|].
    unfold _executeAdvancement.
    apply in_effects_finally_l, in_effects_try_catch.
    eapply in_effects_bind_r; [reflexivity|].
    unfold read, after at 1; simpl.
    eapply in_effects_bind_r; [exact Hr|].
    apply playTrackWithRecovery_loads with (d := d). exact Hdev.
  - clear Hnth Hdev. revert Hr Hsel.
    unfold _executeAdvancement, specNextIndex, advanceSelect.
    munfold. unfold result, effects.
    repeat (case_step; simpl in * ); intros; try discriminate; reflexivity.
Qed.



(** ** The recovery loop *)

Lemma silent_handleStatusUpdate deviceName status :
  silent (_handleStatusUpdate tn deviceName status).
Proof.
  intros s.
  unfold _handleStatusUpdate, _handleTrackTransition, _preloadNextTrack,
    executeAdvancement_start, advanceSelect.
  munfold. unfold effects.
  repeat (case_step; simpl in * ); reflexivity.
Qed.

Lemma silent_deliver events : silent (deliver tn events).
Proof.
  induction events as [|[n st] evs IH]; simpl.
  - apply silent_ret.
  - apply silent_bind; [apply silent_handleStatusUpdate|]. intros _. exact IH.
Qed.

Lemma silent_pollDevice t : silent (pollDevice tn t).
Proof.
  pose proof silent_deliver. unfold pollDevice. silent_tac.
Qed.

Lemma silent_verifyLoop ticks timeout fuel :
  forall k elapsed, silent (verifyLoop tn fuel ticks k timeout elapsed).
Proof.
  pose proof silent_deliver. pose proof silent_pollDevice.
  pose proof silent_handleStatusUpdate.
  induction fuel as [|fuel IH]; intros k elapsed; simpl; silent_tac.
Qed.

Lemma silent_verifyPlayback ticks : silent (_verifyPlayback tn ticks).
Proof.
  pose proof silent_deliver. pose proof silent_verifyLoop.
  unfold _verifyPlayback. silent_tac.
Qed.

Lemma silent_playMedia env t forceStop : silent (playMedia tn env t forceStop).
Proof.
  pose proof silent_deliver. pose proof silent_verifyPlayback.
  unfold playMedia, _ensureSessionActive, _stopCurrentPlayback,
    _playMediaDirectly, warmupMedia.
  silent_tac.
Qed.

Lemma silent_disconnect : silent disconnect.
Proof. unfold disconnect. silent_tac. Qed.

Lemma silent_connectToDevice c : silent (connectToDevice tn c).
Proof.
  pose proof silent_disconnect. pose proof silent_handleStatusUpdate.
  unfold connectToDevice. silent_tac.
Qed.

Lemma silent_attemptDeviceRecovery env : silent (_attemptDeviceRecovery tn env).
Proof.
  pose proof silent_connectToDevice.
  unfold _attemptDeviceRecovery. silent_tac.
Qed.

Lemma trace_emit_bind {B} e (k : unit -> M B) s :
  silent (k tt) ->
  recoveryTrace (effects (bind (emit e) k s))
  = if is_recovery e then [e] else [].
Proof.
  intros Hk. specialize (Hk s). unfold bind, emit, effects in *. simpl.
  destruct (k tt s) as [[r s1] tr1]. simpl in *.
  unfold recoveryTrace in *. simpl. rewrite Hk.
  destruct (is_recovery e); reflexivity.
Qed.

(** One attempt announces itself once and does not wait. *)
Lemma playAttempt_trace env t backup i attempt s :
  recoveryTrace (effects (playAttempt tn env t backup i attempt s))
  = [LogAttempt attempt].
Proof.
  pose proof silent_connectToDevice. pose proof silent_attemptDeviceRecovery.
  pose proof silent_playMedia.
  unfold playAttempt. rewrite trace_emit_bind; [reflexivity|].
  silent_tac.
Qed.

(** One pass of the loop. *)
Lemma recoveryLoop_step n attempt envs t backup i s :
  recoveryLoop tn (S n) attempt envs t backup i s =
  match playAttempt tn (envs attempt) t backup i attempt s with
  | (Ok a, s1, tr1) => (Ok a, s1, tr1)
  | (Throw e, s1, tr1) =>
      if attempt =? maxAttempts then (Throw e, s1, tr1 ++ [])
      else
        (result (recoveryLoop tn n (attempt + 1) envs t backup i s1),
         after (recoveryLoop tn n (attempt + 1) envs t backup i s1),
         tr1 ++ RetryWait (1000 * attempt)
             :: effects (recoveryLoop tn n (attempt + 1) envs t backup i s1))
  end.
Proof.
  simpl. unfold try_catch.
  destruct (playAttempt tn (envs attempt) t backup i attempt s)
    as [[[a|e] s1] tr1]; [reflexivity|].
  destruct (attempt =? maxAttempts); [reflexivity|].
  unfold bind, emit, result, after, effects.
  destruct (recoveryLoop tn n (attempt + 1) envs t backup i s1) as [[r s2] tr2].
  reflexivity.
Qed.


(** ** The event loop *)

Lemma holders_app ts1 ts2 :
  holders (ts1 ++ ts2) = (holders ts1 + holders ts2)%nat.
Proof. induction ts1 as [|t ts1 IH]; simpl; [reflexivity|]. rewrite IH. lia. Qed.

Lemma shouldAdvanceTraditional_free p c s :
  shouldAdvanceTraditional p c s = true -> isAutoAdvancing s = false.
Proof.
  unfold shouldAdvanceTraditional. intros H.
  apply andb_true_iff in H as [_ H]. now apply negb_true_iff in H.
Qed.

Lemma shouldPreloadNow_free status s :
  shouldPreloadNow tn status s = true -> isAutoAdvancing s = false.
Proof.
  unfold shouldPreloadNow. intros H.
  destruct (_ && _ && _ && _) in H; [|discriminate].
  apply andb_true_iff in H as [H _]. apply andb_true_iff in H as [_ H].
  now apply negb_true_iff in H.
Qed.

Ltac flag_cases :=
  repeat (case_step; simpl in * );
  repeat match goal with
         | H : shouldAdvanceTraditional _ _ _ = true |- _ =>
             apply shouldAdvanceTraditional_free in H; simpl in H
         end;
  unfold flag_count; simpl;
  repeat match goal with
         | H : isAutoAdvancing _ = _ |- _ => rewrite H in *
         end;
  try reflexivity; try discriminate.

(** A status update sets the flag exactly when it leaves a fallback
    advance in flight. *)
Lemma handleStatusUpdate_account deviceName status s :
  (holders (spawned (effects (_handleStatusUpdate tn deviceName status s)))
   + flag_count s)%nat
  = flag_count (after (_handleStatusUpdate tn deviceName status s)).
Proof.
  unfold _handleStatusUpdate, _handleTrackTransition, _preloadNextTrack,
    executeAdvancement_start, advanceSelect.
  munfold. unfold effects, after.
  flag_cases; destruct (isAutoAdvancing s); reflexivity.
Qed.

Lemma handleTrackFinished_account s :
  (holders (spawned (effects (handleTrackFinished_start s))) + flag_count s)%nat
  = flag_count (after (handleTrackFinished_start s)).
Proof.
  unfold handleTrackFinished_start, finishedSelect.
  munfold. unfold effects, after.
  flag_cases.
Qed.

Lemma checkForTransition_account t i s :
  (holders (spawned (effects (checkForTransition tn t i s))) + flag_count s)%nat
  = flag_count (after (checkForTransition tn t i s)).
Proof.
  unfold checkForTransition, verifyAndContinuePlayback_start.
  munfold. unfold effects, after.
  flag_cases.
Qed.

(** While the flag is set, every contender for it does nothing. *)
Lemma flag_taken_noop s t i p c status :
  isAutoAdvancing s = true ->
  checkForTransition tn t i s = (Ok tt, s, [])
  /\ handleTrackFinished_start s = (Ok tt, s, [])
  /\ shouldAdvanceTraditional p c s = false
  /\ shouldPreloadNow tn status s = false.
Proof.
  intros H. unfold checkForTransition, handleTrackFinished_start.
  munfold. rewrite H. repeat split.
  - unfold shouldAdvanceTraditional. rewrite H. simpl. apply andb_false_r.
  - destruct (shouldPreloadNow tn status s) eqn:E; [|reflexivity].
    apply shouldPreloadNow_free in E. congruence.
Qed.

Lemma step_balanced c c' :
  step tn c c' ->
  holders (snd c) = flag_count (fst c) ->
  holders (snd c') = flag_count (fst c').
Proof.
  intros Hstep. destruct Hstep; simpl; intros Hbal;
    rewrite ?holders_app in *; simpl in *.
  - rewrite <- handleStatusUpdate_account. lia.
  - rewrite <- handleTrackFinished_account. lia.
  - unfold flag_count in *. simpl. lia.
  - unfold flag_count in *. simpl. lia.
  - rewrite <- checkForTransition_account. lia.
  - unfold flag_count in *. simpl. destruct (isAutoAdvancing s); lia.
  - unfold flag_count in *. simpl. destruct (isAutoAdvancing s); lia.
  - unfold flag_count in *. simpl. destruct (isAutoAdvancing s); lia.
  - destruct H as [H _]. unfold flag_count. now rewrite H.
Qed.

(** C9, amended.  At every point of every execution that starts from
    a new service, at most one task that holds [isAutoAdvancing] is
    in flight (a fallback advance, the switch of a preloaded
    transition, or an advance after the [finished] event), and the
    flag is set exactly while one is.  Whatever finds the flag set
    does nothing: the watch of a preloaded transition does not
    switch, the [finished] handler returns, and a status update
    starts neither a fallback advance nor a preload.  The load of a
    preload is not a holder of the flag. *)
Theorem C9_one_flag_holder_in_flight c s t i p cur status :
  rtc (step tn) (newService, []) c ->
  isAutoAdvancing s = true ->
  holders (snd c) = flag_count (fst c)
  /\ (holders (snd c) <= 1)%nat
  /\ checkForTransition tn t i s = (Ok tt, s, [])
  /\ handleTrackFinished_start s = (Ok tt, s, [])
  /\ shouldAdvanceTraditional p cur s = false
  /\ shouldPreloadNow tn status s = false.
Proof.
  intros Hreach Hflag.
  assert (Hbal : holders (snd c) = flag_count (fst c)).
  { revert c Hreach.
    apply (rtc_ind_r (fun c => holders (snd c) = flag_count (fst c))
             (newService, [])); [reflexivity|].
    intros y z _ Hstep IH. eapply step_balanced; eassumption. }
  split; [exact Hbal|]. split.
  - rewrite Hbal. unfold flag_count. destruct (isAutoAdvancing (fst c)); lia.
  - now apply flag_taken_noop.
Qed.

End EngineFacts.

(** ** Examples and counterexamples for the engine *)

Lemma neverPlays_neverReportsPlayback : neverReportsPlayback neverPlays.
Proof.
  unfold neverReportsPlayback, neverPlays, quietEvents, quietTick; simpl.
  repeat split; try apply Forall_nil; try reflexivity.
Qed.





(** C9, as stated, fails: one status update can start both
    strategies.  With the first of three tracks playing and neither
    flag set, a single BUFFERING status at 180 s of 200 s schedules
    the preload of the next track and starts the fallback advance;
    the preload then loads its track while the advance is in
    flight. *)
Lemma C9_one_update_starts_both_counterexample :
  isAutoAdvancing firstPlaying = false
  /\ preloadInProgress firstPlaying = false
  /\ spawned (effects (_handleStatusUpdate numbersOnly "Living Room"
                         endingStatus firstPlaying))
     = [TPreloadTimer 1 trackB; TAdvance 1 trackB]
  /\ rtc (step numbersOnly) (newService, [])
       (with_preloadInProgress false
          (after (_handleStatusUpdate numbersOnly "Living Room"
                    endingStatus firstPlaying)),
        [TAdvance 1 trackB; TWatch 1 trackB]).
Proof.
  split; [reflexivity|]. split; [reflexivity|]. split; [reflexivity|].
  eapply rtc_l.
  { apply (step_other numbersOnly newService firstPlaying []).
    split; reflexivity. }
  eapply rtc_l.
  { apply (step_status numbersOnly "Living Room" endingStatus firstPlaying []). }
  eapply rtc_l; [|apply rtc_refl].
  exact (step_preload_loaded numbersOnly 1 trackB
           (after (_handleStatusUpdate numbersOnly "Living Room"
                     endingStatus firstPlaying))
           [] [TAdvance 1 trackB]).
Qed.

Lemma C9_one_flag_holder_in_flight_witness :
  let s := after (_handleStatusUpdate numbersOnly "Living Room"
                    endingStatus firstPlaying) in
  let c := (s, [TPreloadTimer 1 trackB; TAdvance 1 trackB]) in
  holders (snd c) = flag_count (fst c)
  /\ (holders (snd c) <= 1)%nat
  /\ checkForTransition numbersOnly trackB 1 s = (Ok tt, s, [])
  /\ handleTrackFinished_start s = (Ok tt, s, [])
  /\ shouldAdvanceTraditional (JStr "PLAYING") (JStr "IDLE") s = false
  /\ shouldPreloadNow numbersOnly endingStatus s = false.
Proof.
  apply (C9_one_flag_holder_in_flight numbersOnly).
  - eapply rtc_l.
    { apply (step_other numbersOnly newService firstPlaying []).
      split; reflexivity. }
    eapply rtc_l; [|apply rtc_refl].
    apply (step_status numbersOnly "Living Room" endingStatus firstPlaying []).
  - reflexivity.
Defined.

(** ** The model at work *)

Example sanitize_null : _sanitizeStatus JNull = _getDefaultStatus.
Proof. reflexivity. Qed.

Example sanitize_string : _sanitizeStatus (JStr "PLAYING") = _getDefaultStatus.
Proof. reflexivity. Qed.

Example sanitize_partial :
  _sanitizeStatus
    (JObj [ ("playerState"%string, JStr "PLAYING");
            ("currentTime"%string, JStr "12");
            ("volume"%string, JNum (num_of_Z 0));
            ("media"%string, JObj [("contentId"%string, JStr "")]) ])
  = JObj [ ("mediaSessionId"%string, JNull);
           ("playbackRate"%string, JNum (num_of_Z 1));
           ("playerState"%string, JStr "PLAYING");
           ("currentTime"%string, JNum (num_of_Z 0));
           ("volume"%string,
            JObj [ ("level"%string, JNum (num_of_Z 0));
                   ("muted"%string, JBool false) ]);
           ("media"%string,
            JObj [ ("contentId"%string, JNull);
                   ("contentType"%string, JNull);
                   ("duration"%string, JNull);
                   ("metadata"%string, JNull) ]) ].
Proof. reflexivity. Qed.

Example shuffle_four :
  queue (after (shuffleQueue rngHalf
                  (playing [trackA; trackB; trackC; trackD] 0)))
  = [trackA; trackD; trackB; trackC].
Proof. reflexivity. Qed.

(** With the timeout of [config/index.js] (1600) the window is the
    floor of 3000 ms. *)
Example configured_window :
  verificationTimeoutMs numbersOnly newService = 3000%Q.
Proof. reflexivity. Qed.

(** Three reconnections time out: three attempts, waits of 1000 and
    2000 ms, and the last error reaches the caller. *)
Example recovery_gives_up :
  let out := _playTrackWithRecovery numbersOnly (fun _ => lostDevice)
               trackA [trackA] 0 newService in
  result out = Throw (mkError ChromecastError "Connection timed out")
  /\ recoveryTrace (effects out)
     = [LogAttempt 1; RetryWait 1000; LogAttempt 2; RetryWait 2000;
        LogAttempt 3].
Proof. split; reflexivity. Qed.

(** The fallback advance of the specification's scenario: five
    entries, the third current, repeat off, PLAYING to IDLE with no
    media in the status.  One advance starts, to index 3; a second
    identical update finds the flag set and starts nothing. *)
Example fallback_advances_once :
  let s := with_currentStatus (statusOf "PLAYING")
             (playing [trackA; trackB; trackC; trackD; trackE] 2) in
  let out1 := _handleStatusUpdate numbersOnly "Living Room" (statusOf "IDLE") s in
  let out2 := _handleStatusUpdate numbersOnly "Living Room" (statusOf "IDLE")
                (with_currentStatus (statusOf "PLAYING") (after out1)) in
  spawned (effects out1) = [TAdvance 3 trackD]
  /\ currentTrackIndex (after out1) = 3
  /\ spawned (effects out2) = []
  /\ currentTrackIndex (after out2) = 3.
Proof. repeat split; reflexivity. Qed.

(** * Further properties *)

(** ** The queue store: index, current track and order snapshot *)

Lemma addToQueue_eq answer tracks s :
  addToQueue answer tracks s =
  match currentDevice s, answer with
  | None, _ => (Throw (mkError ChromecastError "No device connected"), s, [])
  | Some _, QueueLoadThrows e => (Throw e, s, [])
  | Some _, _ =>
      (Ok success,
       with_currentTrackIndex 0 (with_queue (map queueEntry tracks) s), [])
  end.
Proof.
  unfold addToQueue, bind, read, modify, ret, throwChromecast, throw.
  destruct (currentDevice s), answer; reflexivity.
Qed.

Lemma removeFromQueue_out_of_range index s :
  index < 0 \/ qlen (queue s) <= index ->
  removeFromQueue index s =
  (Throw (mkError ChromecastError "Invalid queue index"), s, []).
Proof.
  intros H. unfold removeFromQueue, bind, read.
  destruct ((index <? 0) || (index >=? qlen (queue s))) eqn:E; [reflexivity|].
  apply orb_false_elim in E as [E1 E2].
  apply Z.ltb_ge in E1. rewrite Z.geb_leb in E2. apply Z.leb_gt in E2. lia.
Qed.

Lemma qlen_delete index (q : list Track) :
  0 <= index < qlen q -> qlen (delete (Z.to_nat index) q) = qlen q - 1.
Proof.
  unfold qlen. intros H. rewrite length_delete.
  - lia.
  - apply lookup_lt_is_Some. lia.
Qed.

Lemma setRepeatMode_eq mode s :
  setRepeatMode mode s =
  if bool_decide (mode ∈ validModes)
  then (Ok success, with_repeatMode mode s, [])
  else (Throw (mkError ChromecastError
                 "Invalid repeat mode. Valid modes: none, one, all"), s, []).
Proof.
  unfold setRepeatMode. destruct (bool_decide (mode ∈ validModes)); reflexivity.
Qed.

Lemma applyOp_indexInRange op s :
  match op with OpAdd tracks => tracks <> [] | _ => True end ->
  indexInRange s -> indexInRange (after (applyOp op s)).
Proof.
  unfold indexInRange.
  intros Hop H. destruct op; simpl; rewrite ?after_seq_ret.
  - exact H.
  - rewrite disconnect_eq. unfold after; simpl. destruct (currentDevice s); exact H.
  - rewrite addToQueue_eq. destruct (currentDevice s); [|exact H].
    unfold after; simpl. unfold qlen. rewrite length_map.
    destruct tracks; [contradiction|]. simpl. lia.
  - destruct (Z.ltb_spec index 0) as [Hneg|Hpos];
      [rewrite removeFromQueue_out_of_range by lia; exact H|].
    destruct (Z.leb_spec (qlen (queue s)) index) as [Hbig|Hin];
      [rewrite removeFromQueue_out_of_range by lia; exact H|].
    rewrite removeFromQueue_in_range by lia.
    destruct (currentTrackIndex s >=? index) eqn:E; unfold after; simpl;
      rewrite qlen_delete by lia; rewrite Z.geb_leb in E;
      [apply Z.leb_le in E | apply Z.leb_gt in E]; lia.
  - unfold after, qlen; simpl. lia.
  - destruct (Z.leb_spec (qlen (queue s)) 1) as [Hsmall | Hbig].
    + rewrite shuffleQueue_small by exact Hsmall. exact H.
    + rewrite shuffleQueue_big by exact Hbig. unfold after, shuffled_state; simpl.
      unfold qlen in *. destruct (shuffle s); simpl; rewrite fisherYates_length; lia.
  - rewrite restoreQueueOrder_eq.
    destruct (shuffle s && negb (qlen (originalQueue s) =? 0)) eqn:E; [|exact H].
    apply andb_true_iff in E as [_ E]. apply negb_true_iff, Z.eqb_neq in E.
    unfold after; simpl. unfold qlen in *. lia.
  - rewrite setRepeatMode_eq.
    destruct (bool_decide (mode ∈ validModes)); exact H.
Qed.


(** The condition on [addToQueue] is needed: a batch without a track
    leaves index 0 on an empty queue. *)
Lemma empty_add_breaks_index s d :
  currentDevice s = Some d ->
  ~ indexInRange (after (addToQueue QueueLoaded [] s)).
Proof.
  intros Hd. rewrite addToQueue_eq, Hd. unfold indexInRange, after, qlen.
  simpl. lia.
Qed.




Lemma applyOp_keepsSnapshot op q0 s :
  keepsSnapshot op = true ->
  shuffle s = true /\ originalQueue s = q0 ->
  shuffle (after (applyOp op s)) = true
  /\ originalQueue (after (applyOp op s)) = q0.
Proof.
  intros Hop H. destruct op; try discriminate; simpl; rewrite ?after_seq_ret.
  - exact H.
  - rewrite disconnect_eq. unfold after; simpl. destruct (currentDevice s); exact H.
  - rewrite addToQueue_eq. destruct (currentDevice s); exact H.
  - destruct (Z.ltb_spec index 0) as [Hneg|Hpos];
      [rewrite removeFromQueue_out_of_range by lia; exact H|].
    destruct (Z.leb_spec (qlen (queue s)) index) as [Hbig|Hin];
      [rewrite removeFromQueue_out_of_range by lia; exact H|].
    rewrite removeFromQueue_in_range by lia.
    destruct (currentTrackIndex s >=? index); exact H.
  - destruct (Z.leb_spec (qlen (queue s)) 1) as [Hsmall | Hbig].
    + rewrite shuffleQueue_small by exact Hsmall. exact H.
    + rewrite shuffleQueue_big by exact Hbig. unfold after, shuffled_state; simpl.
      destruct H as [H1 H2]. rewrite H1. simpl. split; [reflexivity|exact H2].
  - rewrite setRepeatMode_eq.
    destruct (bool_decide (mode ∈ validModes)); exact H.
Qed.

(** X3.  [restoreQueueOrder] brings back the queue as it was when
    the first shuffle began, whatever was added, removed or shuffled
    again in between: the order snapshot is taken once, at the first
    shuffle, and later tracks added or removed never reach it.  So a
    track removed while shuffled comes back, and tracks added while
    shuffled are dropped. *)
Theorem restore_returns_queue_of_first_shuffle
    (rng : nat -> unitDraw) (ops : list QueueOp) (s : Service) :
  shuffle s = false ->
  (2 <= length (queue s))%nat ->
  forallb keepsSnapshot ops = true ->
  let shuffled := runOps ops (after (shuffleQueue rng s)) in
  result (restoreQueueOrder shuffled) = Ok success
  /\ queue (after (restoreQueueOrder shuffled)) = queue s
  /\ shuffle (after (restoreQueueOrder shuffled)) = false.
Proof.
  intros Hflag Hlen Hops shuffled.
  assert (H : shuffle shuffled = true /\ originalQueue shuffled = queue s).
  { subst shuffled. rewrite shuffleQueue_big by (unfold qlen; lia).
    unfold after at 1; simpl.
    assert (H0 : shuffle (shuffled_state rng s) = true
                 /\ originalQueue (shuffled_state rng s) = queue s).
    { unfold shuffled_state. rewrite Hflag. split; reflexivity. }
    revert H0. generalize (shuffled_state rng s) as s1.
    induction ops as [|op ops IH]; intros s1 H1; [exact H1|].
    simpl in Hops. apply andb_true_iff in Hops as [Hop Hops].
    simpl. apply IH; [exact Hops|]. now apply applyOp_keepsSnapshot. }
  destruct H as [H1 H2].
  rewrite restoreQueueOrder_eq, H1, H2.
  destruct (qlen (queue s) =? 0) eqn:E;
    [apply Z.eqb_eq in E; unfold qlen in E; lia|].
  simpl. repeat split.
Qed.

Lemma restore_returns_queue_of_first_shuffle_witness :
  let shuffled :=
    runOps [OpRemove 0; OpShuffle rngZero; OpAdd [trackD; trackE]]
      (after (shuffleQueue rngHalf (playing [trackA; trackB; trackC] 0))) in
  result (restoreQueueOrder shuffled) = Ok success
  /\ queue (after (restoreQueueOrder shuffled)) = [trackA; trackB; trackC]
  /\ shuffle (after (restoreQueueOrder shuffled)) = false.
Proof.
  apply (restore_returns_queue_of_first_shuffle rngHalf
           [OpRemove 0; OpShuffle rngZero; OpAdd [trackD; trackE]]
           (playing [trackA; trackB; trackC] 0)).
  - reflexivity.
  - simpl. lia.
  - reflexivity.
Defined.

(** X4.  The repeat mode is one of [none], [one] and [all] in every
    state that queue commands reach from a state where it is; a mode
    outside the three is refused with a [ChromecastError] that lists
    the three, and the service stays as it was; and the mode handed
    to the Cast queue is [REPEAT_OFF] exactly when the mode is
    [none]. *)
Theorem repeat_mode_stays_valid (ops : list QueueOp) (s : Service) :
  repeatMode s ∈ validModes ->
  repeatMode (runOps ops s) ∈ validModes
  /\ (forall mode, mode ∉ validModes ->
        setRepeatMode mode (runOps ops s) =
          (Throw (mkError ChromecastError
                    "Invalid repeat mode. Valid modes: none, one, all"),
           runOps ops s, [])
        /\ repeatMode (after (setRepeatMode mode (runOps ops s)))
           = repeatMode (runOps ops s))
  /\ (_getCastRepeatMode (runOps ops s) = "REPEAT_OFF"%string
      <-> repeatMode (runOps ops s) = "none"%string).
Proof.
  intros Hs.
  assert (Hv : repeatMode (runOps ops s) ∈ validModes); [|split; [exact Hv|split]].
  - revert s Hs. induction ops as [|op ops IH]; intros s Hs; [exact Hs|].
    simpl. apply IH.
    destruct op; simpl; rewrite ?after_seq_ret.
    + exact Hs.
    + rewrite disconnect_eq. unfold after; simpl. destruct (currentDevice s); exact Hs.
    + rewrite addToQueue_eq. destruct (currentDevice s); exact Hs.
    + unfold removeFromQueue, bind, read, when, after.
      destruct ((index <? 0) || (index >=? qlen (queue s))); simpl; [exact Hs|].
      destruct (currentTrackIndex s >=? index); exact Hs.
    + exact Hs.
    + destruct (Z.leb_spec (qlen (queue s)) 1) as [Hsmall | Hbig].
      * rewrite shuffleQueue_small by exact Hsmall. exact Hs.
      * rewrite shuffleQueue_big by exact Hbig. unfold after, shuffled_state; simpl.
        destruct (shuffle s); exact Hs.
    + rewrite restoreQueueOrder_eq.
      destruct (shuffle s && negb (qlen (originalQueue s) =? 0)); exact Hs.
    + rewrite setRepeatMode_eq.
      destruct (bool_decide (mode ∈ validModes)) eqn:E; [|exact Hs].
      apply bool_decide_eq_true in E. exact E.
  - intros mode Hmode. rewrite setRepeatMode_eq.
    destruct (bool_decide (mode ∈ validModes)) eqn:E; [|split; reflexivity].
    apply bool_decide_eq_true in E. contradiction.
  - unfold _getCastRepeatMode, validModes in *.
    repeat (apply elem_of_cons in Hv as [->|Hv]); [| | |inversion Hv];
      simpl; split; intros H; try discriminate; reflexivity.
Qed.

Lemma repeat_mode_stays_valid_witness :
  let ops := [OpRepeat "all"; OpRepeat "loop"; OpClear]%string in
  repeatMode (runOps ops newService) ∈ validModes
  /\ (forall mode, mode ∉ validModes ->
        setRepeatMode mode (runOps ops newService) =
          (Throw (mkError ChromecastError
                    "Invalid repeat mode. Valid modes: none, one, all"),
           runOps ops newService, [])
        /\ repeatMode (after (setRepeatMode mode (runOps ops newService)))
           = repeatMode (runOps ops newService))
  /\ (_getCastRepeatMode (runOps ops newService) = "REPEAT_OFF"%string
      <-> repeatMode (runOps ops newService) = "none"%string).
Proof.
  apply (repeat_mode_stays_valid [OpRepeat "all"; OpRepeat "loop"; OpClear]%string
           newService).
  apply list_elem_of_here.
Defined.

(** ** Rules for [keeps] and [chromecastOnly] *)

Section Keeps.

Variable Inv : Service -> Prop.

Lemma keeps_ret {A} (a : A) : keeps Inv (ret a).
Proof. intros s Hs. exact Hs. Qed.

Lemma keeps_throw {A} e : keeps Inv (@throw A e).
Proof. intros s Hs. exact Hs. Qed.

Lemma keeps_throwChromecast {A} msg : keeps Inv (@throwChromecast A msg).
Proof. intros s Hs. exact Hs. Qed.

Lemma keeps_emit e : keeps Inv (emit e).
Proof. intros s Hs. exact Hs. Qed.

Lemma keeps_read : keeps Inv read.
Proof. intros s Hs. exact Hs. Qed.

Lemma keeps_modify f : (forall s, Inv s -> Inv (f s)) -> keeps Inv (modify f).
Proof. intros Hf s Hs. apply Hf, Hs. Qed.

Lemma keeps_bind {A B} (m : M A) (k : A -> M B) :
  keeps Inv m -> (forall a, keeps Inv (k a)) -> keeps Inv (bind m k).
Proof.
  intros Hm Hk s Hs. specialize (Hm s Hs).
  unfold bind, after in *. destruct (m s) as [[[a|e] s1] tr1]; simpl in *; [|exact Hm].
  specialize (Hk a s1 Hm). destruct (k a s1) as [[r s2] tr2]. exact Hk.
Qed.

(** After [read], the continuation runs in the state it was handed. *)
Lemma keeps_read_bind {B} (k : Service -> M B) :
  (forall s, Inv s -> Inv (after (k s s))) -> keeps Inv (bind read k).
Proof.
  intros Hk s Hs. specialize (Hk s Hs).
  unfold bind, read, after in *. destruct (k s s) as [[r s2] tr2]. exact Hk.
Qed.

Lemma keeps_try_catch {A} (m : M A) h :
  keeps Inv m -> (forall e, keeps Inv (h e)) -> keeps Inv (try_catch m h).
Proof.
  intros Hm Hh s Hs. specialize (Hm s Hs).
  unfold try_catch, after in *.
  destruct (m s) as [[[a|e] s1] tr1]; simpl in *; [exact Hm|].
  specialize (Hh e s1 Hm). destruct (h e s1) as [[r s2] tr2]. exact Hh.
Qed.

Lemma keeps_finally {A} (m : M A) fin :
  keeps Inv m -> keeps Inv fin -> keeps Inv (finally m fin).
Proof.
  intros Hm Hf s Hs. specialize (Hm s Hs).
  unfold finally, after in *. destruct (m s) as [[r s1] tr1]; simpl in *.
  specialize (Hf s1 Hm). destruct (fin s1) as [[r2 s2] tr2]. exact Hf.
Qed.

Lemma keeps_when b m : keeps Inv m -> keeps Inv (when b m).
Proof. intros Hm. destruct b; [exact Hm|apply keeps_ret]. Qed.

End Keeps.

Lemma chromecastOnly_ret {A} (a : A) : chromecastOnly (ret a).
Proof. intros s e H. discriminate H. Qed.

Lemma chromecastOnly_throwChromecast {A} msg :
  chromecastOnly (@throwChromecast A msg).
Proof. intros s e [= <-]. reflexivity. Qed.

Lemma chromecastOnly_modify f : chromecastOnly (modify f).
Proof. intros s e H. discriminate H. Qed.

Lemma chromecastOnly_bind {A B} (m : M A) (k : A -> M B) :
  chromecastOnly m -> (forall a, chromecastOnly (k a)) ->
  chromecastOnly (bind m k).
Proof.
  intros Hm Hk s e. specialize (Hm s). unfold bind, result in *.
  destruct (m s) as [[[a|e1] s1] tr1]; simpl in *;
    [|intros [= <-]; now apply Hm].
  specialize (Hk a s1 e). unfold result in Hk.
  destruct (k a s1) as [[r s2] tr2]. exact Hk.
Qed.

Lemma chromecastOnly_read_bind {B} (k : Service -> M B) :
  (forall s, chromecastOnly (k s)) -> chromecastOnly (bind read k).
Proof.
  intros Hk. apply chromecastOnly_bind; [|exact Hk].
  intros s e H. discriminate H.
Qed.

Lemma chromecastOnly_when b m : chromecastOnly m -> chromecastOnly (when b m).
Proof. intros Hm. destruct b; [exact Hm|apply chromecastOnly_ret]. Qed.

(** A [catch] that throws only [ChromecastError]s covers its [try]. *)
Lemma chromecastOnly_try_catch {A} (m : M A) h :
  (forall e, chromecastOnly (h e)) -> chromecastOnly (try_catch m h).
Proof.
  intros Hh s e. unfold try_catch, result.
  destruct (m s) as [[[a|e1] s1] tr1]; simpl; [discriminate|].
  specialize (Hh e1 s1 e). unfold result in Hh.
  destruct (h e1 s1) as [[r s2] tr2]. exact Hh.
Qed.

(** ** Commands without a device, and the class of their errors *)

Section CommandFacts.

Variable tn : JsVal -> number.
Variable numberToString : Q -> string.

(** X5.  With no device connected, every command that needs one
    throws the [ChromecastError] [No device connected] ([playQueue]
    its own [No device connected or empty queue]) before it does
    anything: no call reaches a device, the queue, the index and the
    cached status stay as they were. *)
Theorem commands_need_a_device (s : Service) :
  currentDevice s = None ->
  forall env track forceStop playerAnswer level volumeAnswer queueAnswer
         tracks trackNumber jump startIndex,
    playMedia tn env track forceStop s = (Throw noDevice, s, [])
    /\ skipToNext tn env playerAnswer s = (Throw noDevice, s, [])
    /\ skipToPrevious tn env s = (Throw noDevice, s, [])
    /\ skipToTrack tn env trackNumber s = (Throw noDevice, s, [])
    /\ stop playerAnswer s = (Throw noDevice, s, [])
    /\ pause playerAnswer s = (Throw noDevice, s, [])
    /\ resume playerAnswer s = (Throw noDevice, s, [])
    /\ seek playerAnswer s = (Throw noDevice, s, [])
    /\ setVolume numberToString level volumeAnswer s = (Throw noDevice, s, [])
    /\ addToQueue queueAnswer tracks s = (Throw noDevice, s, [])
    /\ playQueue tn env jump startIndex s =
       (Throw (mkError ChromecastError "No device connected or empty queue"),
        s, []).
Proof.
  intros Hd *.
  unfold playMedia, skipToNext, skipToPrevious, skipToTrack, stop, pause,
    resume, seek, setVolume, addToQueue, playQueue, has_device, bind, read.
  rewrite Hd. repeat split.
Qed.

Ltac chromecast_tac :=
  repeat first
    [ apply chromecastOnly_ret
    | apply chromecastOnly_throwChromecast
    | apply chromecastOnly_modify
    | apply chromecastOnly_when
    | apply chromecastOnly_try_catch; intros ?
    | apply chromecastOnly_read_bind; intros ?
    | apply chromecastOnly_bind; [|intros ?]
    | match goal with
      | |- chromecastOnly (match ?x with _ => _ end) => destruct x eqn:?
      | |- chromecastOnly (if ?x then _ else _) => destruct x eqn:?
      end ].

(** X6.  Whatever the device library reports or throws, every error
    that leaves [playMedia], [skipToNext], [skipToPrevious],
    [skipToTrack], [stop], [pause], [resume], [seek], [setVolume],
    [removeFromQueue] or [setRepeatMode] is a [ChromecastError]: an
    error of another class (a [TypeError] of a missing entry, a
    [ValidationError] of the volume check, an error of the player) is
    wrapped before it leaves. *)
Theorem commands_throw_only_ChromecastError :
  forall env track forceStop playerAnswer level volumeAnswer
         trackNumber index mode,
    chromecastOnly (playMedia tn env track forceStop)
    /\ chromecastOnly (skipToNext tn env playerAnswer)
    /\ chromecastOnly (skipToPrevious tn env)
    /\ chromecastOnly (skipToTrack tn env trackNumber)
    /\ chromecastOnly (stop playerAnswer)
    /\ chromecastOnly (pause playerAnswer)
    /\ chromecastOnly (resume playerAnswer)
    /\ chromecastOnly (seek playerAnswer)
    /\ chromecastOnly (setVolume numberToString level volumeAnswer)
    /\ chromecastOnly (removeFromQueue index)
    /\ chromecastOnly (setRepeatMode mode).
Proof.
  intros.
  unfold playMedia, skipToNext, skipToPrevious, skipToTrack, stop, pause,
    resume, seek, setVolume, removeFromQueue, setRepeatMode.
  repeat split; chromecast_tac.
  all: try (intros s' e' H; discriminate H).
  all: try (intros s' e' [= <-]; assumption).
Qed.

End CommandFacts.

Lemma commands_need_a_device_witness :
  let s := with_queue [trackA; trackB] newService in
  playMedia numbersOnly neverPlays trackA true s = (Throw noDevice, s, [])
  /\ skipToNext numbersOnly neverPlays (Ok tt) s = (Throw noDevice, s, [])
  /\ skipToPrevious numbersOnly neverPlays s = (Throw noDevice, s, [])
  /\ skipToTrack numbersOnly neverPlays 2 s = (Throw noDevice, s, [])
  /\ stop (Ok tt) s = (Throw noDevice, s, [])
  /\ pause (Ok tt) s = (Throw noDevice, s, [])
  /\ resume (Ok tt) s = (Throw noDevice, s, [])
  /\ seek (Ok tt) s = (Throw noDevice, s, [])
  /\ setVolume showBound half VolumeOk s = (Throw noDevice, s, [])
  /\ addToQueue QueueLoaded [trackC] s = (Throw noDevice, s, [])
  /\ playQueue numbersOnly neverPlays JumpOk 1 s =
     (Throw (mkError ChromecastError "No device connected or empty queue"),
      s, []).
Proof.
  exact (commands_need_a_device numbersOnly showBound
           (with_queue [trackA; trackB] newService) eq_refl
           neverPlays trackA true (Ok tt) half VolumeOk QueueLoaded [trackC]
           2 JumpOk 1).
Defined.

(** ** What playing a track leaves alone *)

Ltac keeps_tac :=
  repeat first
    [ solve [auto 2]
    | apply keeps_ret
    | apply keeps_throw
    | apply keeps_throwChromecast
    | apply keeps_emit
    | apply keeps_read
    | apply keeps_when
    | apply keeps_try_catch; [|intros ?]
    | apply keeps_bind; [|intros ?]
    | match goal with
      | |- keeps _ (match ?x with _ => _ end) => destruct x eqn:?
      | |- keeps _ (if ?x then _ else _) => destruct x eqn:?
      end ].

Ltac bool_facts :=
  repeat match goal with
         | H : (_ && _) = true |- _ => apply andb_true_iff in H as [? ?]
         | H : (_ || _) = false |- _ => apply orb_false_elim in H as [? ?]
         | H : negb _ = true |- _ => apply negb_true_iff in H
         | H : negb _ = false |- _ => apply negb_false_iff in H
         | H : (_ <? _) = true |- _ => apply Z.ltb_lt in H
         | H : (_ <? _) = false |- _ => apply Z.ltb_ge in H
         | H : (_ >? _) = true |- _ => rewrite Z.gtb_ltb in H; apply Z.ltb_lt in H
         | H : (_ >? _) = false |- _ => rewrite Z.gtb_ltb in H; apply Z.ltb_ge in H
         | H : (_ >=? _) = true |- _ => rewrite Z.geb_leb in H; apply Z.leb_le in H
         | H : (_ >=? _) = false |- _ => rewrite Z.geb_leb in H; apply Z.leb_gt in H
         | H : (_ <=? _) = true |- _ => apply Z.leb_le in H
         | H : (_ <=? _) = false |- _ => apply Z.leb_gt in H
         | H : (_ =? _) = true |- _ => apply Z.eqb_eq in H
         | H : (_ =? _) = false |- _ => apply Z.eqb_neq in H
         end.

Section KeepsPlayback.

Variable tn : JsVal -> number.
Variable Inv : Service -> Prop.
Hypothesis Inv_warmup :
  forall b s, Inv s -> Inv (with_sessionWarmupInProgress b s).
Hypothesis Inv_event :
  forall deviceName status, keeps Inv (_handleStatusUpdate tn deviceName status).

Lemma keeps_deliver events : keeps Inv (deliver tn events).
Proof.
  induction events as [|[n st] evs IH]; simpl; [apply keeps_ret|].
  apply keeps_bind; [apply Inv_event|]. intros _. exact IH.
Qed.

Lemma keeps_pollDevice t : keeps Inv (pollDevice tn t).
Proof.
  pose proof (keeps_deliver (pollEvents t)).
  unfold pollDevice. keeps_tac.
Qed.

Lemma keeps_verifyLoop ticks timeout fuel :
  forall k elapsed, keeps Inv (verifyLoop tn fuel ticks k timeout elapsed).
Proof.
  induction fuel as [|fuel IH]; intros k elapsed; simpl; [apply keeps_ret|].
  pose proof (keeps_pollDevice (ticks k)).
  pose proof (keeps_deliver (waitEvents (ticks (S k)))).
  keeps_tac.
Qed.

Lemma keeps_verifyPlayback ticks : keeps Inv (_verifyPlayback tn ticks).
Proof.
  unfold _verifyPlayback.
  pose proof (keeps_deliver (waitEvents (ticks O))).
  pose proof (keeps_verifyLoop ticks).
  keeps_tac.
Qed.

Lemma keeps_ensureSessionActive env : keeps Inv (_ensureSessionActive tn env).
Proof.
  unfold _ensureSessionActive.
  pose proof (keeps_deliver (probeEvents env)).
  pose proof (keeps_deliver (warmupEvents env)).
  keeps_tac; apply keeps_modify, Inv_warmup.
Qed.

Lemma keeps_stopCurrentPlayback env : keeps Inv (_stopCurrentPlayback tn env).
Proof.
  unfold _stopCurrentPlayback.
  pose proof (keeps_deliver (stopEvents env)).
  keeps_tac.
Qed.

Lemma keeps_playMediaDirectly env contentUrl mediaType mediaTitle :
  keeps Inv (_playMediaDirectly tn env contentUrl mediaType mediaTitle).
Proof.
  unfold _playMediaDirectly.
  pose proof (keeps_deliver (loadEvents env)).
  pose proof (keeps_verifyPlayback (ticks env)).
  keeps_tac.
Qed.

Lemma keeps_playMedia env track forceStop :
  keeps Inv (playMedia tn env track forceStop).
Proof.
  unfold playMedia.
  pose proof (keeps_ensureSessionActive env).
  pose proof (keeps_stopCurrentPlayback env).
  pose proof (keeps_playMediaDirectly env (url track) (contentType track)
                (title track)).
  keeps_tac.
Qed.

End KeepsPlayback.

Section PlaybackFacts.

Variable tn : JsVal -> number.
Variable numberToString : Q -> string.

Lemma storeKept_warmup s0 b s :
  storeKept s0 s -> storeKept s0 (with_sessionWarmupInProgress b s).
Proof. intros H. exact H. Qed.

Lemma storeKept_status s0 v s :
  storeKept s0 s -> storeKept s0 (with_currentStatus v s).
Proof. intros H. exact H. Qed.

Lemma storeKept_index s0 i s :
  storeKept s0 s -> -1 <= i < qlen (queue s0) ->
  storeKept s0 (with_currentTrackIndex i s).
Proof.
  intros (Hst & Hi) Hr. split; [exact Hst|].
  unfold indexInRange. simpl. destruct Hst as (-> & _). exact Hr.
Qed.

Lemma handleStatusUpdate_storeKept s0 deviceName status :
  keeps (storeKept s0) (_handleStatusUpdate tn deviceName status).
Proof.
  intros s (Hst & Hidx). unfold storeKept, sameStore, indexInRange in *.
  unfold _handleStatusUpdate, _handleTrackTransition, _preloadNextTrack,
    executeAdvancement_start, advanceSelect.
  munfold. unfold after.
  repeat (case_step; simpl in * ); bool_facts; (split; [tauto|lia]).
Qed.

Lemma handleTrackFinished_storeKept s0 :
  keeps (storeKept s0) handleTrackFinished_start.
Proof.
  intros s (Hst & Hidx). unfold storeKept, sameStore, indexInRange in *.
  unfold handleTrackFinished_start, finishedSelect.
  munfold. unfold after.
  repeat (case_step; simpl in * ); bool_facts; (split; [tauto|lia]).
Qed.

Lemma playMedia_storeKept s0 env track forceStop :
  keeps (storeKept s0) (playMedia tn env track forceStop).
Proof.
  apply keeps_playMedia.
  - apply storeKept_warmup.
  - apply handleStatusUpdate_storeKept.
Qed.

Lemma requestStatusUpdate_storeKept s0 : keeps (storeKept s0) _requestStatusUpdate.
Proof. unfold _requestStatusUpdate. keeps_tac. Qed.

Lemma keeps_read_then Inv {B} (k : Service -> M B) :
  (forall s, Inv s -> keeps Inv (k s)) -> keeps Inv (bind read k).
Proof. intros Hk. apply keeps_read_bind. intros s Hs. now apply Hk. Qed.

(** The writes of the commands: the cached status, and an index that
    the command has checked against the queue. *)
Ltac store_writes Hs :=
  apply keeps_modify; intros ? ?;
  first [ assumption
        | apply storeKept_index; [assumption|];
          bool_facts; destruct Hs as ((Hq & _) & Hi);
          unfold indexInRange in Hi; rewrite <- ?Hq; unfold qlen in *; lia ].

Lemma skipToNext_storeKept s0 env playerAnswer :
  keeps (storeKept s0) (skipToNext tn env playerAnswer).
Proof.
  unfold skipToNext. apply keeps_read_then. intros s Hs.
  pose proof (playMedia_storeKept s0 env).
  keeps_tac. store_writes Hs.
Qed.

Lemma skipToPrevious_storeKept s0 env :
  keeps (storeKept s0) (skipToPrevious tn env).
Proof.
  unfold skipToPrevious. apply keeps_read_then. intros s Hs.
  pose proof (playMedia_storeKept s0 env).
  keeps_tac. store_writes Hs.
Qed.

Lemma skipToTrack_storeKept s0 env trackNumber :
  keeps (storeKept s0) (skipToTrack tn env trackNumber).
Proof.
  unfold skipToTrack. apply keeps_read_then. intros s Hs.
  pose proof (playMedia_storeKept s0 env).
  keeps_tac. store_writes Hs.
Qed.

Lemma playQueue_storeKept s0 env jump startIndex :
  keeps (storeKept s0) (playQueue tn env jump startIndex).
Proof.
  unfold playQueue, _playLegacyQueueTrack. apply keeps_read_then. intros s Hs.
  pose proof (playMedia_storeKept s0 env).
  pose proof (keeps_ensureSessionActive tn (storeKept s0) (storeKept_warmup s0)
                (handleStatusUpdate_storeKept s0) env).
  keeps_tac; store_writes Hs.
Qed.

Lemma stop_storeKept s0 playerAnswer : keeps (storeKept s0) (stop playerAnswer).
Proof.
  unfold stop. apply keeps_read_then. intros s Hs.
  keeps_tac; store_writes Hs.
Qed.

Lemma pause_storeKept s0 playerAnswer : keeps (storeKept s0) (pause playerAnswer).
Proof.
  unfold pause. apply keeps_read_then. intros s Hs.
  pose proof (requestStatusUpdate_storeKept s0).
  keeps_tac; store_writes Hs.
Qed.

Lemma resume_storeKept s0 playerAnswer :
  keeps (storeKept s0) (resume playerAnswer).
Proof.
  unfold resume. apply keeps_read_then. intros s Hs.
  pose proof (requestStatusUpdate_storeKept s0).
  keeps_tac; store_writes Hs.
Qed.

Lemma seek_storeKept s0 playerAnswer : keeps (storeKept s0) (seek playerAnswer).
Proof. unfold seek. apply keeps_read_then. intros s Hs. keeps_tac. Qed.

Lemma setVolume_storeKept s0 level answer :
  keeps (storeKept s0) (setVolume numberToString level answer).
Proof.
  unfold setVolume. apply keeps_read_then. intros s Hs.
  pose proof (requestStatusUpdate_storeKept s0).
  keeps_tac; store_writes Hs.
Qed.


End PlaybackFacts.


(** ** What [getStatus] and [getQueueInfo] report *)

Lemma sanitizeStatus_object props :
  _sanitizeStatus (JObj props) =
  sanitizeMedia (JObj props)
    (sanitizeVolume (JObj props)
       (let safeStatus := _getDefaultStatus in
        let safeStatus :=
          if negb (is_nullish (get (JObj props) "mediaSessionId"))
          then set safeStatus "mediaSessionId" (get (JObj props) "mediaSessionId")
          else safeStatus in
        let safeStatus :=
          if (typeof (get (JObj props) "playbackRate") =? "number")%string
          then set safeStatus "playbackRate" (get (JObj props) "playbackRate")
          else safeStatus in
        let safeStatus :=
          if (typeof (get (JObj props) "playerState") =? "string")%string
          then set safeStatus "playerState" (get (JObj props) "playerState")
          else safeStatus in
        if (typeof (get (JObj props) "currentTime") =? "number")%string
        then set safeStatus "currentTime" (get (JObj props) "currentTime")
        else safeStatus)).
Proof. reflexivity. Qed.

(** A volume that is a bare number, as [setVolume] caches it, is
    reported as that level, not muted. *)
Lemma sanitizeStatus_volume_number props q :
  get (JObj props) "volume" = JNum (Fin q) ->
  get (_sanitizeStatus (JObj props)) "volume" =
  JObj [("level"%string, JNum (Fin q)); ("muted"%string, JBool false)].
Proof.
  intros Hv. rewrite sanitizeStatus_object.
  rewrite get_sanitizeMedia_other by discriminate.
  unfold sanitizeVolume. rewrite Hv.
  replace (truthy (JNum (Fin q)) && (typeof (JNum (Fin q)) =? "object")%string)
    with false by (simpl; now rewrite andb_false_r).
  cbn [typeof]. cbn [String.eqb Ascii.eqb Bool.eqb].
  repeat match goal with
         | |- context [if ?c then _ else _] => destruct c
         end; reflexivity.
Qed.

Lemma requestStatusUpdate_eq s :
  _requestStatusUpdate s =
  (Ok tt, s, match currentDevice s with
             | Some _ => [DeviceGetStatus]
             | None => []
             end).
Proof.
  unfold _requestStatusUpdate, bind, read, emit, ret.
  destruct (currentDevice s); reflexivity.
Qed.

Section ReportFacts.

Variable numberToString : Q -> string.

Lemma isVolume_number level :
  isVolume numberToString level = Valid <->
  exists q, level = JNum (Fin q) /\ (0 <= q <= 1)%Q.
Proof.
  unfold isVolume, isInRange, isNumber, andThen, asNumber, n_gt, Qltb.
  split.
  - destruct level as [| |b|[|q]|str| |ps]; try discriminate.
    destruct (Qle_bool 0 q) eqn:E1, (Qle_bool q 1) eqn:E2; simpl;
      try discriminate.
    intros _. exists q. split; [reflexivity|].
    split; apply Qle_bool_iff; assumption.
  - intros (q & -> & H0 & H1).
    apply Qle_bool_iff in H0, H1. rewrite H0, H1. reflexivity.
Qed.

(** X8.  A volume that passes the check and that the device takes
    is reported by [getStatus] at once, before the device confirms
    it: the level is the one set, and the mute flag reads [false]
    whatever the cached status said, because the bare number cached
    in place of the volume object carries none; one status request is
    sent to the device.  A level that fails the check is refused with
    a [ChromecastError] naming the reason, before any call. *)
Theorem setVolume_is_reported (s : Service) (d : Device) (level : JsVal) :
  currentDevice s = Some d ->
  statusIsObject s ->
  let out := setVolume numberToString level VolumeOk s in
  match isVolume numberToString level with
  | Valid =>
      result out = Ok true
      /\ effects out = [DeviceGetStatus]
      /\ reportVolume (getStatus (after out)) = level
      /\ reportMuted (getStatus (after out)) = JBool false
      /\ reportPlayerState (getStatus (after out)) =
         reportPlayerState (getStatus s)
  | Invalid reason =>
      out = (Throw (mkError ChromecastError
                      ("Volume control failed: " ++ reason)%string), s, [])
  end.
Proof.
  intros Hd [props Hcs] out. subst out.
  unfold setVolume, bind, read. rewrite Hd.
  destruct (isVolume numberToString level) eqn:Ev; [|reflexivity].
  apply isVolume_number in Ev as (q & -> & _).
  rewrite Hcs. cbn [truthy when modify].
  rewrite requestStatusUpdate_eq. cbn [with_currentStatus currentDevice].
  rewrite Hd. unfold result, after, effects, ret. cbn [fst snd app].
  split; [reflexivity|]. split; [reflexivity|].
  unfold getStatus.
  cbn [reportVolume reportMuted reportPlayerState currentStatus with_currentStatus].
  rewrite Hcs. cbn [set truthy].
  rewrite (sanitizeStatus_volume_number (assign "volume" (JNum (Fin q)) props) q)
    by apply assoc_assign_eq.
  split; [reflexivity|]. split; [reflexivity|].
  rewrite !sanitizeStatus_playerState.
  change (JObj (assign "volume" (JNum (Fin q)) props))
    with (set (JObj props) "volume" (JNum (Fin q))).
  rewrite get_set_ne by discriminate. reflexivity.
Qed.

Lemma pause_ok_eq s d props :
  currentDevice s = Some d -> player d = true -> currentStatus s = JObj props ->
  pause (Ok tt) s =
  (Ok success,
   with_currentStatus (set (JObj props) "playerState" (JStr "PAUSED")) s,
   [DeviceGetStatus]).
Proof.
  intros Hd Hp Hcs. unfold pause, bind, read, try_catch.
  rewrite Hd, Hp, Hcs. cbn [negb when ret truthy modify].
  rewrite requestStatusUpdate_eq. cbn [with_currentStatus currentDevice currentStatus].
  rewrite Hd, Hcs. reflexivity.
Qed.

Lemma resume_ok_eq s d props :
  currentDevice s = Some d -> player d = true -> currentStatus s = JObj props ->
  resume (Ok tt) s =
  (Ok success,
   with_currentStatus (set (JObj props) "playerState" (JStr "PLAYING")) s,
   [DeviceGetStatus]).
Proof.
  intros Hd Hp Hcs. unfold resume, bind, read, try_catch.
  rewrite Hd, Hp, Hcs. cbn [negb when ret truthy modify].
  rewrite requestStatusUpdate_eq. cbn [with_currentStatus currentDevice currentStatus].
  rewrite Hd, Hcs. reflexivity.
Qed.

Lemma stop_ok_eq s d props :
  currentDevice s = Some d -> player d = true -> currentStatus s = JObj props ->
  stop (Ok tt) s =
  (Ok success,
   with_currentTrackIndex (-1)
     (with_currentStatus
        (set (set (set (JObj props) "playerState" (JStr "IDLE"))
                "currentTime" (JNum (num_of_Z 0))) "media" JNull) s),
   [PlayerStop; DeviceGetStatus]).
Proof.
  intros Hd Hp Hcs. unfold stop, bind, read, try_catch.
  rewrite Hd, Hp, Hcs. simpl. rewrite Hcs. reflexivity.
Qed.

Lemma transport_throw_eq s d e :
  currentDevice s = Some d ->
  after (pause (Throw e) s) = s
  /\ after (resume (Throw e) s) = s
  /\ after (stop (Throw e) s) = s.
Proof.
  intros Hd. unfold pause, resume, stop, bind, read, try_catch.
  rewrite Hd. destruct (player d); repeat split.
Qed.

(** X9.  With a player on the device and an object as cached status,
    [pause], [resume] and [stop] show in [getStatus] at once: PAUSED
    and not playing; PLAYING and playing; IDLE, not playing, no media,
    time 0 and no current track.  When the player call throws, the
    service is left exactly as it was. *)
Theorem transport_is_reported (s : Service) (d : Device) :
  currentDevice s = Some d ->
  player d = true ->
  statusIsObject s ->
  let paused := getStatus (after (pause (Ok tt) s)) in
  let resumed := getStatus (after (resume (Ok tt) s)) in
  let stopped := getStatus (after (stop (Ok tt) s)) in
  (reportPlayerState paused = JStr "PAUSED" /\ reportPlaying paused = false)
  /\ (reportPlayerState resumed = JStr "PLAYING"
      /\ reportPlaying resumed = true)
  /\ (reportPlayerState stopped = JStr "IDLE"
      /\ reportPlaying stopped = false
      /\ reportMedia stopped = JNull
      /\ reportCurrentTime stopped = JNum (num_of_Z 0)
      /\ reportCurrentIndex stopped = -1
      /\ reportCurrentTrack stopped = None)
  /\ (forall e, after (pause (Throw e) s) = s
                /\ after (resume (Throw e) s) = s
                /\ after (stop (Throw e) s) = s).
Proof.
  intros Hd Hp [props Hcs] paused resumed stopped.
  subst paused resumed stopped.
  rewrite (pause_ok_eq s d props), (resume_ok_eq s d props),
    (stop_ok_eq s d props) by assumption.
  unfold after. cbn [fst snd].
  unfold getStatus.
  cbn [reportPlayerState reportPlaying reportMedia reportCurrentTime
       reportCurrentIndex reportCurrentTrack currentStatus currentTrackIndex
       queue with_currentStatus with_currentTrackIndex].
  cbn [set truthy].
  rewrite !sanitizeStatus_playerState, sanitizeStatus_currentTime.
  rewrite sanitizeStatus_media
    by (cbn [get]; now rewrite assoc_assign_eq).
  unfold is_string, is_number. cbn [get].
  rewrite (assoc_assign_ne "media" "currentTime") by discriminate.
  rewrite (assoc_assign_ne "media" "playerState") by discriminate.
  rewrite (assoc_assign_ne "currentTime" "playerState") by discriminate.
  rewrite !assoc_assign_eq.
  split; [split; reflexivity|]. split; [split; reflexivity|].
  split; [repeat split|].
  intros e. now apply (transport_throw_eq s d e).
Qed.

(** X10.  After [disconnect] from a connected device [getStatus]
    reports no connection and no device name, yet the player state it
    reports is IDLE, not DISCONNECTED: the cached status is reset to
    the default object, and a cached object always takes precedence.
    The queue size, the index and the current track are reported as
    before. *)
Theorem getStatus_after_disconnect (s : Service) (d : Device) :
  currentDevice s = Some d ->
  let before := getStatus s in
  let report := getStatus (after (disconnect s)) in
  reportConnected report = false
  /\ reportDeviceName report = None
  /\ reportPlayerState report = JStr "IDLE"
  /\ reportPlaying report = false
  /\ reportVolume report = JNull
  /\ reportMedia report = JNull
  /\ reportQueueSize report = reportQueueSize before
  /\ reportCurrentIndex report = reportCurrentIndex before
  /\ reportCurrentTrack report = reportCurrentTrack before
  /\ reportShuffle report = reportShuffle before
  /\ reportRepeat report = reportRepeat before.
Proof.
  intros Hd before report. subst before report.
  rewrite disconnect_eq, Hd. unfold after. cbn [fst snd].
  unfold getStatus, has_device. simpl. repeat split.
Qed.

End ReportFacts.

Lemma setVolume_is_reported_witness :
  let s := playing [trackA; trackB] 0 in
  let out := setVolume showBound half VolumeOk s in
  result out = Ok true
  /\ effects out = [DeviceGetStatus]
  /\ reportVolume (getStatus (after out)) = half
  /\ reportMuted (getStatus (after out)) = JBool false
  /\ reportPlayerState (getStatus (after out)) =
     reportPlayerState (getStatus s).
Proof.
  apply (setVolume_is_reported showBound (playing [trackA; trackB] 0)
           speaker half).
  - reflexivity.
  - eexists. reflexivity.
Defined.

Lemma transport_is_reported_witness :
  let s := playing [trackA; trackB] 0 in
  let paused := getStatus (after (pause (Ok tt) s)) in
  let resumed := getStatus (after (resume (Ok tt) s)) in
  let stopped := getStatus (after (stop (Ok tt) s)) in
  (reportPlayerState paused = JStr "PAUSED" /\ reportPlaying paused = false)
  /\ (reportPlayerState resumed = JStr "PLAYING"
      /\ reportPlaying resumed = true)
  /\ (reportPlayerState stopped = JStr "IDLE"
      /\ reportPlaying stopped = false
      /\ reportMedia stopped = JNull
      /\ reportCurrentTime stopped = JNum (num_of_Z 0)
      /\ reportCurrentIndex stopped = -1
      /\ reportCurrentTrack stopped = None)
  /\ (forall e, after (pause (Throw e) s) = s
                /\ after (resume (Throw e) s) = s
                /\ after (stop (Throw e) s) = s).
Proof.
  apply (transport_is_reported (playing [trackA; trackB] 0) speaker).
  - reflexivity.
  - reflexivity.
  - eexists. reflexivity.
Defined.

Lemma getStatus_after_disconnect_witness :
  let s := playing [trackA; trackB] 1 in
  let before := getStatus s in
  let report := getStatus (after (disconnect s)) in
  reportConnected report = false
  /\ reportDeviceName report = None
  /\ reportPlayerState report = JStr "IDLE"
  /\ reportPlaying report = false
  /\ reportVolume report = JNull
  /\ reportMedia report = JNull
  /\ reportQueueSize report = reportQueueSize before
  /\ reportCurrentIndex report = reportCurrentIndex before
  /\ reportCurrentTrack report = reportCurrentTrack before
  /\ reportShuffle report = reportShuffle before
  /\ reportRepeat report = reportRepeat before.
Proof.
  apply (getStatus_after_disconnect (playing [trackA; trackB] 1) speaker).
  reflexivity.
Defined.

Lemma filter_current_imap (idx : Z) (l : list Track) : forall off : nat,
  List.filter lineCurrent
    (imap (fun i t => lineOf idx (off + i) t) l) =
  match (if idx <? Z.of_nat off then None else l !! (Z.to_nat idx - off)%nat) with
  | Some t => [lineOf idx (Z.to_nat idx) t]
  | None => []
  end.
Proof.
  induction l as [|x l IH]; intros off.
  - simpl. destruct (idx <? Z.of_nat off); reflexivity.
  - rewrite imap_cons. cbn [List.filter].
    rewrite (imap_ext _ (fun i t => lineOf idx (S off + i) t))
      by (intros i t _; simpl; f_equal; lia).
    rewrite IH. unfold lineOf at 1. cbn [lineCurrent]. rewrite Nat.add_0_r.
    destruct (Z.of_nat off =? idx) eqn:E.
    + apply Z.eqb_eq in E. subst idx.
      destruct (Z.of_nat off <? Z.of_nat (S off)) eqn:E1;
        [|apply Z.ltb_ge in E1; lia].
      rewrite Z.ltb_irrefl, Nat2Z.id, Nat.sub_diag. simpl.
      unfold lineOf. now rewrite Z.eqb_refl.
    + apply Z.eqb_neq in E.
      destruct (idx <? Z.of_nat (S off)) eqn:E1.
      * apply Z.ltb_lt in E1.
        destruct (idx <? Z.of_nat off) eqn:E2; [reflexivity|].
        apply Z.ltb_ge in E2. lia.
      * apply Z.ltb_ge in E1.
        destruct (idx <? Z.of_nat off) eqn:E2; [apply Z.ltb_lt in E2; lia|].
        replace (Z.to_nat idx - off)%nat with (S (Z.to_nat idx - S off)) by lia.
        reflexivity.
Qed.

(** X11.  With the index in range, the queue listing of
    [getQueueInfo] has one line per entry and marks as current exactly
    the line of the current track, at position index + 1 and with that
    track's title and artist; with the index at -1 no line is
    marked. *)
Theorem getQueueInfo_marks_current_track (s : Service) :
  indexInRange s ->
  length (infoQueue (getQueueInfo s)) = length (queue s)
  /\ match infoCurrentTrack (getQueueInfo s) with
     | Some t =>
         0 <= currentTrackIndex s
         /\ currentLines (getQueueInfo s) =
            [ {| linePosition := currentTrackIndex s + 1;
                 lineTitle := title t;
                 lineArtist := artist t;
                 lineCurrent := true |} ]
     | None =>
         currentTrackIndex s = -1 /\ currentLines (getQueueInfo s) = []
     end.
Proof.
  intros Hr. unfold indexInRange in Hr.
  unfold currentLines, getQueueInfo.
  cbn [infoQueue infoCurrentTrack].
  split; [apply length_imap|].
  pose proof (filter_current_imap (currentTrackIndex s) (queue s) O) as H.
  unfold lineOf in H. cbn [Nat.add] in H. rewrite H. clear H.
  unfold nth_track. rewrite Nat.sub_0_r. change (Z.of_nat 0) with 0.
  destruct (currentTrackIndex s >=? 0) eqn:E; rewrite Z.geb_leb in E.
  - apply Z.leb_le in E.
    destruct (currentTrackIndex s <? 0) eqn:E1; [apply Z.ltb_lt in E1; lia|].
    destruct (queue s !! Z.to_nat (currentTrackIndex s)) as [t|] eqn:Et.
    + split; [exact E|]. f_equal. f_equal; [lia|].
      apply Z.eqb_eq. lia.
    + apply lookup_ge_None in Et. unfold qlen in Hr. lia.
  - apply Z.leb_gt in E.
    destruct (currentTrackIndex s <? 0) eqn:E1; [|apply Z.ltb_ge in E1; lia].
    split; [lia|reflexivity].
Qed.

Lemma getQueueInfo_marks_current_track_witness :
  let s := playing [trackA; trackB; trackC] 1 in
  length (infoQueue (getQueueInfo s)) = length (queue s)
  /\ match infoCurrentTrack (getQueueInfo s) with
     | Some t =>
         0 <= currentTrackIndex s
         /\ currentLines (getQueueInfo s) =
            [ {| linePosition := currentTrackIndex s + 1;
                 lineTitle := title t;
                 lineArtist := artist t;
                 lineCurrent := true |} ]
     | None =>
         currentTrackIndex s = -1 /\ currentLines (getQueueInfo s) = []
     end.
Proof.
  apply (getQueueInfo_marks_current_track (playing [trackA; trackB; trackC] 1)).
  unfold indexInRange. vm_compute. split; [discriminate|reflexivity].
Defined.

(** ** Skipping and starting the queue *)

Lemma bind_read_eq {B} (k : Service -> M B) s : bind read k s = k s s.
Proof. unfold bind, read. destruct (k s s) as [[r s2] tr2]. reflexivity. Qed.

Section SkipFacts.

Variable tn : JsVal -> number.

Lemma skip_target_loads env s d i t (h : Error -> M Outcome) :
  currentDevice s = Some d ->
  loads t
    (effects
       (try_catch
          (modify (with_currentTrackIndex i);;
           playMedia tn env t true;; ret success) h s)).
Proof.
  intros Hd. apply in_effects_try_catch.
  eapply in_effects_bind_r; [reflexivity|].
  apply in_effects_bind_l.
  apply (playMedia_loads tn env t true _ d). exact Hd.
Qed.


End SkipFacts.


(** ** Rules for [emitsOnly] *)

Section EmitsOnly.

Variable P : Effect -> bool.

Lemma emitsOnly_ret {A} (a : A) : emitsOnly P (ret a).
Proof. intros s. constructor. Qed.

Lemma emitsOnly_throw {A} e : emitsOnly P (@throw A e).
Proof. intros s. constructor. Qed.

Lemma emitsOnly_throwChromecast {A} msg : emitsOnly P (@throwChromecast A msg).
Proof. intros s. constructor. Qed.

Lemma emitsOnly_read : emitsOnly P read.
Proof. intros s. constructor. Qed.

Lemma emitsOnly_modify f : emitsOnly P (modify f).
Proof. intros s. constructor. Qed.

Lemma emitsOnly_emit e : P e = true -> emitsOnly P (emit e).
Proof. intros He s. repeat constructor. exact He. Qed.

Lemma emitsOnly_bind {A B} (m : M A) (k : A -> M B) :
  emitsOnly P m -> (forall a, emitsOnly P (k a)) -> emitsOnly P (bind m k).
Proof.
  intros Hm Hk s. specialize (Hm s). unfold bind, effects in *.
  destruct (m s) as [[[a|e] s1] tr1]; simpl in *; [|exact Hm].
  specialize (Hk a s1). unfold effects in Hk.
  destruct (k a s1) as [[r s2] tr2]. simpl in *.
  apply Forall_app. split; assumption.
Qed.

Lemma emitsOnly_try_catch {A} (m : M A) h :
  emitsOnly P m -> (forall e, emitsOnly P (h e)) -> emitsOnly P (try_catch m h).
Proof.
  intros Hm Hh s. specialize (Hm s). unfold try_catch, effects in *.
  destruct (m s) as [[[a|e] s1] tr1]; simpl in *; [exact Hm|].
  specialize (Hh e s1). unfold effects in Hh.
  destruct (h e s1) as [[r s2] tr2]. simpl in *.
  apply Forall_app. split; assumption.
Qed.

Lemma emitsOnly_when b m : emitsOnly P m -> emitsOnly P (when b m).
Proof. intros Hm. destruct b; [exact Hm|apply emitsOnly_ret]. Qed.

End EmitsOnly.

Ltac emits_tac :=
  repeat first
    [ solve [auto 2]
    | apply emitsOnly_ret
    | apply emitsOnly_throw
    | apply emitsOnly_throwChromecast
    | apply emitsOnly_read
    | apply emitsOnly_modify
    | apply emitsOnly_emit; reflexivity
    | apply emitsOnly_when
    | apply emitsOnly_try_catch; [|intros ?]
    | apply emitsOnly_bind; [|intros ?]
    | match goal with
      | |- emitsOnly _ (match ?x with _ => _ end) => destruct x eqn:?
      | |- emitsOnly _ (if ?x then _ else _) => destruct x eqn:?
      end ].

Section QuietEvents.

Variable tn : JsVal -> number.

(** A status event reaches the device through the tasks it leaves
    behind, never directly. *)
Lemma handleStatusUpdate_no_device_call deviceName status :
  emitsOnly no_device_call (_handleStatusUpdate tn deviceName status).
Proof.
  unfold _handleStatusUpdate, _handleTrackTransition, _preloadNextTrack,
    executeAdvancement_start, advanceSelect.
  emits_tac.
Qed.

Lemma emitsOnly_weaken (P Q : Effect -> bool) {A} (m : M A) :
  (forall e, P e = true -> Q e = true) -> emitsOnly P m -> emitsOnly Q m.
Proof.
  intros HPQ Hm s. eapply Forall_impl; [apply Hm|]. exact HPQ.
Qed.

Lemma handleStatusUpdate_no_track_load deviceName status :
  emitsOnly no_track_load (_handleStatusUpdate tn deviceName status).
Proof.
  apply (emitsOnly_weaken no_device_call);
    [|apply handleStatusUpdate_no_device_call].
  intros [] H; try reflexivity; discriminate H.
Qed.

Lemma deliver_no_track_load events :
  emitsOnly no_track_load (deliver tn events).
Proof.
  induction events as [|[n st] evs IH]; simpl; [apply emitsOnly_ret|].
  apply emitsOnly_bind; [apply handleStatusUpdate_no_track_load|].
  intros _. exact IH.
Qed.

Lemma ensureSessionActive_no_track_load env :
  emitsOnly no_track_load (_ensureSessionActive tn env).
Proof.
  unfold _ensureSessionActive.
  pose proof (deliver_no_track_load (probeEvents env)).
  pose proof (deliver_no_track_load (warmupEvents env)).
  emits_tac.
Qed.

Lemma ensureSessionActive_returns env s d :
  currentDevice s = Some d ->
  exists b, result (_ensureSessionActive tn env s) = Ok b.
Proof.
  intros Hd.
  destruct (returns_ensureSessionActive tn
              (framed d (verificationTimeout s) (queue s))
              (framed_warmup _ _ _) (framed_device _ _ _) env
              (framed_kept _ _ _ _ _) (framed_kept _ _ _ _ _) s)
    as (b & Hb & _); [repeat split; assumption|].
  eauto.
Qed.

(** X13.  [playQueue] with a device and a queue: a start index
    outside the queue is refused and nothing changes.  Start index 0
    always succeeds and sets the index to 0 without asking the device
    to load any track of the queue: the only load it can send is the
    warm-up clip of the session check.  A start index above 0 is
    handed to the device's queue: when the device takes the jump the
    index is set and nothing is loaded; when it reports an error the
    entry at the start index is loaded by the legacy path; and an
    error thrown by the jump call itself leaves [playQueue] as it is,
    not wrapped in a [ChromecastError]. *)
Theorem playQueue_rule
    (env : PlayEnv) (jump : JumpAnswer) (startIndex : Z)
    (s : Service) (d : Device) :
  currentDevice s = Some d ->
  queue s <> [] ->
  let out := playQueue tn env jump startIndex s in
  if (startIndex <? 0) || (startIndex >=? qlen (queue s)) then
    out = (Throw (mkError ChromecastError "Invalid start index"), s, [])
  else if startIndex =? 0 then
    result out = Ok success
    /\ currentTrackIndex (after out) = 0
    /\ Forall (fun e => no_track_load e = true) (effects out)
  else
    match jump with
    | JumpOk => out = (Ok success, with_currentTrackIndex startIndex s, [])
    | JumpError =>
        exists t, nth_track (queue s) startIndex = Some t
                  /\ loads t (effects out)
    | JumpThrows e => out = (Throw e, s, [])
    end.
Proof.
  intros Hd Hne out. subst out.
  assert (Hz : (qlen (queue s) =? 0) = false).
  { apply Z.eqb_neq. unfold qlen. destruct (queue s); [contradiction|simpl; lia]. }
  unfold playQueue. rewrite bind_read_eq. unfold has_device.
  rewrite Hd, Hz. cbn [negb orb].
  destruct ((startIndex <? 0) || (startIndex >=? qlen (queue s))) eqn:E;
    [reflexivity|].
  apply orb_false_elim in E as [E1 E2].
  apply Z.ltb_ge in E1. rewrite Z.geb_leb in E2. apply Z.leb_gt in E2.
  destruct (startIndex =? 0) eqn:E0.
  - apply Z.eqb_eq in E0. subst startIndex. cbn [Z.gtb Z.compare].
    destruct (ensureSessionActive_returns env s d Hd) as [b Hb].
    split; [|split].
    + unfold try_catch.
      rewrite (bind_ok _ _ s b (after (_ensureSessionActive tn env s))
                 (effects (_ensureSessionActive tn env s)))
        by (rewrite <- Hb; apply out_eta).
      reflexivity.
    + unfold try_catch.
      rewrite (bind_ok _ _ s b (after (_ensureSessionActive tn env s))
                 (effects (_ensureSessionActive tn env s)))
        by (rewrite <- Hb; apply out_eta).
      reflexivity.
    + pose proof (ensureSessionActive_no_track_load env).
      assert (Hall : emitsOnly no_track_load
                (try_catch
                   (_ensureSessionActive tn env;;
                    modify (with_currentTrackIndex 0);; ret success)
                   (fun _ => throwChromecast "Failed to start queue playback")))
        by emits_tac.
      apply Hall.
  - apply Z.eqb_neq in E0.
    destruct (startIndex >? 0) eqn:E3;
      [|rewrite Z.gtb_ltb in E3; apply Z.ltb_ge in E3; lia].
    destruct jump; [reflexivity| |reflexivity].
    destruct (nth_track_valid (queue s) startIndex) as [t Ht]; [lia|].
    exists t. split; [exact Ht|].
    unfold _playLegacyQueueTrack. apply in_effects_try_catch.
    rewrite bind_read_eq, Ht.
    eapply in_effects_bind_r; [reflexivity|].
    apply in_effects_bind_l.
    apply (playMedia_loads tn env t true _ d). exact Hd.
Qed.

End QuietEvents.

Lemma playQueue_rule_witness :
  let out := playQueue numbersOnly neverPlays JumpOk 0
               (playing [trackA; trackB] (-1)) in
  result out = Ok success
  /\ currentTrackIndex (after out) = 0
  /\ Forall (fun e => no_track_load e = true) (effects out).
Proof.
  apply (playQueue_rule numbersOnly neverPlays JumpOk 0
           (playing [trackA; trackB] (-1)) speaker).
  - reflexivity.
  - discriminate.
Defined.

(** ** The background advance *)

Lemma keeps_bind_post Inv {A B} (m : M A) (k : A -> M B) (Q : A -> Prop) :
  (forall s, Inv s ->
     Inv (after (m s)) /\ forall a, result (m s) = Ok a -> Q a) ->
  (forall a, Q a -> keeps Inv (k a)) ->
  keeps Inv (bind m k).
Proof.
  intros Hm Hk s Hs. destruct (Hm s Hs) as [H1 H2].
  unfold bind, after, result in *.
  destruct (m s) as [[[a|e] s1] tr1]; simpl in *; [|exact H1].
  specialize (Hk a (H2 a eq_refl) s1 H1). unfold after in Hk.
  destruct (k a s1) as [[r s2] tr2]. exact Hk.
Qed.

Section AdvanceFacts.

Variable tn : JsVal -> number.

Lemma handleStatusUpdate_queueKept s0 deviceName status :
  keeps (queueKept s0) (_handleStatusUpdate tn deviceName status).
Proof.
  intros s Hs. unfold queueKept, indexInRange in *.
  unfold _handleStatusUpdate, _handleTrackTransition, _preloadNextTrack,
    executeAdvancement_start, advanceSelect.
  munfold. unfold after.
  repeat (case_step; simpl in * ); bool_facts;
    repeat match goal with |- _ /\ _ => split end; try tauto; lia.
Qed.

Lemma queueKept_warmup s0 b s :
  queueKept s0 s -> queueKept s0 (with_sessionWarmupInProgress b s).
Proof. intros H. exact H. Qed.

Lemma disconnect_queueKept s0 : keeps (queueKept s0) disconnect.
Proof.
  intros s Hs. rewrite disconnect_eq. unfold after; simpl.
  destruct (currentDevice s); exact Hs.
Qed.

Lemma connectToDevice_queueKept s0 c : keeps (queueKept s0) (connectToDevice tn c).
Proof.
  unfold connectToDevice.
  pose proof (disconnect_queueKept s0).
  pose proof (handleStatusUpdate_queueKept s0).
  destruct c; keeps_tac; apply keeps_modify; intros ? Hs; exact Hs.
Qed.

Lemma attemptDeviceRecovery_queueKept s0 env :
  keeps (queueKept s0) (_attemptDeviceRecovery tn env).
Proof.
  unfold _attemptDeviceRecovery.
  pose proof (connectToDevice_queueKept s0).
  keeps_tac.
Qed.

Lemma queueKept_restore s0 :
  keeps (queueKept s0) (modify (with_queue (queue s0))).
Proof.
  apply keeps_modify. intros s (Hq & Ho & Hs & Hr & Hi).
  unfold queueKept, indexInRange in *. simpl. rewrite <- Hq. tauto.
Qed.

Lemma queueKept_index s0 i :
  -1 <= i < qlen (queue s0) ->
  keeps (queueKept s0) (modify (with_currentTrackIndex i)).
Proof.
  intros Hi. apply keeps_modify. intros s (Hq & Ho & Hs & Hr & _).
  unfold queueKept, indexInRange in *. simpl. rewrite Hq. tauto.
Qed.

Lemma playAttempt_queueKept s0 env track trackIndex attempt :
  -1 <= trackIndex < qlen (queue s0) ->
  keeps (queueKept s0)
    (playAttempt tn env track (queue s0) trackIndex attempt).
Proof.
  intros Hi. unfold playAttempt.
  pose proof (attemptDeviceRecovery_queueKept s0 env).
  pose proof (connectToDevice_queueKept s0).
  pose proof (queueKept_restore s0).
  pose proof (queueKept_index s0 trackIndex Hi).
  pose proof (keeps_playMedia tn (queueKept s0) (queueKept_warmup s0)
                (handleStatusUpdate_queueKept s0) (play env)).
  keeps_tac.
Qed.

Lemma recoveryLoop_queueKept s0 envs track trackIndex n :
  -1 <= trackIndex < qlen (queue s0) ->
  forall attempt,
    keeps (queueKept s0)
      (recoveryLoop tn n attempt envs track (queue s0) trackIndex).
Proof.
  intros Hi. induction n as [|n IH]; intros attempt; simpl; [apply keeps_ret|].
  pose proof (playAttempt_queueKept s0 (envs attempt) track trackIndex attempt Hi).
  keeps_tac.
Qed.

Lemma advanceSelect_queueKept s0 s :
  queueKept s0 s ->
  queueKept s0 (after (advanceSelect s))
  /\ forall sel, result (advanceSelect s) = Ok sel ->
       match sel with
       | Some (i, _) => -1 <= i < qlen (queue s0)
       | None => True
       end.
Proof.
  intros Hs. unfold queueKept, indexInRange in *.
  destruct Hs as (Hq & Ho & Hsh & Hr & Hi). rewrite <- Hq.
  unfold advanceSelect. munfold. unfold after, result.
  repeat (case_step; simpl in * ); bool_facts;
    (split; [repeat match goal with |- _ /\ _ => split end; try tauto; lia|]);
    intros sel [= <-]; try exact Logic.I; lia.
Qed.

Lemma executeAdvancement_queueKept s0 envs :
  keeps (queueKept s0) (_executeAdvancement tn envs).
Proof.
  unfold _executeAdvancement.
  apply keeps_finally; [|apply keeps_modify; intros ? H; exact H].
  apply keeps_try_catch; [|intros e; apply keeps_emit].
  apply keeps_read_then. intros s Hs.
  apply (keeps_bind_post _ _ _
           (fun sel => match sel with
                       | Some (i, _) => -1 <= i < qlen (queue s0)
                       | None => True
                       end)).
  - intros s1 Hs1. now apply advanceSelect_queueKept.
  - intros [[i t]|] Hsel; [|apply keeps_ret].
    destruct Hs as (-> & _).
    now apply recoveryLoop_queueKept.
Qed.


End AdvanceFacts.


Section RecoveryFacts.

Variable tn : JsVal -> number.

Lemma playAttempt_without_device env track backup idx attempt s :
  currentDevice s = None ->
  saved_name env = false ->
  playAttempt tn env track backup idx attempt s =
  (Throw unableToConnect, s, [LogAttempt attempt]).
Proof.
  intros Hd Hsaved.
  unfold playAttempt.
  unfold bind at 1. unfold emit at 1. rewrite bind_read_eq.
  unfold has_device at 1. rewrite Hd. cbn [negb when].
  unfold _attemptDeviceRecovery. rewrite Hsaved.
  unfold bind at 1. unfold bind at 1. unfold try_catch, ret at 1.
  rewrite bind_read_eq. unfold has_device at 1. rewrite Hd. cbn [negb andb when].
  unfold ret at 1. unfold ret at 1.
  rewrite bind_read_eq. unfold has_device. rewrite Hd. cbn [negb].
  reflexivity.
Qed.

(** X15.  With no device connected and no device name in the saved
    connection state, [_playTrackWithRecovery] cannot recover: it
    makes its three attempts, waits 1000 ms and 2000 ms between them,
    never calls a device, changes nothing and ends with the plain
    [Error] [Unable to establish device connection].  The background
    advance swallows that error: it returns normally with the current
    index already moved to the track it selected, although nothing was
    played. *)
Theorem recovery_without_saved_device
    (envs : Z -> AttemptEnv) (track : Track) (queueBackup : list Track)
    (trackIndex : Z) (s : Service) :
  currentDevice s = None ->
  noSavedDevice envs ->
  _playTrackWithRecovery tn envs track queueBackup trackIndex s =
    (Throw unableToConnect, s,
     [LogAttempt 1; RetryWait 1000; LogAttempt 2; RetryWait 2000;
      LogAttempt 3])
  /\ result (_executeAdvancement tn envs s) = Ok tt
  /\ after (_executeAdvancement tn envs s) =
     with_isAutoAdvancing false (after (advanceSelect s))
  /\ Forall (fun e => no_device_call e = true)
       (effects (_executeAdvancement tn envs s)).
Proof.
  intros Hd Hsaved.
  assert (Hrec : forall t q i s',
            currentDevice s' = None ->
            _playTrackWithRecovery tn envs t q i s' =
            (Throw unableToConnect, s',
             [LogAttempt 1; RetryWait 1000; LogAttempt 2; RetryWait 2000;
              LogAttempt 3])).
  { intros t q i s' Hd'. unfold _playTrackWithRecovery.
    change (Z.to_nat maxAttempts) with 3%nat.
    rewrite (recoveryLoop_step tn 2 1), playAttempt_without_device by auto.
    change (1 =? maxAttempts) with false. cbn iota.
    rewrite (recoveryLoop_step tn 1 (1 + 1)), playAttempt_without_device by auto.
    change (1 + 1 =? maxAttempts) with false. cbn iota.
    rewrite (recoveryLoop_step tn 0 (1 + 1 + 1)), playAttempt_without_device
      by auto.
    change (1 + 1 + 1 =? maxAttempts) with true. cbn iota.
    reflexivity. }
  split; [now apply Hrec|].
  pose proof (advanceSelect_device s) as Hdev. rewrite Hd in Hdev.
  unfold _executeAdvancement, finally, try_catch.
  rewrite bind_read_eq. unfold bind at 1 2 3.
  assert (Hsel : Forall (fun e => no_device_call e = true)
                   (effects (advanceSelect s))).
  { assert (H : emitsOnly no_device_call advanceSelect)
      by (unfold advanceSelect; emits_tac).
    apply H. }
  unfold after, effects in *.
  destruct (advanceSelect s) as [[[[[i t]|]|e] s1] tr1]; simpl in *.
  - rewrite (Hrec t (queue s) i s1 Hdev). simpl.
    split; [reflexivity|split; [reflexivity|]].
    rewrite ?app_nil_r. repeat (apply Forall_app; split); try exact Hsel;
      repeat constructor.
  - split; [reflexivity|split; [reflexivity|]].
    rewrite ?app_nil_r. exact Hsel.
  - split; [reflexivity|split; [reflexivity|]].
    rewrite ?app_nil_r. repeat (apply Forall_app; split); try exact Hsel;
      repeat constructor.
Qed.

End RecoveryFacts.

Lemma recovery_without_saved_device_witness :
  let s := with_currentTrackIndex 0
             (with_queue [trackA; trackB] newService) in
  _playTrackWithRecovery numbersOnly (fun _ => nothingSaved) trackB
      [trackA; trackB] 1 s =
    (Throw unableToConnect, s,
     [LogAttempt 1; RetryWait 1000; LogAttempt 2; RetryWait 2000;
      LogAttempt 3])
  /\ result (_executeAdvancement numbersOnly (fun _ => nothingSaved) s) = Ok tt
  /\ after (_executeAdvancement numbersOnly (fun _ => nothingSaved) s) =
     with_isAutoAdvancing false (after (advanceSelect s))
  /\ Forall (fun e => no_device_call e = true)
       (effects (_executeAdvancement numbersOnly (fun _ => nothingSaved) s)).
Proof.
  apply (recovery_without_saved_device numbersOnly (fun _ => nothingSaved)
           trackB [trackA; trackB] 1
           (with_currentTrackIndex 0 (with_queue [trackA; trackB] newService))).
  - reflexivity.
  - intros attempt. reflexivity.
Defined.

(** ** What a status event can start *)

Section EventFacts.

Variable tn : JsVal -> number.

(** X16.  A status event leaves a task behind only if it comes from
    the current device while no session warm-up is in progress and no
    advance is in flight, and the task is one of two.  A fallback
    advance: the cached state before the event was PLAYING, the new
    state is IDLE or BUFFERING, a track is current, the task carries
    the index and the track that the next-track rule selects, and
    the guard flag and the current index are set before the event
    returns.  Or a preload: the event's time is at least the
    threshold [duration * 0.7], a product of doubles, no preload is
    pending, and the task carries the entry after the current one. *)
Theorem status_event_tasks
    (deviceName : string) (status : JsVal) (s : Service) (task : Task) :
  In (Spawn task) (effects (_handleStatusUpdate tn deviceName status s)) ->
  is_current deviceName s = true
  /\ sessionWarmupInProgress s = false
  /\ isAutoAdvancing s = false
  /\ 0 <= currentTrackIndex s
  /\ match task with
     | TAdvance i t =>
         is_str (get (currentStatus s) "playerState") "PLAYING" = true
         /\ (is_str (get status "playerState") "IDLE"
             || is_str (get status "playerState") "BUFFERING") = true
         /\ Some i = specNextIndex (repeatMode s) (currentTrackIndex s)
                       (qlen (queue s) - 1)
         /\ nth_track (queue s) i = Some t
         /\ isAutoAdvancing (after (_handleStatusUpdate tn deviceName status s))
            = true
         /\ currentTrackIndex
              (after (_handleStatusUpdate tn deviceName status s)) = i
     | TPreloadTimer i t =>
         preloadInProgress s = false
         /\ n_ge (ToNumber tn (get status "currentTime"))
              (n_mul (ToNumber tn (get (get status "media") "duration"))
                 (Fin seven_tenths)) = true
         /\ i = currentTrackIndex s + 1
         /\ nth_track (queue s) i = Some t
         /\ preloadInProgress
              (after (_handleStatusUpdate tn deviceName status s)) = true
     | _ => False
     end.
Proof.
  unfold _handleStatusUpdate, _handleTrackTransition, _preloadNextTrack,
    executeAdvancement_start, advanceSelect.
  munfold. unfold effects, after.
  repeat (case_step; simpl in * ); intros Hin;
    repeat (destruct Hin as [Hin|Hin]; try discriminate Hin);
    try contradiction; try (injection Hin as <-).
  all: repeat match goal with
              | H : shouldAdvanceTraditional _ _ _ = true |- _ =>
                  unfold shouldAdvanceTraditional in H
              | H : shouldPreloadNow _ _ _ = true |- _ =>
                  unfold shouldPreloadNow in H
              | H : (if ?c then _ else false) = true |- _ =>
                  destruct c eqn:?; [|discriminate H]
              end; bool_facts.
  all: repeat match goal with |- _ /\ _ => split end;
    try assumption; try reflexivity; try lia.
  all: try congruence.
  all: unfold specNextIndex;
    repeat match goal with
           | |- context [if ?c then _ else _] => destruct c eqn:?
           end; simpl in *; bool_facts;
    try reflexivity; try discriminate; try lia; try congruence.
Qed.

(** *** Pending preloads *)

Lemma preloads_app ts1 ts2 :
  preloads (ts1 ++ ts2) = (preloads ts1 + preloads ts2)%nat.
Proof. induction ts1 as [|t ts1 IH]; simpl; [reflexivity|]. rewrite IH. lia. Qed.

Lemma shouldPreloadNow_idle status s :
  shouldPreloadNow tn status s = true -> preloadInProgress s = false.
Proof.
  unfold shouldPreloadNow. intros H.
  destruct (_ && _ && _ && _) in H; [|discriminate].
  apply andb_true_iff in H as [_ H]. now apply negb_true_iff in H.
Qed.

Ltac preload_cases :=
  repeat (case_step; simpl in * );
  repeat match goal with
         | H : shouldPreloadNow _ _ _ = true |- _ =>
             apply shouldPreloadNow_idle in H; simpl in H
         end;
  unfold preload_count; simpl;
  repeat match goal with
         | H : preloadInProgress _ = _ |- _ => rewrite H in *
         end;
  try reflexivity; try discriminate.

Lemma handleStatusUpdate_preloads deviceName status s :
  (preloads (spawned (effects (_handleStatusUpdate tn deviceName status s)))
   + preload_count s)%nat
  = preload_count (after (_handleStatusUpdate tn deviceName status s)).
Proof.
  unfold _handleStatusUpdate, _handleTrackTransition, _preloadNextTrack,
    executeAdvancement_start, advanceSelect.
  munfold. unfold effects, after.
  preload_cases; destruct (preloadInProgress s); reflexivity.
Qed.

Lemma handleTrackFinished_preloads s :
  preloads (spawned (effects (handleTrackFinished_start s))) = O
  /\ preload_count (after (handleTrackFinished_start s)) = preload_count s.
Proof.
  unfold handleTrackFinished_start, finishedSelect.
  munfold. unfold effects, after.
  repeat (case_step; simpl in * ); split; reflexivity.
Qed.

Lemma checkForTransition_preloads t i s :
  preloads (spawned (effects (checkForTransition tn t i s))) = O
  /\ preload_count (after (checkForTransition tn t i s)) = preload_count s.
Proof.
  unfold checkForTransition, verifyAndContinuePlayback_start.
  munfold. unfold effects, after.
  repeat (case_step; simpl in * ); split; reflexivity.
Qed.

Lemma step_preloads c c' :
  step tn c c' ->
  preloads (snd c) = preload_count (fst c) ->
  preloads (snd c') = preload_count (fst c').
Proof.
  intros Hstep. destruct Hstep; simpl; intros Hbal;
    rewrite ?preloads_app in *; simpl in *; rewrite ?preloads_app in *;
    simpl in *.
  - rewrite <- handleStatusUpdate_preloads. lia.
  - destruct (handleTrackFinished_preloads s) as [-> ->]. lia.
  - unfold preload_count in *. simpl. destruct (preloadInProgress s); lia.
  - unfold preload_count in *. simpl. destruct (preloadInProgress s); lia.
  - destruct (checkForTransition_preloads t i s) as [-> ->]. lia.
  - exact Hbal.
  - exact Hbal.
  - exact Hbal.
  - destruct H as [_ H]. unfold preload_count. now rewrite H.
Qed.

(** X17.  At every point of every execution that starts from a new
    service, the preload timers that are pending are as many as
    [preloadInProgress] says: one while the flag is set, none
    otherwise.  So at most one preload is pending at any time, and
    while one is, a status event starts no other. *)
Theorem one_preload_pending
    (c : Service * list Task) (status : JsVal) (s : Service) :
  rtc (step tn) (newService, []) c ->
  preloadInProgress s = true ->
  preloads (snd c) = preload_count (fst c)
  /\ (preloads (snd c) <= 1)%nat
  /\ shouldPreloadNow tn status s = false.
Proof.
  intros Hreach Hflag.
  assert (Hbal : preloads (snd c) = preload_count (fst c)).
  { revert c Hreach.
    apply (rtc_ind_r (fun c => preloads (snd c) = preload_count (fst c))
             (newService, [])); [reflexivity|].
    intros y z _ Hstep IH. eapply step_preloads; eassumption. }
  split; [exact Hbal|]. split.
  - rewrite Hbal. unfold preload_count. destruct (preloadInProgress (fst c)); lia.
  - destruct (shouldPreloadNow tn status s) eqn:E; [|reflexivity].
    apply shouldPreloadNow_idle in E. congruence.
Qed.

End EventFacts.

Lemma status_event_tasks_witness :
  (let s := firstPlaying in
   let out := _handleStatusUpdate numbersOnly "Living Room" endingStatus s in
   is_current "Living Room" s = true
   /\ sessionWarmupInProgress s = false
   /\ isAutoAdvancing s = false
   /\ 0 <= currentTrackIndex s
   /\ is_str (get (currentStatus s) "playerState") "PLAYING" = true
   /\ (is_str (get endingStatus "playerState") "IDLE"
       || is_str (get endingStatus "playerState") "BUFFERING") = true
   /\ Some 1 = specNextIndex (repeatMode s) (currentTrackIndex s)
                 (qlen (queue s) - 1)
   /\ nth_track (queue s) 1 = Some trackB
   /\ isAutoAdvancing (after out) = true
   /\ currentTrackIndex (after out) = 1)
  /\ (let s := playing [trackA; trackB; trackC] 0 in
      let out := _handleStatusUpdate numbersOnly "Living Room" atThreshold s in
      is_current "Living Room" s = true
      /\ sessionWarmupInProgress s = false
      /\ isAutoAdvancing s = false
      /\ 0 <= currentTrackIndex s
      /\ preloadInProgress s = false
      /\ n_ge (ToNumber numbersOnly (get atThreshold "currentTime"))
           (n_mul (ToNumber numbersOnly
                     (get (get atThreshold "media") "duration"))
              (Fin seven_tenths)) = true
      /\ 1 = currentTrackIndex s + 1
      /\ nth_track (queue s) 1 = Some trackB
      /\ preloadInProgress (after out) = true).
Proof.
  split.
  - apply (status_event_tasks numbersOnly "Living Room" endingStatus
             firstPlaying (TAdvance 1 trackB)).
    vm_compute. right. right. left. reflexivity.
  - apply (status_event_tasks numbersOnly "Living Room" atThreshold
             (playing [trackA; trackB; trackC] 0) (TPreloadTimer 1 trackB)).
    vm_compute. right. left. reflexivity.
Defined.

Lemma one_preload_pending_witness :
  let s := after (_handleStatusUpdate numbersOnly "Living Room"
                    endingStatus firstPlaying) in
  let c := (s, [TPreloadTimer 1 trackB; TAdvance 1 trackB]) in
  preloads (snd c) = preload_count (fst c)
  /\ (preloads (snd c) <= 1)%nat
  /\ shouldPreloadNow numbersOnly endingStatus s = false.
Proof.
  apply (one_preload_pending numbersOnly).
  - eapply rtc_l.
    { apply (step_other numbersOnly newService firstPlaying []).
      split; reflexivity. }
    eapply rtc_l; [|apply rtc_refl].
    apply (step_status numbersOnly "Living Room" endingStatus firstPlaying []).
  - reflexivity.
Defined.

(** ** Playback that the first poll confirms *)

Section VerifiedFacts.

Variable tn : JsVal -> number.

Lemma verificationTimeoutMs_floor s : (3000 <= verificationTimeoutMs tn s)%Q.
Proof.
  unfold verificationTimeoutMs.
  match goal with
  | |- context [Qle_bool 3000 ?c] => destruct (Qle_bool 3000 c) eqn:E
  end; [now apply Qle_bool_iff|apply Qle_refl].
Qed.

Lemma playingOrBuffering_object status :
  playingOrBuffering status = true -> exists props, status = JObj props.
Proof.
  unfold playingOrBuffering. destruct status; simpl; try discriminate. eauto.
Qed.

Lemma pollDevice_answer d v q t status :
  poll t = PollStatus status ->
  truthy status = true ->
  returns (framed d v q) (pollDevice tn t) (fun polled => polled = status).
Proof.
  intros Hp Ht. unfold pollDevice.
  eapply returns_bind; [apply returns_read|]. intros s Hs.
  destruct (framed_device _ _ _ _ Hs) as [d' ->].
  eapply returns_bind; [apply returns_emit|]. intros _ _.
  rewrite Hp.
  eapply returns_bind; [apply returns_deliver, framed_kept|]. intros _ _.
  apply returns_ret. unfold js_or. now rewrite Ht.
Qed.

Lemma verifyPlayback_confirmed d v q ticks status :
  poll (ticks O) = PollStatus status ->
  playingOrBuffering status = true ->
  Z.of_nat (waitOverrun (ticks O)) < 2750 ->
  returns (framed d v q) (_verifyPlayback tn ticks) (fun b => b = true).
Proof.
  intros Hp Hplay Hover.
  destruct (playingOrBuffering_object status Hplay) as [props ->].
  unfold _verifyPlayback.
  eapply returns_bind; [apply returns_read|]. intros s Hs.
  eapply returns_bind; [apply returns_emit|]. intros _ _.
  eapply returns_bind; [apply returns_deliver, framed_kept|]. intros _ _.
  eapply (returns_bind _ _ _ (fun r => r = Some true));
    [|intros r ->; now apply returns_ret].
  unfold passBound. cbn [verifyLoop].
  assert (Htime : Qltb (inject_Z (interval + Z.of_nat (waitOverrun (ticks O))))
                    (verificationTimeoutMs tn s) = true).
  { unfold Qltb. apply negb_true_iff.
    destruct (Qle_bool _ _) eqn:E; [|reflexivity].
    apply Qle_bool_iff in E.
    pose proof (verificationTimeoutMs_floor s) as Hfloor.
    assert (Hlt : (inject_Z (interval + Z.of_nat (waitOverrun (ticks O)))
                   < 3000)%Q).
    { change 3000%Q with (inject_Z 3000). rewrite <- Zlt_Qlt.
      unfold interval. lia. }
    exfalso. apply (Qlt_irrefl 3000).
    eapply Qle_lt_trans; [exact Hfloor|].
    eapply Qle_lt_trans; [exact E|exact Hlt]. }
  rewrite Htime.
  eapply returns_bind; [apply returns_read|]. intros s1 Hs1.
  destruct (truthy (currentStatus s1) && playingOrBuffering (currentStatus s1));
    [now apply returns_ret|].
  eapply returns_bind; [now apply (pollDevice_answer d v q (ticks O) (JObj props))|].
  intros polled ->. cbn [truthy typeof andb].
  change ("object" =? "object")%string with true. cbn iota.
  eapply (returns_bind _ _ _ (fun b => b = true)).
  - eapply returns_bind; [apply returns_read|]. intros s2 Hs2.
    destruct (framed_device _ _ _ _ Hs2) as [d' ->].
    eapply returns_bind; [apply handleStatusUpdate_framed|]. intros _ _.
    now apply returns_ret.
  - intros b ->. now apply returns_ret.
Qed.

(** X18.  When the device takes the load and answers the first poll
    of the verification with PLAYING or BUFFERING, and the initial
    250 ms wait overran by less than 2750 ms, [playMedia] succeeds,
    whatever the cached status was and whatever status events arrive
    meanwhile; the track was handed to the device. *)
Theorem playMedia_verified_by_first_poll
    (env : PlayEnv) (track : Track) (forceStop : bool)
    (s : Service) (d : Device) (status : JsVal) :
  currentDevice s = Some d ->
  load env = LoadOk ->
  poll (ticks env O) = PollStatus status ->
  playingOrBuffering status = true ->
  Z.of_nat (waitOverrun (ticks env O)) < 2750 ->
  result (playMedia tn env track forceStop s) = Ok true
  /\ loads track (effects (playMedia tn env track forceStop s)).
Proof.
  intros Hd Hload Hp Hplay Hover.
  split; [|now apply (playMedia_loads tn env track forceStop s d)].
  assert (Hs : framed d (verificationTimeout s) (queue s) s)
    by (repeat split; assumption).
  assert (H : returns (framed d (verificationTimeout s) (queue s))
                (playMedia tn env track forceStop) (fun b => b = true)).
  { generalize (verificationTimeout s) (queue s). intros v q.
    unfold playMedia.
    eapply returns_bind; [apply returns_read|]. intros s0 Hs0.
    destruct (framed_device _ _ _ _ Hs0) as [d' ->].
    apply returns_try_catch.
    eapply returns_bind.
    { apply (returns_ensureSessionActive tn _ (framed_warmup _ _ _)
               (framed_device _ _ _) env (framed_kept _ _ _ _ _)
               (framed_kept _ _ _ _ _)). }
    intros _ _.
    eapply returns_bind.
    { apply returns_when. intros _.
      apply returns_stopCurrentPlayback. apply framed_kept. }
    intros _ _.
    eapply (returns_bind _ _ _ any); [|intros _ _; now apply returns_ret].
    unfold _playMediaDirectly.
    eapply returns_bind; [apply returns_read|]. intros s2 Hs2.
    destruct (framed_device _ _ _ _ Hs2) as [d2 ->].
    eapply returns_bind; [apply returns_emit|]. intros _ _.
    rewrite Hload.
    eapply returns_bind; [apply returns_deliver, framed_kept|]. intros _ _.
    eapply returns_bind;
      [now apply (verifyPlayback_confirmed _ _ _ (ticks env) status)|].
    intros b ->. apply returns_ret. exact Logic.I. }
  destruct (H s Hs) as (b & Hr & -> & _). exact Hr.
Qed.

End VerifiedFacts.

Lemma playMedia_verified_by_first_poll_witness :
  let s := playing [trackA; trackB] 0 in
  result (playMedia numbersOnly startsAtOnce trackB true s) = Ok true
  /\ loads trackB (effects (playMedia numbersOnly startsAtOnce trackB true s)).
Proof.
  apply (playMedia_verified_by_first_poll numbersOnly startsAtOnce trackB true
           (playing [trackA; trackB] 0) speaker (statusOf "PLAYING")).
  - reflexivity.
  - reflexivity.
  - reflexivity.
  - reflexivity.
  - simpl. lia.
Defined.

(** ** The numeric checks of the validator *)

Lemma Number_isInteger_iff value :
  Number_isInteger value = true <->
  exists q z, value = JNum (Fin q) /\ (q == inject_Z z)%Q.
Proof.
  split.
  - destruct value as [| |b|[|q]|str| |ps]; try discriminate.
    simpl. intros H. apply Qeq_bool_iff in H.
    exists q, (Qfloor q). split; [reflexivity|]. now symmetry.
  - intros (q & z & -> & Hq). simpl. apply Qeq_bool_iff.
    rewrite Hq at 1. rewrite Qfloor_Z. now symmetry.
Qed.

Lemma isPositiveInteger_iff value fieldName :
  isPositiveInteger value fieldName = Valid <->
  exists q z, value = JNum (Fin q) /\ (q == inject_Z z)%Q /\ 1 <= z.
Proof.
  unfold isPositiveInteger, isInteger, andThen. split.
  - destruct (Number_isInteger value) eqn:E; [|discriminate].
    apply Number_isInteger_iff in E as (q & z & -> & Hq).
    cbn [negb asNumber n_le num_of_Z].
    destruct (Qle_bool q (inject_Z 0)) eqn:E0; [discriminate|]. intros _.
    exists q, z. split; [reflexivity|]. split; [exact Hq|].
    destruct (Z_lt_le_dec z 1) as [Hlt|Hge]; [|exact Hge].
    exfalso. assert (Hle : (q <= inject_Z 0)%Q).
    { rewrite Hq. rewrite <- Zle_Qle. lia. }
    apply Qle_bool_iff in Hle. congruence.
  - intros (q & z & -> & Hq & Hz).
    assert (E : Number_isInteger (JNum (Fin q)) = true)
      by (apply Number_isInteger_iff; eauto).
    rewrite E. cbn [negb asNumber n_le num_of_Z].
    destruct (Qle_bool q (inject_Z 0)) eqn:E0; [|reflexivity].
    apply Qle_bool_iff in E0. rewrite Hq in E0. rewrite <- Zle_Qle in E0. lia.
Qed.

(** X19.  The numeric checks of the validator accept exactly these
    values and throw for every other one, be it of another type, NaN,
    a fraction or out of range: [isVolume] a number from 0 to 1,
    bounds included; [isValidTrackId] an integer of at least 1;
    [isValidLimit] an integer from 1 to 1000. *)
Theorem validator_accepts_exactly
    (numberToString : Q -> string) (value : JsVal) :
  (isVolume numberToString value = Valid <->
   exists q, value = JNum (Fin q) /\ (0 <= q <= 1)%Q)
  /\ (isValidTrackId value = Valid <->
      exists q z, value = JNum (Fin q) /\ (q == inject_Z z)%Q /\ 1 <= z)
  /\ (isValidLimit value = Valid <->
      exists q z, value = JNum (Fin q) /\ (q == inject_Z z)%Q
                  /\ 1 <= z <= 1000).
Proof.
  split; [apply isVolume_number|].
  split; [apply isPositiveInteger_iff|].
  unfold isValidLimit, andThen. split.
  - destruct (isPositiveInteger value "limit") eqn:E; [|discriminate].
    apply isPositiveInteger_iff in E as (q & z & -> & Hq & Hz).
    cbn [asNumber n_gt num_of_Z]. unfold Qltb.
    destruct (Qle_bool q (inject_Z 1000)) eqn:E1; [|discriminate]. intros _.
    exists q, z. split; [reflexivity|]. split; [exact Hq|].
    apply Qle_bool_iff in E1. rewrite Hq in E1. rewrite <- Zle_Qle in E1. lia.
  - intros (q & z & -> & Hq & Hz).
    assert (E : isPositiveInteger (JNum (Fin q)) "limit" = Valid).
    { apply isPositiveInteger_iff. exists q, z. repeat split; auto; lia. }
    rewrite E. cbn [asNumber n_gt num_of_Z]. unfold Qltb.
    assert (E1 : Qle_bool q (inject_Z 1000) = true).
    { apply Qle_bool_iff. rewrite Hq. rewrite <- Zle_Qle. lia. }
    now rewrite E1.
Qed.

(** ** What the watch of a preloaded track can start *)

(** X20.  The timer callback of a preloaded transition leaves a task
    behind only when no advance is in flight, and the task is for the
    preloaded track.  It keeps watching, changing nothing, only while
    the current index is below the preloaded one.  It switches only
    when the cached status has a duration and either the remaining
    time [duration - currentTime], a difference of doubles, is at
    most 2 or the state is IDLE, and only if the cached state is not
    PLAYING; the guard flag is then set and the current index moved
    to the preloaded track before the switch begins. *)
Theorem watch_tasks
    (tn : JsVal -> number) (nextTrack : Track) (nextIndex : Z)
    (s : Service) (task : Task) :
  In (Spawn task) (effects (checkForTransition tn nextTrack nextIndex s)) ->
  isAutoAdvancing s = false
  /\ match task with
     | TWatch i t =>
         i = nextIndex /\ t = nextTrack
         /\ currentTrackIndex s < nextIndex
         /\ after (checkForTransition tn nextTrack nextIndex s) = s
     | TSwitch i t =>
         i = nextIndex /\ t = nextTrack
         /\ truthy (get (get (currentStatus s) "media") "duration") = true
         /\ (n_le (n_sub
                     (ToNumber tn (get (get (currentStatus s) "media") "duration"))
                     (ToNumber tn (js_or (get (currentStatus s) "currentTime")
                                     (JNum (num_of_Z 0)))))
               (num_of_Z 2)
             || is_str (get (currentStatus s) "playerState") "IDLE") = true
         /\ is_str (get (currentStatus s) "playerState") "PLAYING" = false
         /\ after (checkForTransition tn nextTrack nextIndex s) =
            with_currentTrackIndex nextIndex (with_isAutoAdvancing true s)
     | _ => False
     end.
Proof.
  unfold checkForTransition, verifyAndContinuePlayback_start.
  munfold. unfold effects, after.
  repeat (case_step; simpl in * ); intros Hin;
    repeat (destruct Hin as [Hin|Hin]; try discriminate Hin);
    try contradiction; try (injection Hin as <-).
  all: bool_facts.
  all: repeat match goal with |- _ /\ _ => split end;
    try assumption; try reflexivity; try lia; try congruence.
  rewrite H0 in Heqb2. simpl in Heqb2. now apply negb_true_iff in Heqb2.
Qed.

Lemma watch_tasks_witness :
  (let s := with_currentStatus endingStatus (playing [trackA; trackB] 0) in
   isAutoAdvancing s = false
   /\ 1 = 1 /\ trackB = trackB
   /\ currentTrackIndex s < 1
   /\ after (checkForTransition numbersOnly trackB 1 s) = s)
  /\ (let s := with_currentStatus twoSecondsLeft (playing [trackA; trackB] 0) in
      isAutoAdvancing s = false
      /\ 1 = 1 /\ trackB = trackB
      /\ truthy (get (get (currentStatus s) "media") "duration") = true
      /\ (n_le (n_sub
                  (ToNumber numbersOnly
                     (get (get (currentStatus s) "media") "duration"))
                  (ToNumber numbersOnly
                     (js_or (get (currentStatus s) "currentTime")
                        (JNum (num_of_Z 0)))))
            (num_of_Z 2)
          || is_str (get (currentStatus s) "playerState") "IDLE") = true
      /\ is_str (get (currentStatus s) "playerState") "PLAYING" = false
      /\ after (checkForTransition numbersOnly trackB 1 s) =
         with_currentTrackIndex 1 (with_isAutoAdvancing true s)).
Proof.
  split.
  - apply (watch_tasks numbersOnly trackB 1
             (with_currentStatus endingStatus (playing [trackA; trackB] 0))
             (TWatch 1 trackB)).
    vm_compute. left. reflexivity.
  - apply (watch_tasks numbersOnly trackB 1
             (with_currentStatus twoSecondsLeft (playing [trackA; trackB] 0))
             (TSwitch 1 trackB)).
    vm_compute. left. reflexivity.
Defined.

(** ** The cached status is an object *)

Ltac object_writes :=
  apply keeps_modify; intros ? [? Hobj];
  unfold statusIsObject; simpl; rewrite ?Hobj; simpl; eauto.

Section ObjectFacts.

Variable tn : JsVal -> number.
Variable numberToString : Q -> string.

Lemma handleStatusUpdate_object deviceName status :
  keeps statusIsObject (_handleStatusUpdate tn deviceName status).
Proof.
  intros s [props Hs]. unfold statusIsObject.
  unfold _handleStatusUpdate, _handleTrackTransition, _preloadNextTrack,
    executeAdvancement_start, advanceSelect.
  munfold. unfold after.
  repeat (case_step; simpl in * ); eauto;
    bool_facts; destruct status; simpl in *; try discriminate; eauto.
Qed.

Lemma object_warmup b s :
  statusIsObject s -> statusIsObject (with_sessionWarmupInProgress b s).
Proof. intros H. exact H. Qed.

Lemma playMedia_object env track forceStop :
  keeps statusIsObject (playMedia tn env track forceStop).
Proof.
  apply keeps_playMedia; [apply object_warmup|apply handleStatusUpdate_object].
Qed.

Lemma requestStatusUpdate_object : keeps statusIsObject _requestStatusUpdate.
Proof. unfold _requestStatusUpdate. keeps_tac. Qed.

Lemma disconnect_object : keeps statusIsObject disconnect.
Proof.
  intros s Hs. rewrite disconnect_eq. unfold after; simpl.
  destruct (currentDevice s); [|exact Hs].
  unfold statusIsObject, _getDefaultStatus. simpl. eauto.
Qed.

Lemma applyOp_object op : keeps statusIsObject (applyOp op).
Proof.
  pose proof disconnect_object.
  destruct op; simpl;
    unfold addToQueue, removeFromQueue, clearQueue, shuffleQueue,
      restoreQueueOrder, setRepeatMode;
    keeps_tac; object_writes.
Qed.

Lemma connectToDevice_object c : keeps statusIsObject (connectToDevice tn c).
Proof.
  unfold connectToDevice.
  pose proof disconnect_object. pose proof handleStatusUpdate_object.
  destruct c; keeps_tac; object_writes.
Qed.

Lemma executeAdvancement_object envs :
  keeps statusIsObject (_executeAdvancement tn envs).
Proof.
  assert (Hloop : forall n attempt t q i,
            keeps statusIsObject (recoveryLoop tn n attempt envs t q i)).
  { induction n as [|n IH]; intros attempt t q i; simpl; [apply keeps_ret|].
    unfold playAttempt, _attemptDeviceRecovery.
    pose proof connectToDevice_object. pose proof playMedia_object.
    keeps_tac; object_writes. }
  unfold _executeAdvancement, _playTrackWithRecovery, advanceSelect.
  pose proof Hloop.
  apply keeps_finally; [|object_writes].
  keeps_tac; object_writes.
Qed.

Lemma keeps_at Inv {A} (m : M A) s : keeps Inv m -> Inv s -> Inv (after (m s)).
Proof. intros Hm Hs. now apply Hm. Qed.

(** X21.  The cached status is an object in every state the service
    reaches: the constructor sets the default status, and no queue
    command, playback command, device event or background advance
    replaces it by anything but an object.  So the DISCONNECTED
    default of [getStatus] is never used: the state it reports is
    always the string of the sanitized cached status. *)
Theorem cached_status_stays_object
    (s : Service) (op : QueueOp) (env : PlayEnv) (track : Track)
    (forceStop : bool) (playerAnswer : Res unit) (level : JsVal)
    (volumeAnswer : VolumeAnswer) (trackNumber : Z) (jump : JumpAnswer)
    (startIndex : Z) (deviceName : string) (status : JsVal)
    (nextTrack : Track) (nextIndex : Z) (envs : Z -> AttemptEnv) :
  statusIsObject s ->
  (statusIsObject (after (applyOp op s))
     /\ statusIsObject (after (playMedia tn env track forceStop s))
     /\ statusIsObject (after (skipToNext tn env playerAnswer s))
     /\ statusIsObject (after (skipToPrevious tn env s))
     /\ statusIsObject (after (skipToTrack tn env trackNumber s))
     /\ statusIsObject (after (playQueue tn env jump startIndex s))
     /\ statusIsObject (after (stop playerAnswer s))
     /\ statusIsObject (after (pause playerAnswer s))
     /\ statusIsObject (after (resume playerAnswer s))
     /\ statusIsObject (after (seek playerAnswer s))
     /\ statusIsObject
          (after (setVolume numberToString level volumeAnswer s))
     /\ statusIsObject (after (_handleStatusUpdate tn deviceName status s))
     /\ statusIsObject (after (handleTrackFinished_start s))
     /\ statusIsObject (after (checkForTransition tn nextTrack nextIndex s))
     /\ statusIsObject (after (_executeAdvancement tn envs s)))
  /\ exists state,
       reportPlayerState (getStatus s) = JStr state
       /\ get (_sanitizeStatus (currentStatus s)) "playerState" = JStr state.
Proof.
  intros Hs. split.
  - pose proof (playMedia_object env).
    pose proof requestStatusUpdate_object.
    pose proof (keeps_ensureSessionActive tn statusIsObject object_warmup
                  handleStatusUpdate_object env).
    repeat match goal with |- _ /\ _ => split end.
    + now apply applyOp_object.
    + now apply playMedia_object.
    + apply (keeps_at statusIsObject
               (skipToNext tn env playerAnswer)); [|exact Hs].
      unfold skipToNext. keeps_tac; object_writes.
    + apply (keeps_at statusIsObject
               (skipToPrevious tn env)); [|exact Hs].
      unfold skipToPrevious. keeps_tac; object_writes.
    + apply (keeps_at statusIsObject
               (skipToTrack tn env trackNumber)); [|exact Hs].
      unfold skipToTrack. keeps_tac; object_writes.
    + apply (keeps_at statusIsObject
               (playQueue tn env jump startIndex)); [|exact Hs].
      unfold playQueue, _playLegacyQueueTrack. keeps_tac; object_writes.
    + apply (keeps_at statusIsObject
               (stop playerAnswer)); [|exact Hs].
      unfold stop. keeps_tac; object_writes.
    + apply (keeps_at statusIsObject
               (pause playerAnswer)); [|exact Hs].
      unfold pause. keeps_tac; object_writes.
    + apply (keeps_at statusIsObject
               (resume playerAnswer)); [|exact Hs].
      unfold resume. keeps_tac; object_writes.
    + apply (keeps_at statusIsObject
               (seek playerAnswer)); [|exact Hs].
      unfold seek. keeps_tac.
    + apply (keeps_at statusIsObject
               (setVolume numberToString level volumeAnswer)); [|exact Hs].
      unfold setVolume. keeps_tac; object_writes.
    + now apply handleStatusUpdate_object.
    + apply (keeps_at statusIsObject
               handleTrackFinished_start); [|exact Hs].
      unfold handleTrackFinished_start, finishedSelect. keeps_tac; object_writes.
    + apply (keeps_at statusIsObject
               (checkForTransition tn nextTrack nextIndex)); [|exact Hs].
      unfold checkForTransition, verifyAndContinuePlayback_start.
      keeps_tac; object_writes.
    + now apply executeAdvancement_object.
  - destruct Hs as [props Hs]. unfold getStatus. cbn [reportPlayerState].
    rewrite Hs. cbn [truthy]. rewrite sanitizeStatus_playerState.
    unfold is_string.
    destruct (get (JObj props) "playerState") eqn:E; simpl; eauto.
Qed.

End ObjectFacts.

Lemma cached_status_stays_object_witness :
  let s := firstPlaying in
  (statusIsObject (after (applyOp OpClear s))
   /\ statusIsObject (after (playMedia numbersOnly neverPlays trackB true s))
   /\ statusIsObject (after (skipToNext numbersOnly neverPlays (Ok tt) s))
   /\ statusIsObject (after (skipToPrevious numbersOnly neverPlays s))
   /\ statusIsObject (after (skipToTrack numbersOnly neverPlays 2 s))
   /\ statusIsObject (after (playQueue numbersOnly neverPlays JumpOk 1 s))
   /\ statusIsObject (after (stop (Ok tt) s))
   /\ statusIsObject (after (pause (Ok tt) s))
   /\ statusIsObject (after (resume (Ok tt) s))
   /\ statusIsObject (after (seek (Ok tt) s))
   /\ statusIsObject (after (setVolume showBound half VolumeOk s))
   /\ statusIsObject
        (after (_handleStatusUpdate numbersOnly "Living Room" endingStatus s))
   /\ statusIsObject (after (handleTrackFinished_start s))
   /\ statusIsObject (after (checkForTransition numbersOnly trackB 1 s))
   /\ statusIsObject
        (after (_executeAdvancement numbersOnly (fun _ => steadyAttempt) s)))
  /\ exists state,
       reportPlayerState (getStatus s) = JStr state
       /\ get (_sanitizeStatus (currentStatus s)) "playerState" = JStr state.
Proof.
  apply (cached_status_stays_object numbersOnly showBound firstPlaying
           OpClear neverPlays trackB true (Ok tt) half VolumeOk 2 JumpOk 1
           "Living Room" endingStatus trackB 1 (fun _ => steadyAttempt)).
  eexists. reflexivity.
Defined.

(** ** A sanitized status is a fixed point of the sanitizer *)

Lemma js_or_null_fixed v : null_or_truthy v = true -> js_or v JNull = v.
Proof.
  unfold null_or_truthy, js_or. destruct v; simpl; try discriminate;
    try reflexivity; intros ->; reflexivity.
Qed.

Lemma keys_eq_inv (o : JsVal) (ks : list string) :
  string_list_eqb (keys o) ks = true -> keys o = ks.
Proof. unfold string_list_eqb. apply bool_decide_eq_true. Qed.

Lemma metadata_fixed w :
  metadata_shape w = true ->
  (if truthy w && (typeof w =? "object")%string
   then JObj [("title"%string, js_or (get w "title") JNull)] else JNull) = w.
Proof.
  unfold metadata_shape. destruct w as [| |b|n|str| |ps]; try discriminate.
  - reflexivity.
  - intros H. apply andb_true_iff in H as [Hk Ht].
    apply keys_eq_inv in Hk. simpl in Hk.
    destruct ps as [|[k t] [|? ?]]; try discriminate Hk.
    injection Hk as ->. simpl in *. now rewrite js_or_null_fixed.
Qed.

Lemma volume_fixed status safe :
  volume_shape (get status "volume") = true ->
  sanitizeVolume status safe =
  match get status "volume" with
  | JNull => safe
  | e => set safe "volume" e
  end.
Proof.
  unfold volume_shape, sanitizeVolume.
  destruct (get status "volume") as [| |b|n|str| |ps]; try discriminate.
  - reflexivity.
  - intros H. apply andb_true_iff in H as [H Hm]. apply andb_true_iff in H as [Hk Hl].
    apply keys_eq_inv in Hk. simpl in Hk.
    destruct ps as [|[k1 l] [|[k2 m] [|? ?]]]; try discriminate Hk.
    injection Hk as -> ->. unfold is_number, is_boolean in *. simpl in *.
    rewrite Hl, Hm. reflexivity.
Qed.

Lemma media_fixed status safe :
  media_shape (get status "media") = true ->
  sanitizeMedia status safe =
  match get status "media" with
  | JNull => safe
  | f => set safe "media" f
  end.
Proof.
  unfold media_shape, sanitizeMedia.
  destruct (get status "media") as [| |b|n|str| |ps]; try discriminate.
  - reflexivity.
  - intros H. repeat (apply andb_true_iff in H as [H ?]).
    apply keys_eq_inv in H. simpl in H.
    destruct ps as [|[k1 x] [|[k2 y] [|[k3 z] [|[k4 w] [|? ?]]]]];
      try discriminate H.
    injection H as -> -> -> ->. simpl in *.
    pose proof (metadata_fixed w) as Hw.
    rewrite !js_or_null_fixed by assumption.
    assert (Hz : (if (typeof z =? "number")%string then z else JNull) = z).
    { unfold is_number, is_null in *.
      destruct (typeof z =? "number")%string; [reflexivity|].
      destruct z; try discriminate; reflexivity. }
    rewrite Hz.
    destruct (truthy w && (typeof w =? "object")%string) eqn:Ew; simpl.
    + rewrite Hw by assumption. reflexivity.
    + rewrite <- Hw by assumption. reflexivity.
Qed.

Lemma sanitizeStatus_fixed status :
  status_shape status = true -> _sanitizeStatus status = status.
Proof.
  unfold status_shape. destruct status as [| |b|n|str| |ps]; try discriminate.
  intros H. repeat (apply andb_true_iff in H as [H ?]).
  apply keys_eq_inv in H. simpl in H. unfold status_keys in H.
  destruct ps as [|[k1 a] [|[k2 b] [|[k3 c] [|[k4 d] [|[k5 e] [|[k6 f] [|? ?]]]]]]];
    try discriminate H.
  injection H as -> -> -> -> -> ->.
  rewrite sanitizeStatus_object.
  rewrite media_fixed, volume_fixed by assumption.
  unfold is_number, is_string in *. simpl in *.
  repeat match goal with H : (_ =? _)%string = true |- _ => rewrite H end.
  simpl.
  destruct a, e, f; simpl in *; try discriminate; reflexivity.
Qed.

(** X22.  Sanitizing twice is the same as sanitizing once, and a
    status that already has the sanitized shape (the six fields,
    typed, with [volume] and [media] null or complete) passes through
    [_sanitizeStatus] unchanged. *)
Theorem sanitizeStatus_idempotent (status : JsVal) :
  _sanitizeStatus (_sanitizeStatus status) = _sanitizeStatus status
  /\ (if status_shape status then _sanitizeStatus status = status else True).
Proof.
  split.
  - apply sanitizeStatus_fixed, shaped_status_shape, sanitizeStatus_shaped.
  - destruct (status_shape status) eqn:E; [|exact Logic.I].
    now apply sanitizeStatus_fixed.
Qed.

(** ** Doubles at work *)

Example seven_tenths_double :
  seven_tenths = (3152519739159347 # 4503599627370496)%Q.
Proof. vm_compute. reflexivity. Qed.

(** [3 * 0.7] is [2.0999999999999996], below the exact [2.1]. *)
Example threshold_of_three_seconds :
  n_mul (num_of_Z 3) (Fin seven_tenths)
  = Fin (1182194902184755 # 562949953421312)
  /\ (1182194902184755 # 562949953421312 < 21 # 10)%Q.
Proof. split; [vm_compute; reflexivity | reflexivity]. Qed.

Example preload_at_rounded_threshold :
  shouldPreloadNow numbersOnly atThreshold (playing [trackA; trackB; trackC] 0)
  = true.
Proof. vm_compute. reflexivity. Qed.

(** [3 - 0.9999999999999999] is [2], though the exact difference is
    above 2. *)
Example remaining_of_three_seconds :
  n_sub (num_of_Z 3) (Fin (9007199254740991 # 9007199254740992))
  = num_of_Z 2
  /\ (2 < 3 - (9007199254740991 # 9007199254740992))%Q.
Proof. split; [vm_compute; reflexivity | reflexivity]. Qed.

Example switch_at_rounded_two_seconds :
  effects (checkForTransition numbersOnly trackB 1
             (with_currentStatus twoSecondsLeft (playing [trackA; trackB] 0)))
  = [Spawn (TSwitch 1 trackB)].
Proof. vm_compute. reflexivity. Qed.
